(** * Running Bird: the simulation core of the GameCanvas component

    A shallow embedding of the game logic of the canvas component
    ([changeLane], [doJump], [nextLevel], [resetGame], [spawnSegment],
    [spawnObstacle] and the frame callback [animate]) together with the
    properties of the design document that concern it.

    Conventions of the embedding.

    - A JavaScript number that only ever holds integers (lanes, health,
      level) is a [Z].  Every other number of the simulation (positions,
      times, score) is an exact rational [Q]: sums, products and comparisons
      are the mathematical ones and the rounding of doubles is not modelled.
      The one place where the code tests for a value that is not a number, the
      frame delta, is modelled on IEEE binary64 values ([spec_float]).
    - A [useRef] cell is a field of the store; the callback of a [forEach]
      is a function that is folded over the array.
    - [Math.random()] reads the next value of an oracle [rng : nat -> Q].
    - Meshes, materials, camera, particles, the lane highlighter and sound are
      rendering and are left out.  What the logic reads of a mesh is kept: its
      parent group, its [position.z] and, for the bouncing ball, the
      [position.y] that is computed from the stored width. *)

From Stdlib Require Import ZArith QArith Qround Qabs List Bool Lia Lqa.
From Stdlib Require Import Floats.SpecFloat.
Import ListNotations.

Local Open Scope Z_scope.

(** ** Comparisons of numbers *)

(** [a > b] *)
Definition gtQ (a b : Q) : bool := negb (Qle_bool a b).

(** [a < b] *)
Definition ltQ (a b : Q) : bool := negb (Qle_bool b a).

(** [a <= b] *)
Definition leQ (a b : Q) : bool := Qle_bool a b.

(** [Math.floor] and [Math.round] (to the nearest integer, halves upwards). *)
Definition Math_floor (x : Q) : Z := Qfloor x.
Definition Math_round (x : Q) : Z := Qfloor (x + 0.5).

(** [THREE.MathUtils.lerp(x, y, t)] *)
Definition lerp (x y t : Q) : Q := ((1 - t) * x + t * y)%Q.

(** ** Enumerations (types.ts and the component) *)

Inductive GamePhase := FLAT | ROUND | TUNNEL_GLOWING | TUNNEL_CLEAN.

Inductive GameState := MENU | PLAYING | PAUSED | GAME_OVER | LEVEL_COMPLETE.

Inductive ObstacleType :=
  | SIMPLE | WALL | INSTA_DEATH | BULLET | DOOR
  | BALL | HEART | SPEED_BOOST | CLOCK_BLUE | EXTRUDING.

(** The argument of the [onEvent] callback. *)
Inductive GameEvent := DAMAGE | COLLECT | BOOST.

Definition GamePhase_eqb (a b : GamePhase) : bool :=
  match a, b with
  | FLAT, FLAT | ROUND, ROUND
  | TUNNEL_GLOWING, TUNNEL_GLOWING | TUNNEL_CLEAN, TUNNEL_CLEAN => true
  | _, _ => false
  end.

(** ** Constants *)

Definition SPEED_BASE : Q := 16.
Definition JUMP_FORCE : Q := 40.
Definition GRAVITY : Q := -155.
Definition LANE_WIDTH : Q := 3.0.
Definition SEGMENT_LENGTH : Q := 8.0.
Definition MAX_HEALTH : Z := 100.
Definition PHASE_DURATION : Q := 60.
Definition LANE_COUNT_FLAT : Z := 7.
Definition LANE_COUNT_ROUND : Z := 12.

(** ** Data *)

(** [mesh.position.y] of an obstacle.  The positioning logic of
    [spawnObstacle] sets it from the phase and the lane; the frame callback
    overwrites it for a BALL with
    [width/2 + |sin(gameTime * freq * PI + phase)| * 3].  The sine is not
    evaluated: the model keeps its arguments. *)
Inductive MeshY :=
  | SpawnY
  | BounceY (base gameTime freq phase : Q).

(** [ObstacleData.params].  [phase] holds the random draw [r] of
    [phase: Math.random() * Math.PI * 2], that is the phase in turns. *)
Record ObstacleParams := {
  speed : Q;
  range : Q;
  offset : Q;
  vertical : bool;
  growState : Q;
  freq : Q;
  phase : Q
}.

(** [ObstacleData].  Of [mesh] the model keeps the parent (the identifier of
    the segment group the mesh was added to, [None] once it is removed) and
    the position along the track. *)
Record ObstacleData := {
  meshParent : option nat;
  meshZ : Q;
  meshY : MeshY;
  type : ObstacleType;
  lane : Z;
  width : Q;
  exploded : bool;
  params : ObstacleParams
}.

(** A track segment: a [THREE.Group], of which the logic reads the identity
    and [position.z]. *)
Record Segment := {
  segId : nat;
  positionZ : Q
}.

(** The track: the two arrays [segmentsRef] and [obstaclesRef], the groups
    that were shifted out of [segmentsRef] (obstacle meshes still have them as
    parent), the next group identifier, and the random oracle with the number
    of draws made so far. *)
Record Track := {
  segmentsRef : list Segment;
  detached : list Segment;
  obstaclesRef : list ObstacleData;
  nextId : nat;
  rng : nat -> Q;
  randomCalls : nat
}.

(** The player: [targetLane], [currentLane], [playerVel.y], [isJumping] and
    [playerRef.userData.jumpHeight]. *)
Record Player := {
  targetLane : Z;
  currentLane : Q;
  playerVelY : Q;
  isJumping : bool;
  jumpHeight : Q
}.

(** What a collision writes: [scoreRef], [healthRef], [speedMultRef],
    [speedTimerRef], the calls of [onEvent] and the calls of the
    [setGameState] prop, both oldest first. *)
Record Session := {
  scoreRef : Q;
  healthRef : Z;
  speedMultRef : Q;
  speedTimerRef : Q;
  events : list GameEvent;
  stateCalls : list GameState
}.

(** The component's refs.  [gameStateRef] is the copy of the [gameState] prop
    that an effect refreshes after a render; [worldGroupRef] tells whether the
    world group exists (it does once the component is mounted). *)
Record Store := {
  track : Track;
  player : Player;
  session : Session;
  timeRef : Q;
  phaseRef : GamePhase;
  levelRef : Z;
  gameStateRef : GameState;
  gameTimeRef : Q;
  lastTimeRef : spec_float;
  emptyModeRef : bool;
  worldGroupRef : bool
}.

(** ** Field updates *)

Definition setExploded (o : ObstacleData) (b : bool) : ObstacleData :=
  {| meshParent := meshParent o; meshZ := meshZ o; meshY := meshY o;
     type := type o; lane := lane o; width := width o; exploded := b;
     params := params o |}.

(** [obs.mesh.parent.remove(obs.mesh)] *)
Definition removeMesh (o : ObstacleData) : ObstacleData :=
  {| meshParent := None; meshZ := meshZ o; meshY := meshY o;
     type := type o; lane := lane o; width := width o; exploded := exploded o;
     params := params o |}.

Definition setMeshZ (o : ObstacleData) (z : Q) : ObstacleData :=
  {| meshParent := meshParent o; meshZ := z; meshY := meshY o;
     type := type o; lane := lane o; width := width o; exploded := exploded o;
     params := params o |}.

Definition setMeshY (o : ObstacleData) (y : MeshY) : ObstacleData :=
  {| meshParent := meshParent o; meshZ := meshZ o; meshY := y;
     type := type o; lane := lane o; width := width o; exploded := exploded o;
     params := params o |}.

Definition setWidth (o : ObstacleData) (w : Q) : ObstacleData :=
  {| meshParent := meshParent o; meshZ := meshZ o; meshY := meshY o;
     type := type o; lane := lane o; width := w; exploded := exploded o;
     params := params o |}.

Definition setHealth (s : Session) (h : Z) : Session :=
  {| scoreRef := scoreRef s; healthRef := h; speedMultRef := speedMultRef s;
     speedTimerRef := speedTimerRef s; events := events s;
     stateCalls := stateCalls s |}.

Definition setScore (s : Session) (x : Q) : Session :=
  {| scoreRef := x; healthRef := healthRef s; speedMultRef := speedMultRef s;
     speedTimerRef := speedTimerRef s; events := events s;
     stateCalls := stateCalls s |}.

Definition setSpeed (s : Session) (mult timer : Q) : Session :=
  {| scoreRef := scoreRef s; healthRef := healthRef s; speedMultRef := mult;
     speedTimerRef := timer; events := events s;
     stateCalls := stateCalls s |}.

(** [onEvent && onEvent(e)] *)
Definition onEvent (e : GameEvent) (s : Session) : Session :=
  {| scoreRef := scoreRef s; healthRef := healthRef s;
     speedMultRef := speedMultRef s; speedTimerRef := speedTimerRef s;
     events := events s ++ [e]; stateCalls := stateCalls s |}.

(** [setGameState(g)]: the call is recorded; [gameStateRef] changes only when
    the parent has rendered again. *)
Definition setGameState (g : GameState) (s : Session) : Session :=
  {| scoreRef := scoreRef s; healthRef := healthRef s;
     speedMultRef := speedMultRef s; speedTimerRef := speedTimerRef s;
     events := events s; stateCalls := stateCalls s ++ [g] |}.

Definition setTarget (p : Player) (l : Z) : Player :=
  {| targetLane := l; currentLane := currentLane p;
     playerVelY := playerVelY p; isJumping := isJumping p;
     jumpHeight := jumpHeight p |}.

Definition setCurrentLane (p : Player) (l : Q) : Player :=
  {| targetLane := targetLane p; currentLane := l;
     playerVelY := playerVelY p; isJumping := isJumping p;
     jumpHeight := jumpHeight p |}.

Definition setJump (p : Player) (j : bool) (v h : Q) : Player :=
  {| targetLane := targetLane p; currentLane := currentLane p;
     playerVelY := v; isJumping := j; jumpHeight := h |}.

Definition withTrack (st : Store) (t : Track) : Store :=
  {| track := t; player := player st; session := session st;
     timeRef := timeRef st; phaseRef := phaseRef st; levelRef := levelRef st;
     gameStateRef := gameStateRef st; gameTimeRef := gameTimeRef st;
     lastTimeRef := lastTimeRef st; emptyModeRef := emptyModeRef st;
     worldGroupRef := worldGroupRef st |}.

Definition withPlayer (st : Store) (p : Player) : Store :=
  {| track := track st; player := p; session := session st;
     timeRef := timeRef st; phaseRef := phaseRef st; levelRef := levelRef st;
     gameStateRef := gameStateRef st; gameTimeRef := gameTimeRef st;
     lastTimeRef := lastTimeRef st; emptyModeRef := emptyModeRef st;
     worldGroupRef := worldGroupRef st |}.

Definition withSession (st : Store) (s : Session) : Store :=
  {| track := track st; player := player st; session := s;
     timeRef := timeRef st; phaseRef := phaseRef st; levelRef := levelRef st;
     gameStateRef := gameStateRef st; gameTimeRef := gameTimeRef st;
     lastTimeRef := lastTimeRef st; emptyModeRef := emptyModeRef st;
     worldGroupRef := worldGroupRef st |}.

(** ** Lane changes *)

(** [changeLane(dir)], as a function of the phase and of [targetLane]. *)
Definition nextTargetLane (ph : GamePhase) (target dir : Z) : Z :=
  let next := target + dir in
  match ph with
  | FLAT =>
      let max := 3 in
      let next := if next <? - max then - max else next in
      if next >? max then max else next
  | _ =>
      let limit := match ph with ROUND => LANE_COUNT_ROUND | _ => 12 end in
      let next := if next <? 0 then limit - 1 else next in
      if next >=? limit then 0 else next
  end.

Definition changeLane (dir : Z) (st : Store) : Store :=
  withPlayer st
    (setTarget (player st)
       (nextTargetLane (phaseRef st) (targetLane (player st)) dir)).

(** [doJump()]; the jump sound is not modelled. *)
Definition doJump (st : Store) : Store :=
  if isJumping (player st) then st
  else withPlayer st (setJump (player st) true JUMP_FORCE
                        (jumpHeight (player st))).

(** ** Random draws and spawning *)

(** A computation that reads and writes the track. *)
Definition Gen (A : Type) : Type := Track -> A * Track.

Definition ret {A : Type} (a : A) : Gen A := fun t => (a, t).

Definition bind {A B : Type} (c : Gen A) (k : A -> Gen B) : Gen B :=
  fun t => let (a, t') := c t in k a t'.

Notation "x <- c ;; k" := (bind c (fun x => k))
  (at level 61, c at next level, right associativity).
Notation "c ;;; k" := (bind c (fun _ => k))
  (at level 61, right associativity).

(** [Math.random()] *)
Definition Math_random : Gen Q := fun t =>
  (rng t (randomCalls t),
   {| segmentsRef := segmentsRef t; detached := detached t;
      obstaclesRef := obstaclesRef t; nextId := nextId t; rng := rng t;
      randomCalls := S (randomCalls t) |}).

(** [new THREE.Group()] for a segment, with [g.position.z = z]. *)
Definition newGroup (z : Q) : Gen Segment := fun t =>
  ({| segId := nextId t; positionZ := z |},
   {| segmentsRef := segmentsRef t; detached := detached t;
      obstaclesRef := obstaclesRef t; nextId := S (nextId t); rng := rng t;
      randomCalls := randomCalls t |}).

(** [segmentsRef.current.push(g)] *)
Definition pushSegment (g : Segment) : Gen unit := fun t =>
  (tt,
   {| segmentsRef := segmentsRef t ++ [g]; detached := detached t;
      obstaclesRef := obstaclesRef t; nextId := nextId t; rng := rng t;
      randomCalls := randomCalls t |}).

(** [obstaclesRef.current.push(o)] *)
Definition pushObstacle (o : ObstacleData) : Gen unit := fun t =>
  (tt,
   {| segmentsRef := segmentsRef t; detached := detached t;
      obstaclesRef := obstaclesRef t ++ [o]; nextId := nextId t; rng := rng t;
      randomCalls := randomCalls t |}).

(** The lane drawn by [spawnObstacle] from the random value [r]. *)
Definition spawnLane (ph : GamePhase) (r : Q) : Z :=
  match ph with
  | FLAT => Math_floor (r * inject_Z LANE_COUNT_FLAT) - 3
  | _ => Math_floor (r * inject_Z LANE_COUNT_ROUND)
  end.

(** The type drawn by [spawnObstacle] from the random value [r]: the chain of
    [if (r > ...) ... else if ...] with SIMPLE as the initial value. *)
Definition spawnType (r : Q) : ObstacleType :=
  if gtQ r 0.95 then HEART
  else if gtQ r 0.90 then SPEED_BOOST
  else if gtQ r 0.85 then CLOCK_BLUE
  else if gtQ r 0.75 then BULLET
  else if gtQ r 0.65 then EXTRUDING
  else if gtQ r 0.55 then WALL
  else if gtQ r 0.40 then DOOR
  else if gtQ r 0.25 then BALL
  else SIMPLE.

(** [tileRow] and [zPos] of the positioning logic. *)
Definition spawnTileRow (r : Q) : Z := Math_floor (r * 4).

Definition spawnZPos (tileRow : Z) : Q :=
  (inject_Z tileRow * LANE_WIDTH + LANE_WIDTH / 2)%Q.

(** [collisionWidth]: 1.0, set to 2.0 in the DOOR branch of the mesh
    generation. *)
Definition collisionWidth (ty : ObstacleType) : Q :=
  match ty with DOOR => 2.0 | _ => 1.0 end.

(** [spawnObstacle(parent)].  The draw of [shapeType] in the EXTRUDING branch
    only chooses the mesh, but it advances the oracle. *)
Definition spawnObstacle (ph : GamePhase) (emptyMode : bool) (parent : Segment)
  : Gen unit :=
  if emptyMode then ret tt
  else
    rl <- Math_random ;;
    let lane := spawnLane ph rl in
    r <- Math_random ;;
    let type := spawnType r in
    _shape <- (match type with
               | EXTRUDING => rs <- Math_random ;; ret (Math_floor (rs * 4))
               | _ => ret 0
               end) ;;
    rt <- Math_random ;;
    let zPos := spawnZPos (spawnTileRow rt) in
    rf <- Math_random ;;
    rp <- Math_random ;;
    pushObstacle
      {| meshParent := Some (segId parent);
         meshZ := zPos;
         meshY := SpawnY;
         type := type;
         lane := lane;
         width := collisionWidth type;
         exploded := false;
         params := {| speed := (SPEED_BASE * 2.0)%Q;
                      range := 0;
                      offset := 0;
                      vertical := false;
                      growState := 0;
                      freq := (0.2 + rf * 0.5)%Q;
                      phase := rp |} |}.

(** [for (let k = 0; k < n; k++) body] *)
Fixpoint times (n : nat) (body : Gen unit) : Gen unit :=
  match n with
  | O => ret tt
  | S n' => body ;;; times n' body
  end.

(** [spawnCount] of [spawnSegment] *)
Definition spawnCount : Gen nat :=
  r1 <- Math_random ;;
  if ltQ r1 0.9
  then r2 <- Math_random ;; ret (if ltQ r2 0.5 then 1%nat else 2%nat)
  else ret 0%nat.

(** [spawnSegment(zPos)]; the floor meshes are not modelled. *)
Definition spawnSegment (ph : GamePhase) (emptyMode : bool) (zPos : Q)
  : Gen unit :=
  g <- newGroup (- zPos) ;;
  if emptyMode then pushSegment g
  else
    n <- spawnCount ;;
    times n (spawnObstacle ph emptyMode g) ;;;
    pushSegment g.

(** [for (let i = -10; i < 30; i++) spawnSegment(i * SEGMENT_LENGTH)] *)
Definition initialIndices : list Z :=
  map (fun k => Z.of_nat k - 10) (seq 0 40).

Fixpoint spawnAll (ph : GamePhase) (emptyMode : bool) (idxs : list Z)
  : Gen unit :=
  match idxs with
  | [] => ret tt
  | i :: rest =>
      spawnSegment ph emptyMode (inject_Z i * SEGMENT_LENGTH) ;;;
      spawnAll ph emptyMode rest
  end.

(** ** Resets *)

(** [worldGroupRef.current.clear(); segmentsRef.current = [];
    obstaclesRef.current = []] *)
Definition clearTrack (t : Track) : Track :=
  {| segmentsRef := []; detached := []; obstaclesRef := [];
     nextId := nextId t; rng := rng t; randomCalls := randomCalls t |}.

(** [resetGame(fullReset)].  The world group and the player object are created
    together by the mount effect, so [worldGroupRef] guards both blocks. *)
Definition resetGame (fullReset : bool) (st : Store) : Store :=
  let s := session st in
  let s := if fullReset
           then setHealth (setScore s 0) MAX_HEALTH
           else s in
  let level := if fullReset then 1 else levelRef st in
  let ph := if fullReset then ROUND else phaseRef st in
  let s := setSpeed s 1.0 (speedTimerRef s) in
  let t := if worldGroupRef st then clearTrack (track st) else track st in
  let jh := if worldGroupRef st then 0%Q else jumpHeight (player st) in
  let t := snd (spawnAll ph (emptyModeRef st) initialIndices t) in
  {| track := t;
     player := {| targetLane := 0; currentLane := 0; playerVelY := 0;
                  isJumping := false; jumpHeight := jh |};
     session := s;
     timeRef := PHASE_DURATION;
     phaseRef := ph;
     levelRef := level;
     gameStateRef := gameStateRef st;
     gameTimeRef := 0;
     lastTimeRef := lastTimeRef st;
     emptyModeRef := emptyModeRef st;
     worldGroupRef := worldGroupRef st |}.

Definition nextPhase (ph : GamePhase) : GamePhase :=
  match ph with
  | ROUND => TUNNEL_GLOWING
  | TUNNEL_GLOWING => TUNNEL_CLEAN
  | TUNNEL_CLEAN => FLAT
  | FLAT => ROUND
  end.

(** [nextLevel()] *)
Definition nextLevel (st : Store) : Store :=
  resetGame false
    {| track := track st; player := player st; session := session st;
       timeRef := timeRef st; phaseRef := nextPhase (phaseRef st);
       levelRef := levelRef st + 1;
       gameStateRef := gameStateRef st; gameTimeRef := gameTimeRef st;
       lastTimeRef := lastTimeRef st; emptyModeRef := emptyModeRef st;
       worldGroupRef := worldGroupRef st |}.

(** The effect on [gameState]: [gameStateRef.current = gameState]. *)
Definition syncGameState (g : GameState) (st : Store) : Store :=
  {| track := track st; player := player st; session := session st;
     timeRef := timeRef st; phaseRef := phaseRef st; levelRef := levelRef st;
     gameStateRef := g; gameTimeRef := gameTimeRef st;
     lastTimeRef := lastTimeRef st; emptyModeRef := emptyModeRef st;
     worldGroupRef := worldGroupRef st |}.

(** The effect on [debugPhase]. *)
Definition syncDebugPhase (ph : GamePhase) (st : Store) : Store :=
  if GamePhase_eqb ph (phaseRef st) then st
  else resetGame false
    {| track := track st; player := player st; session := session st;
       timeRef := timeRef st; phaseRef := ph; levelRef := levelRef st;
       gameStateRef := gameStateRef st; gameTimeRef := gameTimeRef st;
       lastTimeRef := lastTimeRef st; emptyModeRef := emptyModeRef st;
       worldGroupRef := worldGroupRef st |}.

(** The effect on [debugEmptyMode]. *)
Definition syncEmptyMode (b : bool) (st : Store) : Store :=
  let t := track st in
  let t := if b
           then {| segmentsRef := segmentsRef t; detached := detached t;
                   obstaclesRef := []; nextId := nextId t; rng := rng t;
                   randomCalls := randomCalls t |}
           else t in
  {| track := t; player := player st; session := session st;
     timeRef := timeRef st; phaseRef := phaseRef st; levelRef := levelRef st;
     gameStateRef := gameStateRef st; gameTimeRef := gameTimeRef st;
     lastTimeRef := lastTimeRef st; emptyModeRef := b;
     worldGroupRef := worldGroupRef st |}.

(** ** The frame: player movement *)

(** [while (diff > max/2) diff -= max] and
    [while (diff < -max/2) diff += max], with the number of rounds bounded by
    [fuel]. *)
Fixpoint whileAbove (fuel : nat) (diff max : Q) : Q :=
  match fuel with
  | O => diff
  | S fuel' =>
      if gtQ diff (max / 2) then whileAbove fuel' (diff - max)%Q max else diff
  end.

Fixpoint whileBelow (fuel : nat) (diff max : Q) : Q :=
  match fuel with
  | O => diff
  | S fuel' =>
      if ltQ diff (- max / 2) then whileBelow fuel' (diff + max)%Q max
      else diff
  end.

(** Enough rounds for a difference [diff] and a positive period [max]. *)
Definition loopFuel (diff max : Q) : nat :=
  S (Z.to_nat (Qceiling (Qabs diff / max))).

(** [lerpCyclic(current, target, speed, max)], local to [animate]. *)
Definition lerpCyclic (current target speed max : Q) : Q :=
  let diff := (target - current)%Q in
  let diff := whileAbove (loopFuel diff max) diff max in
  let diff := whileBelow (loopFuel diff max) diff max in
  (current + diff * speed)%Q.

(** The update of [currentLane] in a frame.  The new value is stored in
    lowest terms ([Qred] gives the same rational), since the fraction of the
    interpolation would otherwise square its denominator in every frame. *)
Definition easeLane (ph : GamePhase) (dt : Q) (p : Player) : Player :=
  let playerLerpSpeed := (12 * dt)%Q in
  let tLane := inject_Z (targetLane p) in
  match ph with
  | FLAT =>
      setCurrentLane p (Qred (lerp (currentLane p) tLane playerLerpSpeed))
  | _ =>
      setCurrentLane p
        (Qred (lerpCyclic (currentLane p) tLane playerLerpSpeed 12))
  end.

(** The [if (isJumping.current)] block of a frame. *)
Definition jumpPhysics (dt : Q) (p : Player) : Player :=
  if isJumping p then
    let h := (jumpHeight p + playerVelY p * dt)%Q in
    let v := (playerVelY p + GRAVITY * dt)%Q in
    if leQ h 0 then setJump p false 0 0 else setJump p true v h
  else p.

(** ** The frame: segments *)

Definition moveSegment (dist : Q) (s : Segment) : Segment :=
  {| segId := segId s; positionZ := (positionZ s + dist)%Q |}.

(** [segmentsRef.current.shift()]: the group leaves the array and the world
    group; it stays the parent of its obstacle meshes. *)
Definition shiftSegment (first : Segment) (rest : list Segment) (t : Track)
  : Track :=
  {| segmentsRef := rest; detached := detached t ++ [first];
     obstaclesRef := obstaclesRef t; nextId := nextId t; rng := rng t;
     randomCalls := randomCalls t |}.

Definition setSegments (segs : list Segment) (t : Track) : Track :=
  {| segmentsRef := segs; detached := detached t;
     obstaclesRef := obstaclesRef t; nextId := nextId t; rng := rng t;
     randomCalls := randomCalls t |}.

(** [segmentsRef.current[segmentsRef.current.length-1]], undefined when the
    array is empty. *)
Fixpoint lastSegment (l : list Segment) : option Segment :=
  match l with
  | [] => None
  | [x] => Some x
  | _ :: rest => lastSegment rest
  end.

(** The block [// Loop segments] of a frame. *)
Definition loopSegments (ph : GamePhase) (emptyMode : bool) (dist : Q)
  (t : Track) : Track :=
  match map (moveSegment dist) (segmentsRef t) with
  | [] => t
  | first :: rest =>
      if gtQ (positionZ first) 100 then
        let t := shiftSegment first rest t in
        match lastSegment rest with
        | Some l =>
            snd (spawnSegment ph emptyMode
                   (- positionZ l + SEGMENT_LENGTH)%Q t)
        | None => t
        end
      else setSegments (first :: rest) t
  end.

(** ** The frame: obstacles *)

(** What the callback of [obstaclesRef.current.forEach] reads besides the
    obstacle and the session: the phase, [currentLane], [jH], [dt], the game
    time and the groups (for world positions). *)
Record Frame := {
  fPhase : GamePhase;
  fLane : Q;
  fJH : Q;
  fDt : Q;
  fGameTime : Q;
  fGroups : list Segment
}.

(** [position.z] of the group with identifier [i]. *)
Definition groupZ (groups : list Segment) (i : nat) : Q :=
  match find (fun g => Nat.eqb (segId g) i) groups with
  | Some g => positionZ g
  | None => 0
  end.

(** [obs.mesh.getWorldPosition(obsWorldPos).z]: every transformation above the
    mesh is a translation or a rotation about the z axis. *)
Definition obsWorldZ (groups : list Segment) (o : ObstacleData) : Q :=
  match meshParent o with
  | Some i => (groupZ groups i + meshZ o)%Q
  | None => meshZ o
  end.

(** The player's lane as the lane check computes it. *)
Definition playerLane (ph : GamePhase) (current : Q) : Z :=
  let pLane := Math_round current in
  match ph with
  | ROUND =>
      let pLane := if pLane <? 0 then pLane + 12 else pLane in
      Z.rem pLane 12
  | _ => pLane
  end.

(** [x || d] for a number [x]. *)
Definition orDefault (x d : Q) : Q := if Qeq_bool x 0 then d else x.

(** The per-type motion at the head of the callback (the highlight of a
    SPEED_BOOST and the pulse of a CLOCK only touch materials and scales). *)
Definition moveObstacle (f : Frame) (o : ObstacleData) : ObstacleData :=
  match type o with
  | BULLET => setMeshZ o (meshZ o + speed (params o) * fDt f)%Q
  | BALL =>
      let freq := orDefault (freq (params o)) 0.5 in
      let phase := orDefault (phase (params o)) 0 in
      setMeshY o (BounceY (width o / 2) (fGameTime f) freq phase)
  | _ => o
  end.

(** The block [// HIT!]: the effect of the obstacle's type. *)
Definition applyHit (ty : ObstacleType) (s : Session) : Session :=
  match ty with
  | HEART =>
      onEvent COLLECT
        (setHealth s (Z.min MAX_HEALTH (healthRef s + 20)))
  | SPEED_BOOST => onEvent BOOST (setScore s (scoreRef s + 500)%Q)
  | CLOCK_BLUE => onEvent COLLECT (setSpeed s 0.5 5.0)
  | _ => onEvent DAMAGE (setHealth s (healthRef s - 20))
  end.

(** The callback of [obstaclesRef.current.forEach] in [animate]. *)
Definition obstacleCallback (f : Frame) (s : Session) (obs : ObstacleData)
  : Session * ObstacleData :=
  if exploded obs || match meshParent obs with None => true | _ => false end
  then (s, obs)
  else
    let obs := moveObstacle f obs in
    let distZ := (obsWorldZ (fGroups f) obs - 4.0)%Q in
    if gtQ distZ 2.0 then
      if gtQ distZ 10 then (s, removeMesh (setExploded obs true))
      else (s, obs)
    else if ltQ (Qabs distZ) 1.2 then
      let pLane := playerLane (fPhase f) (fLane f) in
      let isSameLane := pLane =? lane obs in
      let obsHeight := 1.5%Q in
      let clearedJump :=
        gtQ (fJH f) obsHeight && negb (vertical (params obs)) in
      if isSameLane && negb clearedJump then
        let s := applyHit (type obs) s in
        let obs := removeMesh (setExploded obs true) in
        let s := if healthRef s <=? 0 then setGameState GAME_OVER s else s in
        (s, obs)
      else (s, obs)
    else (s, obs).

(** [obstaclesRef.current.forEach(callback)] *)
Fixpoint forEachObstacle (f : Frame) (s : Session) (obs : list ObstacleData)
  : Session * list ObstacleData :=
  match obs with
  | [] => (s, [])
  | o :: rest =>
      let (s1, o1) := obstacleCallback f s o in
      let (s2, rest') := forEachObstacle f s1 rest in
      (s2, o1 :: rest')
  end.

Definition setObstacles (obs : list ObstacleData) (t : Track) : Track :=
  {| segmentsRef := segmentsRef t; detached := detached t;
     obstaclesRef := obs; nextId := nextId t; rng := rng t;
     randomCalls := randomCalls t |}.

(** ** The frame *)

(** The speed timer block: it runs in every frame that is not paused. *)
Definition speedTimer (delta : Q) (s : Session) : Session :=
  if gtQ (speedTimerRef s) 0 then
    let timer := (speedTimerRef s - delta)%Q in
    if leQ timer 0 then setSpeed s 1.0 timer
    else setSpeed s (speedMultRef s) timer
  else s.

(** [animate] after the computation of [delta], for a finite [delta].  The
    call of [onUpdate] that ends a frame of a game being played reports
    values to the parent and changes nothing. *)
Definition step (delta : Q) (st : Store) : Store :=
  let speed := speedMultRef (session st) in
  let dt := (delta * speed)%Q in
  let moveDt := (delta * speed)%Q in
  let gameTime := (gameTimeRef st + dt)%Q in
  let s := speedTimer delta (session st) in
  match gameStateRef st with
  | PLAYING =>
      let moveSpeed := SPEED_BASE in
      let dist := (moveSpeed * moveDt)%Q in
      let s := setScore s (scoreRef s + dist)%Q in
      let time := (timeRef st - delta)%Q in
      let s := if leQ time 0 then setGameState LEVEL_COMPLETE s else s in
      let t := loopSegments (phaseRef st) (emptyModeRef st) dist (track st) in
      let p := easeLane (phaseRef st) dt (player st) in
      let p := jumpPhysics dt p in
      let jH := jumpHeight p in
      let f := {| fPhase := phaseRef st; fLane := currentLane p; fJH := jH;
                  fDt := dt; fGameTime := gameTime;
                  fGroups := segmentsRef t ++ detached t |} in
      let (s, obs) := forEachObstacle f s (obstaclesRef t) in
      {| track := setObstacles obs t; player := p; session := s;
         timeRef := time; phaseRef := phaseRef st; levelRef := levelRef st;
         gameStateRef := gameStateRef st; gameTimeRef := gameTime;
         lastTimeRef := lastTimeRef st; emptyModeRef := emptyModeRef st;
         worldGroupRef := worldGroupRef st |}
  | _ =>
      {| track := track st; player := player st; session := s;
         timeRef := timeRef st; phaseRef := phaseRef st;
         levelRef := levelRef st; gameStateRef := gameStateRef st;
         gameTimeRef := gameTime; lastTimeRef := lastTimeRef st;
         emptyModeRef := emptyModeRef st;
         worldGroupRef := worldGroupRef st |}
  end.

(** ** The frame delta, on binary64 values *)

Definition prec : Z := 53.
Definition emax : Z := 1024.

(** The doubles [0.1] and [1000]. *)
Definition f64_0_1 : spec_float := S754_finite false 7205759403792794 (-56).
Definition f64_1000 : spec_float := S754_finite false 8796093022208000 (-43).
Definition f64_0 : spec_float := S754_zero false.

Definition isNaN (x : spec_float) : bool :=
  match x with S754_nan => true | _ => false end.

(** [(time - lastTimeRef.current)/1000] *)
Definition rawDelta (time lastTime : spec_float) : spec_float :=
  SFdiv prec emax (SFsub prec emax time lastTime) f64_1000.

(** [if (isNaN(delta) || delta > 0.1) delta = 0.1] *)
Definition clampDelta (delta : spec_float) : spec_float :=
  if isNaN delta || SFltb f64_0_1 delta then f64_0_1 else delta.

(** The value of [delta] that a frame at [time] uses. *)
Definition frameDelta (time lastTime : spec_float) : spec_float :=
  clampDelta (rawDelta time lastTime).

(** The rational value of a finite double. *)
Definition SF2Q (x : spec_float) : option Q :=
  match x with
  | S754_zero _ => Some 0%Q
  | S754_finite s m e =>
      let n := if s then Z.neg m else Z.pos m in
      Some (match e with
            | Z0 => inject_Z n
            | Z.pos k => inject_Z (n * Z.pow_pos 2 k)
            | Z.neg k => n # (Pos.pow 2 k)
            end)
  | _ => None
  end.

Definition setLastTime (time : spec_float) (st : Store) : Store :=
  {| track := track st; player := player st; session := session st;
     timeRef := timeRef st; phaseRef := phaseRef st; levelRef := levelRef st;
     gameStateRef := gameStateRef st; gameTimeRef := gameTimeRef st;
     lastTimeRef := time; emptyModeRef := emptyModeRef st;
     worldGroupRef := worldGroupRef st |}.

(** [animate(time)], without the rendering at its head.  The result is [None]
    when the delta that would enter the physics is infinite, which the
    rational arithmetic of [step] does not cover. *)
Definition animate (time : spec_float) (st : Store) : option Store :=
  match gameStateRef st with
  | PAUSED => Some st
  | _ =>
      let delta := frameDelta time (lastTimeRef st) in
      match SF2Q delta with
      | Some d => Some (step d (setLastTime time st))
      | None => None
      end
  end.

(** ** The interface of the component *)

(** What the parent and the browser can do to the component: a frame with a
    finite delta, the methods of [GameRef], and a change of one of the props
    (the effect that follows it). *)
Inductive Action :=
  | Tick (delta : Q)
  | MoveLeft
  | MoveRight
  | Jump
  | StartNewGame
  | StartNextLevel
  | PropGameState (g : GameState)
  | PropDebugPhase (ph : GamePhase)
  | PropEmptyMode (b : bool)
  | PropRenderStyle.

(** A frame of [animate] whose delta, after the clamp, has the rational value
    [delta]; the time stamp is left out. *)
Definition tick (delta : Q) (st : Store) : Store :=
  match gameStateRef st with
  | PAUSED => st
  | _ => step delta st
  end.

Definition perform (a : Action) (st : Store) : Store :=
  match a with
  | Tick delta => tick delta st
  | MoveLeft => changeLane (-1) st
  | MoveRight => changeLane 1 st
  | Jump => doJump st
  | StartNewGame => resetGame true st
  | StartNextLevel => nextLevel st
  | PropGameState g => syncGameState g st
  | PropDebugPhase ph => syncDebugPhase ph st
  | PropEmptyMode b => syncEmptyMode b st
  | PropRenderStyle => resetGame false st
  end.

Definition run (acts : list Action) (st : Store) : Store :=
  fold_left (fun st a => perform a st) acts st.

(** The refs with their initial values, before any effect has run. *)
Definition initialRefs (rng : nat -> Q) : Store :=
  {| track := {| segmentsRef := []; detached := []; obstaclesRef := [];
                 nextId := 0; rng := rng; randomCalls := 0 |};
     player := {| targetLane := 0; currentLane := 0; playerVelY := 0;
                  isJumping := false; jumpHeight := 0 |};
     session := {| scoreRef := 0; healthRef := MAX_HEALTH;
                   speedMultRef := 1.0; speedTimerRef := 0;
                   events := []; stateCalls := [] |};
     timeRef := PHASE_DURATION;
     phaseRef := ROUND;
     levelRef := 1;
     gameStateRef := MENU;
     gameTimeRef := 0;
     lastTimeRef := f64_0;
     emptyModeRef := false;
     worldGroupRef := false |}.

(** The mount effect creates the world group and the player. *)
Definition createWorld (st : Store) : Store :=
  {| track := track st; player := player st; session := session st;
     timeRef := timeRef st; phaseRef := phaseRef st; levelRef := levelRef st;
     gameStateRef := gameStateRef st; gameTimeRef := gameTimeRef st;
     lastTimeRef := lastTimeRef st; emptyModeRef := emptyModeRef st;
     worldGroupRef := true |}.

(** The store of a mounted component before the first game, without debug
    props: the effect on [renderStyle] has reset the game, then the mount
    effect has created the world. *)
Definition mounted (rng : nat -> Q) : Store :=
  createWorld (resetGame false (initialRefs rng)).

(** A new game: the parent calls [startNewGame] and sets the state to
    PLAYING. *)
Definition newGame (rng : nat -> Q) : Store :=
  syncGameState PLAYING (resetGame true (mounted rng)).

(** * Vocabulary of the properties *)

(** ** Resolutions *)

(** What a hit does to the session: the effect of the type, then the
    game-over test at the end of the HIT block. *)
Definition resolve (ty : ObstacleType) (s : Session) : Session :=
  let s := applyHit ty s in
  if healthRef s <=? 0 then setGameState GAME_OVER s else s.

(** The condition under which the callback runs the HIT block. *)
Definition hits (f : Frame) (o : ObstacleData) : bool :=
  let o' := moveObstacle f o in
  let distZ := (obsWorldZ (fGroups f) o' - 4.0)%Q in
  negb (exploded o)
  && match meshParent o with None => false | _ => true end
  && negb (gtQ distZ 2.0)
  && ltQ (Qabs distZ) 1.2
  && (playerLane (fPhase f) (fLane f) =? lane o)
  && negb (gtQ (fJH f) 1.5 && negb (vertical (params o))).



(** The number of resolutions that one call of the callback applies: the
    calls of [onEvent] it makes. *)
Definition fired (f : Frame) (s : Session) (o : ObstacleData) : nat :=
  (length (events (fst (obstacleCallback f s o))) - length (events s))%nat.

(** One obstacle seen by a sequence of frames.  Between two frames everything
    but the obstacle may have changed, so each frame comes with the session it
    finds. *)
Fixpoint resolutions (frames : list (Frame * Session)) (o : ObstacleData)
  : nat :=
  match frames with
  | [] => 0%nat
  | (f, s) :: rest =>
      (fired f s o + resolutions rest (snd (obstacleCallback f s o)))%nat
  end.

(** The obstacles of an array that are not resolved. *)
Definition unresolved (obs : list ObstacleData) : nat :=
  length (filter (fun o => negb (exploded o)) obs).

(** A sequence of resolutions, given by the types of the obstacles hit. *)
Definition resolveAll (tys : list ObstacleType) (s : Session) : Session :=
  fold_left (fun s ty => resolve ty s) tys s.

(** Health stays a multiple of 20 that is at most 100. *)
Definition healthInv (s : Session) : Prop :=
  healthRef s <= 100 /\ (20 | healthRef s).

(** ** Spawning *)

(** The types of the table of [spawnObstacle], from the top of the chain. *)
Definition tableTypes : list ObstacleType :=
  [HEART; SPEED_BOOST; CLOCK_BLUE; BULLET; EXTRUDING; WALL; DOOR; BALL;
   SIMPLE].

(** The number of lanes of a phase and its lowest lane in [spawnObstacle]. *)
Definition laneCount (ph : GamePhase) : Z :=
  match ph with FLAT => LANE_COUNT_FLAT | _ => LANE_COUNT_ROUND end.

Definition lowestLane (ph : GamePhase) : Z :=
  match ph with FLAT => -3 | _ => 0 end.

(** The draws of [Math.random()] lie in [0, 1). *)
Definition validRng (rng : nat -> Q) : Prop :=
  forall n, (0 <= rng n)%Q /\ (rng n < 1)%Q.

(** ** The segment window *)

(** The arrays of groups are the same in both tracks. *)
Definition sameSegments (t t' : Track) : Prop :=
  segmentsRef t' = segmentsRef t /\ detached t' = detached t.

(** A mounted component with its forty segments. *)
Definition windowInv (st : Store) : Prop :=
  worldGroupRef st = true /\ length (segmentsRef (track st)) = 40%nat.

(** ** Doubles *)

(** Neither infinite nor NaN. *)
Definition isFinite (x : spec_float) : bool :=
  match x with
  | S754_zero _ | S754_finite _ _ _ => true
  | _ => false
  end.

(** The doubles [2000] and [-1]. *)
Definition f64_2000 : spec_float := S754_finite false 8796093022208000 (-42).
Definition f64_m1 : spec_float := S754_finite true 4503599627370496 (-52).

(** The delta of a clamped frame as a rational: the double [0.1], which is
    a little above one tenth. *)
Definition clampedDelta : Q :=
  match SF2Q f64_0_1 with
  | Some d => d
  | None => 0
  end.

(** ** Oracles for the examples *)

(** An oracle that makes every segment hold two SIMPLE obstacles in lane 0
    (lane -3 in the FLAT phase) and sub-slot 0: of the twelve draws of a
    segment the second is 0.5 (two obstacles) and the others are 0. *)
Definition rngTwins (n : nat) : Q :=
  if Nat.eqb (Nat.modulo n 12) 1 then 0.5%Q else 0%Q.

(** An oracle that always draws 0.8: every obstacle is a BULLET in lane 9
    (lane 2 in the FLAT phase) and in the last sub-slot. *)
Definition rngHigh (n : nat) : Q := 0.8%Q.

(** An oracle that makes every segment hold one BALL in lane 0 and sub-slot 0:
    of the seven draws of a segment the fourth, the type, is 0.3. *)
Definition rngBalls (n : nat) : Q :=
  if Nat.eqb (Nat.modulo n 7) 3 then 0.3%Q else 0%Q.

(** A BALL in lane 0 whose [vertical] flag is not set. *)
Definition isLaneZeroBall (o : ObstacleData) : bool :=
  match type o with BALL => true | _ => false end
  && (lane o =? 0)
  && negb (vertical (params o)).

(** An oracle that makes every segment hold two SIMPLE obstacles in lane 11
    and sub-slot 0: of the twelve draws of a segment the second is 0.5 (two
    obstacles) and the two lane draws are 0.95. *)
Definition rngLane11 (n : nat) : Q :=
  match Nat.modulo n 12 with
  | 1%nat => 0.5%Q
  | 2%nat | 7%nat => 0.95%Q
  | _ => 0%Q
  end.

(** A game in which twenty frames of 1/16 s have moved the first segment from
    80 to 100, the threshold of the recycling. *)
Definition beforeRecycle : Store :=
  run (PropGameState PLAYING :: repeat (Tick 0.0625) 20)
    (resetGame true (mounted rngTwins)).

(** ** The parts of a frame *)

(** [dt] of a frame: the delta scaled by the speed multiplier the frame
    starts with. *)
Definition frameDt (delta : Q) (st : Store) : Q :=
  (delta * speedMultRef (session st))%Q.

(** The track, the player and the session of a frame of a game being played,
    as they are when the obstacle loop starts, and what the loop reads. *)
Definition frameTrack (delta : Q) (st : Store) : Track :=
  loopSegments (phaseRef st) (emptyModeRef st)
    (SPEED_BASE * frameDt delta st)%Q (track st).

Definition framePlayer (delta : Q) (st : Store) : Player :=
  jumpPhysics (frameDt delta st)
    (easeLane (phaseRef st) (frameDt delta st) (player st)).

Definition frameSession (delta : Q) (st : Store) : Session :=
  let s := speedTimer delta (session st) in
  let s := setScore s (scoreRef s + SPEED_BASE * frameDt delta st)%Q in
  if leQ (timeRef st - delta)%Q 0 then setGameState LEVEL_COMPLETE s else s.

Definition frameOf (delta : Q) (st : Store) : Frame :=
  {| fPhase := phaseRef st;
     fLane := currentLane (framePlayer delta st);
     fJH := jumpHeight (framePlayer delta st);
     fDt := frameDt delta st;
     fGameTime := (gameTimeRef st + frameDt delta st)%Q;
     fGroups := segmentsRef (frameTrack delta st)
                ++ detached (frameTrack delta st) |}.

(** ** Invariants of the game *)

(** The target lane is a lane of the phase. *)
Definition laneInv (st : Store) : Prop :=
  match phaseRef st with
  | FLAT => -3 <= targetLane (player st) <= 3
  | _ => 0 <= targetLane (player st) <= 11
  end.

(** The jump height is never negative, and on the ground it is 0 with no
    vertical speed. *)
Definition jumpInv (p : Player) : Prop :=
  (0 <= jumpHeight p)%Q
  /\ (isJumping p = false -> jumpHeight p = 0%Q /\ playerVelY p = 0%Q).

(** The speed multiplier is 1.0, or 0.5 with time left on the speed timer. *)
Definition speedInv (s : Session) : Prop :=
  speedMultRef s = 1.0%Q
  \/ (speedMultRef s = 0.5%Q /\ (0 < speedTimerRef s)%Q).

(** The speed timer block over a sequence of frame deltas. *)
Definition elapse (deltas : list Q) (s : Session) : Session :=
  fold_left (fun s d => speedTimer d s) deltas s.

(** [n] applications of [f]. *)
Fixpoint iterate {A : Type} (n : nat) (f : A -> A) (x : A) : A :=
  match n with
  | O => x
  | S n' => iterate n' f (f x)
  end.

(** The positions of a list are one segment length apart, each one further
    ahead than the one before it; [evenlySpaced] says it of the segments of
    an array. *)
Fixpoint spacedZ (l : list Q) : Prop :=
  match l with
  | a :: ((b :: _) as rest) => (a - b == SEGMENT_LENGTH)%Q /\ spacedZ rest
  | _ => True
  end.

Definition evenlySpaced (l : list Segment) : Prop :=
  spacedZ (map positionZ l).

(** An action that does not switch empty mode off. *)
Definition keepsEmptyMode (a : Action) : Prop :=
  match a with PropEmptyMode false => False | _ => True end.

(** A freshly spawned obstacle of the group [i]: unresolved, with the group
    as parent. *)
Definition freshIn (i : nat) (o : ObstacleData) : Prop :=
  exploded o = false /\ meshParent o = Some i.

(** The difference that [lerpCyclic] applies: [target - current] after the
    two loops. *)
Definition shortestDiff (current target max : Q) : Q :=
  let diff := (target - current)%Q in
  let diff := whileAbove (loopFuel diff max) diff max in
  whileBelow (loopFuel diff max) diff max.

(** An unresolved obstacle whose mesh hangs on one of the segments [segs]. *)
Definition attachedTo (segs : list Segment) (o : ObstacleData) : Prop :=
  exploded o = false
  /\ exists g, In g segs /\ meshParent o = Some (segId g).

(** * The audio system (services/AudioSystem)

    The sequencer of the [AudioSystem] class.  Web Audio nodes are not
    modelled: a note that [scheduleNote] hands to the audio context is
    recorded as a voice with its start time, and a sound effect as its kind.
    [ctx.currentTime] is an argument of the methods that read it, and the
    interval timers of the window are a list of live identifiers.  A method
    that would throw a [TypeError] returns [None]. *)

(** The sounds [scheduleNote] starts: a bass or lead voice carries its MIDI
    note (the frequency [mtof(note)] is not computed). *)
Inductive Voice :=
  | Kick
  | Snare
  | HiHat
  | Bass (note : Z)
  | Lead (note : Z).

(** The sound effects: [playJump], [playCrash] (also through
    [playWallCrash]), [playCollect], [playStep]. *)
Inductive Sfx := SfxJump | SfxCrash | SfxCollect | SfxStep.

(** The names of the tracks: "NEON OVERDRIVE", "CYBER CHASE" and
    "NIGHT RUNNER". *)
Inductive TrackName := NEON_OVERDRIVE | CYBER_CHASE | NIGHT_RUNNER.

Record TrackDef := {
  name : TrackName;
  bass : list Z;
  lead : list Z;
  kick : list Z;
  snare : list Z
}.

Definition tracks : list TrackDef :=
  [ {| name := NEON_OVERDRIVE;
       bass := [36;36;36;36; 39;39;39;39; 34;34;34;34; 41;41;39;39];
       lead := [60;0;63;0; 67;0;63;0; 58;0;60;0; 65;63;60;0];
       kick := [1;0;0;0; 1;0;0;0; 1;0;0;0; 1;0;0;0];
       snare := [0;0;1;0; 0;0;1;0; 0;0;1;0; 0;0;1;0] |};
    {| name := CYBER_CHASE;
       bass := [24;0;24;0; 24;0;24;27; 29;0;29;0; 29;0;27;0];
       lead := [0;0;0;0; 60;63;67;72; 0;0;0;0; 70;67;63;60];
       kick := [1;0;0;1; 1;0;0;0; 1;0;0;1; 1;0;1;0];
       snare := [0;0;1;0; 0;0;1;0; 0;0;1;0; 0;1;0;0] |};
    {| name := NIGHT_RUNNER;
       bass := [31;31;31;31; 29;29;29;29; 27;27;27;27; 24;24;24;24];
       lead := [67;67;0;67; 65;65;0;65; 63;63;0;63; 60;0;63;65];
       kick := [1;1;1;1; 1;1;1;1; 1;1;1;1; 1;1;1;1];
       snare := [0;0;1;0; 0;0;1;0; 0;0;1;0; 0;0;1;0] |} ].

(** The fields of the class.  [ctxReady] tells whether [init] has created
    the context with its gain nodes; [musicGainValue] and [sfxGainValue] are
    the [gain.value] of the two sub-mixes.  [timers] and [nextTimer] are the
    window's live intervals and the identifier the next [setInterval]
    returns; [scheduled] and [played] are what was handed to the context,
    oldest first. *)
Record AudioSystem := {
  ctxReady : bool;
  isPlaying : bool;
  schedulerInterval : option nat;
  currentTrackIndex : Z;
  nextNoteTime : Q;
  current16thNote : Z;
  isMusicMuted : bool;
  isSfxMuted : bool;
  musicGainValue : Q;
  sfxGainValue : Q;
  timers : list nat;
  nextTimer : nat;
  scheduled : list (Voice * Q);
  played : list Sfx
}.

Definition tempo : Q := 128.
Definition scheduleAheadTime : Q := 0.1.

(** [new AudioSystem()] in a window whose next interval identifier is 1. *)
Definition newAudioSystem : AudioSystem :=
  {| ctxReady := false; isPlaying := false; schedulerInterval := None;
     currentTrackIndex := 0; nextNoteTime := 0; current16thNote := 0;
     isMusicMuted := false; isSfxMuted := false;
     musicGainValue := 1; sfxGainValue := 1;
     timers := []; nextTimer := 1; scheduled := []; played := [] |}.

(** [init()]: a gain node starts with the gain 1. *)
Definition init (a : AudioSystem) : AudioSystem :=
  if ctxReady a then a
  else
    {| ctxReady := true; isPlaying := isPlaying a;
       schedulerInterval := schedulerInterval a;
       currentTrackIndex := currentTrackIndex a;
       nextNoteTime := nextNoteTime a; current16thNote := current16thNote a;
       isMusicMuted := isMusicMuted a; isSfxMuted := isSfxMuted a;
       musicGainValue := 1; sfxGainValue := 1;
       timers := timers a; nextTimer := nextTimer a;
       scheduled := scheduled a; played := played a |}.

(** [this.tracks[this.currentTrackIndex]], undefined outside the array. *)
Definition currentTrack (a : AudioSystem) : option TrackDef :=
  if currentTrackIndex a <? 0 then None
  else nth_error tracks (Z.to_nat (currentTrackIndex a)).

(** [getCurrentTrackName()] *)
Definition getCurrentTrackName (a : AudioSystem) : option TrackName :=
  option_map name (currentTrack a).

Definition setTrackIndex (a : AudioSystem) (i : Z) : AudioSystem :=
  {| ctxReady := ctxReady a; isPlaying := isPlaying a;
     schedulerInterval := schedulerInterval a;
     currentTrackIndex := i;
     nextNoteTime := nextNoteTime a; current16thNote := current16thNote a;
     isMusicMuted := isMusicMuted a; isSfxMuted := isSfxMuted a;
     musicGainValue := musicGainValue a; sfxGainValue := sfxGainValue a;
     timers := timers a; nextTimer := nextTimer a;
     scheduled := scheduled a; played := played a |}.

(** [nextTrack()] and [prevTrack()] *)
Definition nextTrack (a : AudioSystem) : AudioSystem :=
  setTrackIndex a
    (Z.rem (currentTrackIndex a + 1) (Z.of_nat (length tracks))).

Definition prevTrack (a : AudioSystem) : AudioSystem :=
  setTrackIndex a
    (Z.rem (currentTrackIndex a - 1 + Z.of_nat (length tracks))
       (Z.of_nat (length tracks))).

(** [toggleMusicMute()] and [toggleSfxMute()], with the flag they return. *)
Definition toggleMusicMute (a : AudioSystem) : bool * AudioSystem :=
  let m := negb (isMusicMuted a) in
  (m,
   {| ctxReady := ctxReady a; isPlaying := isPlaying a;
      schedulerInterval := schedulerInterval a;
      currentTrackIndex := currentTrackIndex a;
      nextNoteTime := nextNoteTime a; current16thNote := current16thNote a;
      isMusicMuted := m; isSfxMuted := isSfxMuted a;
      musicGainValue := if ctxReady a then (if m then 0 else 1.0)
                        else musicGainValue a;
      sfxGainValue := sfxGainValue a;
      timers := timers a; nextTimer := nextTimer a;
      scheduled := scheduled a; played := played a |}).

Definition toggleSfxMute (a : AudioSystem) : bool * AudioSystem :=
  let m := negb (isSfxMuted a) in
  (m,
   {| ctxReady := ctxReady a; isPlaying := isPlaying a;
      schedulerInterval := schedulerInterval a;
      currentTrackIndex := currentTrackIndex a;
      nextNoteTime := nextNoteTime a; current16thNote := current16thNote a;
      isMusicMuted := isMusicMuted a; isSfxMuted := m;
      musicGainValue := musicGainValue a;
      sfxGainValue := if ctxReady a then (if m then 0 else 1.0)
                      else sfxGainValue a;
      timers := timers a; nextTimer := nextTimer a;
      scheduled := scheduled a; played := played a |}).

(** [resume()], called when the context time is [now].  The resumption of a
    suspended context is left to the browser. *)
Definition resume (now : Q) (a : AudioSystem) : AudioSystem :=
  let a := init a in
  if isPlaying a then a
  else
    {| ctxReady := ctxReady a; isPlaying := true;
       schedulerInterval := Some (nextTimer a);
       currentTrackIndex := currentTrackIndex a;
       nextNoteTime := (now + 0.1)%Q; current16thNote := current16thNote a;
       isMusicMuted := isMusicMuted a; isSfxMuted := isSfxMuted a;
       musicGainValue := musicGainValue a; sfxGainValue := sfxGainValue a;
       timers := timers a ++ [nextTimer a]; nextTimer := S (nextTimer a);
       scheduled := scheduled a; played := played a |}.

(** [clearInterval(id)] *)
Definition clearInterval (id : nat) (l : list nat) : list nat :=
  filter (fun x => negb (Nat.eqb x id)) l.

(** [pause()]: the test [if (this.schedulerInterval)] fails for [null] and
    for the identifier 0. *)
Definition pause (a : AudioSystem) : AudioSystem :=
  let stop := match schedulerInterval a with
              | Some (S _) => true
              | _ => false
              end in
  {| ctxReady := ctxReady a; isPlaying := false;
     schedulerInterval := if stop then None else schedulerInterval a;
     currentTrackIndex := currentTrackIndex a;
     nextNoteTime := nextNoteTime a; current16thNote := current16thNote a;
     isMusicMuted := isMusicMuted a; isSfxMuted := isSfxMuted a;
     musicGainValue := musicGainValue a; sfxGainValue := sfxGainValue a;
     timers := match schedulerInterval a with
               | Some (S k) => clearInterval (S k) (timers a)
               | _ => timers a
               end;
     nextTimer := nextTimer a;
     scheduled := scheduled a; played := played a |}.

(** [togglePlayback()] *)
Definition togglePlayback (now : Q) (a : AudioSystem) : AudioSystem :=
  if isPlaying a then pause a else resume now a.

(** [nextNote()] *)
Definition nextNote (a : AudioSystem) : AudioSystem :=
  let secondsPerBeat := (60.0 / tempo)%Q in
  let n := current16thNote a + 1 in
  {| ctxReady := ctxReady a; isPlaying := isPlaying a;
     schedulerInterval := schedulerInterval a;
     currentTrackIndex := currentTrackIndex a;
     nextNoteTime := (nextNoteTime a + 0.25 * secondsPerBeat)%Q;
     current16thNote := if n =? 16 then 0 else n;
     isMusicMuted := isMusicMuted a; isSfxMuted := isSfxMuted a;
     musicGainValue := musicGainValue a; sfxGainValue := sfxGainValue a;
     timers := timers a; nextTimer := nextTimer a;
     scheduled := scheduled a; played := played a |}.

(** [pattern[beatNumber]], with 0 for undefined: the code only tests the
    entry for truth or for being positive. *)
Definition stepOf (pattern : list Z) (beatNumber : Z) : Z :=
  if beatNumber <? 0 then 0 else nth (Z.to_nat beatNumber) pattern 0.

(** The voices [scheduleNote] starts for a beat of a track, in the order of
    the code: kick, snare, hi-hat, bass, lead. *)
Definition voicesOf (tr : TrackDef) (beatNumber : Z) : list Voice :=
  (if stepOf (kick tr) beatNumber =? 0 then [] else [Kick])
  ++ (if stepOf (snare tr) beatNumber =? 0 then [] else [Snare])
  ++ (if Z.rem beatNumber 2 =? 0 then [] else [HiHat])
  ++ (if stepOf (bass tr) beatNumber >? 0
      then [Bass (stepOf (bass tr) beatNumber)] else [])
  ++ (if stepOf (lead tr) beatNumber >? 0
      then [Lead (stepOf (lead tr) beatNumber)] else []).

Definition addScheduled (a : AudioSystem) (l : list (Voice * Q))
  : AudioSystem :=
  {| ctxReady := ctxReady a; isPlaying := isPlaying a;
     schedulerInterval := schedulerInterval a;
     currentTrackIndex := currentTrackIndex a;
     nextNoteTime := nextNoteTime a; current16thNote := current16thNote a;
     isMusicMuted := isMusicMuted a; isSfxMuted := isSfxMuted a;
     musicGainValue := musicGainValue a; sfxGainValue := sfxGainValue a;
     timers := timers a; nextTimer := nextTimer a;
     scheduled := scheduled a ++ l; played := played a |}.

(** [scheduleNote(beatNumber, time)] *)
Definition scheduleNote (beatNumber : Z) (time : Q) (a : AudioSystem)
  : option AudioSystem :=
  if isMusicMuted a || negb (ctxReady a) then Some a
  else
    match currentTrack a with
    | None => None
    | Some tr =>
        Some (addScheduled a
                (map (fun v => (v, time)) (voicesOf tr beatNumber)))
    end.

(** The loop of [scheduler()], with the number of rounds bounded by
    [fuel]. *)
Fixpoint schedulerLoop (fuel : nat) (now : Q) (a : AudioSystem)
  : option AudioSystem :=
  match fuel with
  | O => Some a
  | S fuel' =>
      if ltQ (nextNoteTime a) (now + scheduleAheadTime) then
        match scheduleNote (current16thNote a) (nextNoteTime a) a with
        | Some a' => schedulerLoop fuel' now (nextNote a')
        | None => None
        end
      else Some a
  end.

(** Enough rounds to bring [nextNoteTime] to [now + scheduleAheadTime] in
    steps of a sixteenth note. *)
Definition schedulerFuel (now : Q) (a : AudioSystem) : nat :=
  S (Z.to_nat
       (Qceiling ((now + scheduleAheadTime - nextNoteTime a)
                  / (0.25 * (60.0 / tempo))))).

(** [scheduler()], called by the interval when the context time is [now];
    without a context the read of [currentTime] throws. *)
Definition scheduler (now : Q) (a : AudioSystem) : option AudioSystem :=
  if ctxReady a then schedulerLoop (schedulerFuel now a) now a else None.

(** The sound effects; all start with the same test. *)
Definition playSfx (s : Sfx) (a : AudioSystem) : AudioSystem :=
  if isSfxMuted a || negb (ctxReady a) then a
  else
    {| ctxReady := ctxReady a; isPlaying := isPlaying a;
       schedulerInterval := schedulerInterval a;
       currentTrackIndex := currentTrackIndex a;
       nextNoteTime := nextNoteTime a; current16thNote := current16thNote a;
       isMusicMuted := isMusicMuted a; isSfxMuted := isSfxMuted a;
       musicGainValue := musicGainValue a; sfxGainValue := sfxGainValue a;
       timers := timers a; nextTimer := nextTimer a;
       scheduled := scheduled a; played := played a ++ [s] |}.

(** What can happen to the audio system: a call of one of its public
    methods, or the window firing the live intervals at context time
    [now], each of which calls [scheduler]. *)
Inductive AudioCall :=
  | CallResume (now : Q)
  | CallPause
  | CallTogglePlayback (now : Q)
  | CallNextTrack
  | CallPrevTrack
  | CallToggleMusicMute
  | CallToggleSfxMute
  | CallPlay (s : Sfx)
  | IntervalFires (now : Q).

Fixpoint fireAll (n : nat) (now : Q) (a : AudioSystem)
  : option AudioSystem :=
  match n with
  | O => Some a
  | S n' =>
      match scheduler now a with
      | Some a' => fireAll n' now a'
      | None => None
      end
  end.

Definition audioCall (c : AudioCall) (a : AudioSystem)
  : option AudioSystem :=
  match c with
  | CallResume now => Some (resume now a)
  | CallPause => Some (pause a)
  | CallTogglePlayback now => Some (togglePlayback now a)
  | CallNextTrack => Some (nextTrack a)
  | CallPrevTrack => Some (prevTrack a)
  | CallToggleMusicMute => Some (snd (toggleMusicMute a))
  | CallToggleSfxMute => Some (snd (toggleSfxMute a))
  | CallPlay s => Some (playSfx s a)
  | IntervalFires now => fireAll (length (timers a)) now a
  end.

Fixpoint audioRun (calls : list AudioCall) (a : AudioSystem)
  : option AudioSystem :=
  match calls with
  | [] => Some a
  | c :: rest =>
      match audioCall c a with
      | Some a' => audioRun rest a'
      | None => None
      end
  end.

(** ** Invariants of the audio system *)

(** The sequencer is well formed: the track index is one of the tracks, the
    beat is one of the sixteen, and the only live interval is the one the
    system holds, which it holds exactly while it is playing. *)
Definition audioInv (a : AudioSystem) : Prop :=
  0 <= currentTrackIndex a < 3
  /\ 0 <= current16thNote a < 16
  /\ (1 <= nextTimer a)%nat
  /\ ((isPlaying a = true /\ ctxReady a = true
       /\ exists id, schedulerInterval a = Some id /\ timers a = [id]
                     /\ (1 <= id < nextTimer a)%nat)
      \/ (isPlaying a = false /\ schedulerInterval a = None
          /\ timers a = [])).

(** The length of a sixteenth note in seconds, and the beat after a beat. *)
Definition sixteenth : Q := (0.25 * (60.0 / tempo))%Q.

Definition nextBeat (b : Z) : Z := if b + 1 =? 16 then 0 else b + 1.

(** The voices of [k] sixteenth notes of a track from the beat [b] at time
    [t] on. *)
Fixpoint notesFrom (tr : TrackDef) (k : nat) (b : Z) (t : Q)
  : list (Voice * Q) :=
  match k with
  | O => []
  | S k' =>
      map (fun v => (v, t)) (voicesOf tr b)
      ++ notesFrom tr k' (nextBeat b) (t + sixteenth)%Q
  end.

(** The fields of the sequencer that only the transport methods write. *)
Definition sameTransport (a b : AudioSystem) : Prop :=
  ctxReady b = ctxReady a /\ isPlaying b = isPlaying a
  /\ schedulerInterval b = schedulerInterval a
  /\ currentTrackIndex b = currentTrackIndex a
  /\ isMusicMuted b = isMusicMuted a /\ isSfxMuted b = isSfxMuted a
  /\ timers b = timers a /\ nextTimer b = nextTimer a
  /\ played b = played a.

(** * The application *)

(** The component [App] owns the game state, the menu and the music
    controls; it holds the canvas behind [gameRef] and calls the audio
    system.  The model keeps the state and the refs that decide what is
    called: the pressed-button highlights, the screen flash and the texts
    of the music player are display only and left out.  Every event is
    handled against the last render, and the render and the effects that
    follow it are done before the next event. *)

(** [e.key], as far as the handlers tell keys apart. *)
Inductive Key :=
  | ArrowUp | ArrowDown | ArrowLeft | ArrowRight
  | Space | KeyW | KeyA | KeyD | Escape | Enter | OtherKey.

Definition isJumpKey (k : Key) : bool :=
  match k with Space | KeyW | ArrowUp => true | _ => false end.

Definition isLeftKey (k : Key) : bool :=
  match k with ArrowLeft | KeyA => true | _ => false end.

Definition isRightKey (k : Key) : bool :=
  match k with ArrowRight | KeyD => true | _ => false end.

(** The on-screen controls: 'left', 'right' and 'jump'. *)
Inductive Control := CtlLeft | CtlRight | CtlJump.

(** The actions of the menu entries: 'start', 'resume', 'exit', 'next'. *)
Inductive MenuAction := ActStart | ActResume | ActExit | ActNext.

Inductive RenderStyle := GRID | TILES.

Definition GameState_eqb (a b : GameState) : bool :=
  match a, b with
  | MENU, MENU | PLAYING, PLAYING | PAUSED, PAUSED
  | GAME_OVER, GAME_OVER | LEVEL_COMPLETE, LEVEL_COMPLETE => true
  | _, _ => false
  end.

Definition RenderStyle_eqb (a b : RenderStyle) : bool :=
  match a, b with
  | GRID, GRID | TILES, TILES => true
  | _, _ => false
  end.

(** [menuOptions]: the actions of the entries shown in a state (START RUN;
    RESUME, EXIT; RETRY, MENU; NEXT LEVEL, MENU). *)
Definition menuOptions (g : GameState) : list MenuAction :=
  match g with
  | MENU => [ActStart]
  | PAUSED => [ActResume; ActExit]
  | GAME_OVER => [ActStart; ActExit]
  | LEVEL_COMPLETE => [ActNext; ActExit]
  | PLAYING => []
  end.

(** [menuOptions[i]?.action], undefined outside the array. *)
Definition optionAt (g : GameState) (i : Z) : option MenuAction :=
  if i <? 0 then None else nth_error (menuOptions g) (Z.to_nat i).

(** The state and the refs of [App], the audio system, the canvas behind
    [gameRef], and the record of what has been done to the canvas, oldest
    first. *)
Record App := {
  gameState : GameState;
  menuSelection : Z;
  isMusicPlaying : bool;
  wasPlayingRef : bool;
  isJumpKeyDown : bool;
  isLeftKeyDown : bool;
  isRightKeyDown : bool;
  debugPhase : option GamePhase;
  emptyMode : bool;
  renderStyle : RenderStyle;
  audioSystem : AudioSystem;
  gameRef : Store;
  performed : list Action
}.

Definition withGameState (app : App) (g : GameState) : App :=
  {| gameState := g; menuSelection := menuSelection app;
     isMusicPlaying := isMusicPlaying app;
     wasPlayingRef := wasPlayingRef app;
     isJumpKeyDown := isJumpKeyDown app; isLeftKeyDown := isLeftKeyDown app;
     isRightKeyDown := isRightKeyDown app;
     debugPhase := debugPhase app; emptyMode := emptyMode app;
     renderStyle := renderStyle app;
     audioSystem := audioSystem app; gameRef := gameRef app;
     performed := performed app |}.

Definition withMenuSelection (app : App) (s : Z) : App :=
  {| gameState := gameState app; menuSelection := s;
     isMusicPlaying := isMusicPlaying app;
     wasPlayingRef := wasPlayingRef app;
     isJumpKeyDown := isJumpKeyDown app; isLeftKeyDown := isLeftKeyDown app;
     isRightKeyDown := isRightKeyDown app;
     debugPhase := debugPhase app; emptyMode := emptyMode app;
     renderStyle := renderStyle app;
     audioSystem := audioSystem app; gameRef := gameRef app;
     performed := performed app |}.

(** [setIsMusicPlaying(playing)] and [wasPlayingRef.current = was]. *)
Definition withMusic (app : App) (playing was : bool) : App :=
  {| gameState := gameState app; menuSelection := menuSelection app;
     isMusicPlaying := playing; wasPlayingRef := was;
     isJumpKeyDown := isJumpKeyDown app; isLeftKeyDown := isLeftKeyDown app;
     isRightKeyDown := isRightKeyDown app;
     debugPhase := debugPhase app; emptyMode := emptyMode app;
     renderStyle := renderStyle app;
     audioSystem := audioSystem app; gameRef := gameRef app;
     performed := performed app |}.

Definition withKeys (app : App) (jump left right : bool) : App :=
  {| gameState := gameState app; menuSelection := menuSelection app;
     isMusicPlaying := isMusicPlaying app;
     wasPlayingRef := wasPlayingRef app;
     isJumpKeyDown := jump; isLeftKeyDown := left; isRightKeyDown := right;
     debugPhase := debugPhase app; emptyMode := emptyMode app;
     renderStyle := renderStyle app;
     audioSystem := audioSystem app; gameRef := gameRef app;
     performed := performed app |}.

Definition withDebug (app : App) (ph : option GamePhase) (empty : bool)
  (style : RenderStyle) : App :=
  {| gameState := gameState app; menuSelection := menuSelection app;
     isMusicPlaying := isMusicPlaying app;
     wasPlayingRef := wasPlayingRef app;
     isJumpKeyDown := isJumpKeyDown app; isLeftKeyDown := isLeftKeyDown app;
     isRightKeyDown := isRightKeyDown app;
     debugPhase := ph; emptyMode := empty; renderStyle := style;
     audioSystem := audioSystem app; gameRef := gameRef app;
     performed := performed app |}.

Definition withAudio (app : App) (a : AudioSystem) : App :=
  {| gameState := gameState app; menuSelection := menuSelection app;
     isMusicPlaying := isMusicPlaying app;
     wasPlayingRef := wasPlayingRef app;
     isJumpKeyDown := isJumpKeyDown app; isLeftKeyDown := isLeftKeyDown app;
     isRightKeyDown := isRightKeyDown app;
     debugPhase := debugPhase app; emptyMode := emptyMode app;
     renderStyle := renderStyle app;
     audioSystem := a; gameRef := gameRef app;
     performed := performed app |}.

Definition playAll (sfx : list Sfx) (a : AudioSystem) : AudioSystem :=
  fold_left (fun a s => playSfx s a) sfx a.

(** Something done to the canvas: a method of [gameRef], an effect of the
    canvas on one of its props, or a frame.  [doJump] plays the jump sound
    when the jump starts. *)
Definition canvas (a : Action) (app : App) : App :=
  let sfx := match a with
             | Jump => if isJumping (player (gameRef app)) then []
                       else [SfxJump]
             | _ => []
             end in
  {| gameState := gameState app; menuSelection := menuSelection app;
     isMusicPlaying := isMusicPlaying app;
     wasPlayingRef := wasPlayingRef app;
     isJumpKeyDown := isJumpKeyDown app; isLeftKeyDown := isLeftKeyDown app;
     isRightKeyDown := isRightKeyDown app;
     debugPhase := debugPhase app; emptyMode := emptyMode app;
     renderStyle := renderStyle app;
     audioSystem := playAll sfx (audioSystem app);
     gameRef := perform a (gameRef app);
     performed := performed app ++ [a] |}.

(** [handleAction(action)], when the audio context time is [now]. *)
Definition handleAction (now : Q) (action : option MenuAction) (app : App)
  : App :=
  match action with
  | Some ActStart =>
      let app := withAudio app (resume now (audioSystem app)) in
      let app := withMusic app (isMusicPlaying app) false in
      let app := canvas StartNewGame app in
      withGameState app PLAYING
  | Some ActResume => withGameState app PLAYING
  | Some ActExit =>
      let app := withGameState app MENU in
      let app := withAudio app (pause (audioSystem app)) in
      withMusic app false false
  | Some ActNext =>
      let app := canvas StartNextLevel app in
      withGameState app PLAYING
  | None => app
  end.

(** [onKeyDown(e)] with [e.key = k] and [e.repeat = repeat]. *)
Definition onKeyDown (now : Q) (k : Key) (repeat : bool) (app : App) : App :=
  match gameState app with
  | PLAYING =>
      let app :=
        if isLeftKey k && negb (isLeftKeyDown app)
        then canvas MoveLeft
               (withKeys app (isJumpKeyDown app) true (isRightKeyDown app))
        else app in
      let app :=
        if isRightKey k && negb (isRightKeyDown app)
        then canvas MoveRight
               (withKeys app (isJumpKeyDown app) (isLeftKeyDown app) true)
        else app in
      let app :=
        if isJumpKey k && negb (isJumpKeyDown app)
        then canvas Jump
               (withKeys app true (isLeftKeyDown app) (isRightKeyDown app))
        else app in
      match k with
      | Escape => withGameState app PAUSED
      | _ => app
      end
  | g =>
      if repeat then app
      else
        let n := Z.of_nat (length (menuOptions g)) in
        match k with
        | ArrowUp =>
            withMenuSelection app (Z.rem (menuSelection app - 1 + n) n)
        | ArrowDown =>
            withMenuSelection app (Z.rem (menuSelection app + 1) n)
        | Enter | Space =>
            handleAction now (optionAt g (menuSelection app)) app
        | _ => app
        end
  end.

(** [onKeyUp(e)] *)
Definition onKeyUp (k : Key) (app : App) : App :=
  withKeys app
    (if isJumpKey k then false else isJumpKeyDown app)
    (if isLeftKey k then false else isLeftKeyDown app)
    (if isRightKey k then false else isRightKeyDown app).

(** [handleBtnTouchStart(action, e)] *)
Definition handleBtnTouchStart (now : Q) (c : Control) (app : App) : App :=
  match gameState app with
  | PLAYING =>
      match c with
      | CtlLeft => canvas MoveLeft app
      | CtlRight => canvas MoveRight app
      | CtlJump => canvas Jump app
      end
  | g =>
      match c with
      | CtlJump => handleAction now (optionAt g (menuSelection app)) app
      | _ => app
      end
  end.

(** [togglePlay()] *)
Definition togglePlay (now : Q) (app : App) : App :=
  let app' := withAudio app (togglePlayback now (audioSystem app)) in
  withMusic app' (negb (isMusicPlaying app)) (negb (isMusicPlaying app)).

(** The effect of [App] on [gameState]: the music pauses and resumes with
    the game. *)
Definition musicEffect (now : Q) (app : App) : App :=
  match gameState app with
  | PAUSED =>
      let app' := withMusic app (isMusicPlaying app) (isMusicPlaying app) in
      if isMusicPlaying app
      then withMusic (withAudio app' (pause (audioSystem app')))
             false (wasPlayingRef app')
      else app'
  | PLAYING =>
      if wasPlayingRef app
      then withMusic (withAudio app (resume now (audioSystem app)))
             true false
      else app
  | _ => app
  end.

(** The effects on [gameState], run after a render in which it has
    changed: the canvas copies it into [gameStateRef], then the effect of
    the application runs. *)
Definition gameStateEffects (now : Q) (app : App) : App :=
  musicEffect now (canvas (PropGameState (gameState app)) app).

(** The render after an event whose handler ran on [before]. *)
Definition commit (now : Q) (before app : App) : App :=
  if GameState_eqb (gameState app) (gameState before) then app
  else gameStateEffects now app.

(** What happens to the application: the events of the keyboard, of the
    on-screen controls, of the menu entries (click and mouse enter on the
    entry [i]), of the music player and of the debug panel, a frame of the
    canvas with the sound effects it plays, and the interval of the
    sequencer. *)
Inductive AppEvent :=
  | KeyDown (k : Key) (repeat : bool)
  | KeyUp (k : Key)
  | ControlDown (c : Control)
  | MenuClick (i : nat)
  | MenuEnter (i : nat)
  | ClickPlay
  | ClickMusicMute
  | ClickSfxMute
  | ClickNextTrack
  | ClickPrevTrack
  | SelectPhase (ph : GamePhase)
  | SelectRenderStyle (style : RenderStyle)
  | SelectEmptyMode (b : bool)
  | AnimationFrame (delta : Q) (sfx : list Sfx)
  | SchedulerInterval.

Definition option_GamePhase_eqb (a : option GamePhase) (ph : GamePhase)
  : bool :=
  match a with
  | Some x => GamePhase_eqb x ph
  | None => false
  end.

(** A frame: the canvas integrates it, and the last state it asks for
    through [setGameState] becomes the state of the next render. *)
Definition animationFrame (delta : Q) (sfx : list Sfx) (app : App) : App :=
  let before := stateCalls (session (gameRef app)) in
  let app' := canvas (Tick delta) app in
  let app' := withAudio app' (playAll sfx (audioSystem app')) in
  let asked := skipn (length before) (stateCalls (session (gameRef app'))) in
  withGameState app' (last asked (gameState app)).

(** The handler of an event, without the render that follows. *)
Definition handle (now : Q) (e : AppEvent) (app : App) : option App :=
  match e with
  | KeyDown k repeat => Some (onKeyDown now k repeat app)
  | KeyUp k => Some (onKeyUp k app)
  | ControlDown c => Some (handleBtnTouchStart now c app)
  | MenuClick i =>
      match nth_error (menuOptions (gameState app)) i with
      | Some act => Some (handleAction now (Some act) app)
      | None => Some app
      end
  | MenuEnter i =>
      match nth_error (menuOptions (gameState app)) i with
      | Some _ => Some (withMenuSelection app (Z.of_nat i))
      | None => Some app
      end
  | ClickPlay => Some (togglePlay now app)
  | ClickMusicMute =>
      Some (withAudio app (snd (toggleMusicMute (audioSystem app))))
  | ClickSfxMute =>
      Some (withAudio app (snd (toggleSfxMute (audioSystem app))))
  | ClickNextTrack => Some (withAudio app (nextTrack (audioSystem app)))
  | ClickPrevTrack => Some (withAudio app (prevTrack (audioSystem app)))
  | SelectPhase ph =>
      if option_GamePhase_eqb (debugPhase app) ph then Some app
      else Some (canvas (PropDebugPhase ph)
                   (withDebug app (Some ph) (emptyMode app)
                      (renderStyle app)))
  | SelectRenderStyle style =>
      if RenderStyle_eqb style (renderStyle app) then Some app
      else Some (canvas PropRenderStyle
                   (withDebug app (debugPhase app) (emptyMode app) style))
  | SelectEmptyMode b =>
      if Bool.eqb b (emptyMode app) then Some app
      else Some (canvas (PropEmptyMode b)
                   (withDebug app (debugPhase app) b (renderStyle app)))
  | AnimationFrame delta sfx => Some (animationFrame delta sfx app)
  | SchedulerInterval =>
      option_map (withAudio app)
        (audioCall (IntervalFires now) (audioSystem app))
  end.

(** An event at the audio context time [now], with its render. *)
Definition dispatch (now : Q) (e : AppEvent) (app : App) : option App :=
  option_map (commit now app) (handle now e app).

Fixpoint appRun (trace : list (Q * AppEvent)) (app : App) : option App :=
  match trace with
  | [] => Some app
  | (now, e) :: rest =>
      match dispatch now e app with
      | Some app' => appRun rest app'
      | None => None
      end
  end.

(** The application after its first render and the mount effects. *)
Definition initialApp (rng : nat -> Q) : App :=
  {| gameState := MENU; menuSelection := 0;
     isMusicPlaying := false; wasPlayingRef := false;
     isJumpKeyDown := false; isLeftKeyDown := false;
     isRightKeyDown := false;
     debugPhase := None; emptyMode := false; renderStyle := GRID;
     audioSystem := newAudioSystem;
     gameRef := mounted rng;
     performed := [] |}.

(** ** Invariants of the application *)

(** What holds of the application between events, [g] being the game state
    of the last render: the canvas is what its record says, it has seen [g]
    and the empty-mode flag, the audio system is well formed, and the menu
    selection is 0 or 1. *)
Definition renderedInv (rng : nat -> Q) (g : GameState) (app : App) : Prop :=
  gameRef app = run (performed app) (mounted rng)
  /\ gameStateRef (gameRef app) = g
  /\ emptyModeRef (gameRef app) = emptyMode app
  /\ audioInv (audioSystem app)
  /\ 0 <= menuSelection app <= 1.

Definition appInv (rng : nat -> Q) (app : App) : Prop :=
  renderedInv rng (gameState app) app.

(** While a game is being played, is paused or has been completed, the
    player has health left. *)
Definition aliveInv (app : App) : Prop :=
  match gameState app with
  | PLAYING | PAUSED | LEVEL_COMPLETE =>
      0 < healthRef (session (gameRef app))
  | _ => True
  end.

(** A new game started from the first menu with Enter, then [n] frames of
    0.1 s, in a world whose segments each hold two obstacles in the same
    place of the player's lane. *)
Definition twinsGame (n : nat) : option App :=
  appRun ((0%Q, KeyDown Enter false)
          :: repeat (0%Q, AnimationFrame 0.1 []) n)
    (initialApp rngTwins).

(** The actions that do not write [gameStateRef] or [emptyModeRef]. *)
Definition plainAction (a : Action) : bool :=
  match a with
  | PropGameState _ | PropEmptyMode _ => false
  | _ => true
  end.

(** ** The game state machine *)

Definition isEscape (e : AppEvent) : bool :=
  match e with KeyDown Escape _ => true | _ => false end.

Definition isFrame (e : AppEvent) : bool :=
  match e with AnimationFrame _ _ => true | _ => false end.

(** The events that choose a menu entry: Enter or Space (not repeated), the
    on-screen jump control, a click on an entry. *)
Definition confirms (e : AppEvent) : bool :=
  match e with
  | KeyDown Enter false | KeyDown Space false => true
  | ControlDown CtlJump => true
  | MenuClick _ => true
  | _ => false
  end.

(** The changes of the game state and the events that make them. *)
Definition stateChange (g : GameState) (e : AppEvent) (g' : GameState)
  : bool :=
  match g, g' with
  | PLAYING, PAUSED => isEscape e
  | PLAYING, GAME_OVER | PLAYING, LEVEL_COMPLETE => isFrame e
  | MENU, PLAYING | PAUSED, PLAYING
  | GAME_OVER, PLAYING | LEVEL_COMPLETE, PLAYING => confirms e
  | PAUSED, MENU | GAME_OVER, MENU | LEVEL_COMPLETE, MENU => confirms e
  | _, _ => false
  end.

(** What can be done to the canvas while the game is in the state [g]. *)
Definition allowedIn (g : GameState) (a : Action) : bool :=
  match a with
  | MoveLeft | MoveRight | Jump => GameState_eqb g PLAYING
  | StartNewGame => GameState_eqb g MENU || GameState_eqb g GAME_OVER
  | StartNextLevel => GameState_eqb g LEVEL_COMPLETE
  | _ => true
  end.

(** ** Held keys *)

Definition callOf (c : Control) (a : Action) : bool :=
  match c, a with
  | CtlLeft, MoveLeft | CtlRight, MoveRight | CtlJump, Jump => true
  | _, _ => false
  end.

Definition keyOf (c : Control) (k : Key) : bool :=
  match c with
  | CtlLeft => isLeftKey k
  | CtlRight => isRightKey k
  | CtlJump => isJumpKey k
  end.

Definition heldKey (c : Control) (app : App) : bool :=
  match c with
  | CtlLeft => isLeftKeyDown app
  | CtlRight => isRightKeyDown app
  | CtlJump => isJumpKeyDown app
  end.

Definition releases (c : Control) (e : AppEvent) : bool :=
  match e with KeyUp k => keyOf c k | _ => false end.

Definition touches (c : Control) (e : AppEvent) : bool :=
  match e, c with
  | ControlDown CtlLeft, CtlLeft | ControlDown CtlRight, CtlRight
  | ControlDown CtlJump, CtlJump => true
  | _, _ => false
  end.

Definition countCalls (c : Control) (l : list Action) : nat :=
  length (filter (callOf c) l).

Definition countTouches (c : Control) (trace : list (Q * AppEvent)) : nat :=
  length (filter (fun ne => touches c (snd ne)) trace).

(** * Properties *)

(** ** Comparisons *)

Lemma gtQ_true (a b : Q) : gtQ a b = true <-> (b < a)%Q.
Proof.
  unfold gtQ. rewrite negb_true_iff. split; intro H.
  - apply Qnot_le_lt. intro Hle. apply Qle_bool_iff in Hle. congruence.
  - destruct (Qle_bool a b) eqn:E; [|reflexivity].
    apply Qle_bool_iff in E. exfalso. exact (Qlt_not_le _ _ H E).
Qed.

Lemma gtQ_false (a b : Q) : gtQ a b = false <-> (a <= b)%Q.
Proof.
  unfold gtQ. rewrite negb_false_iff. apply Qle_bool_iff.
Qed.

Lemma ltQ_true (a b : Q) : ltQ a b = true <-> (a < b)%Q.
Proof. apply gtQ_true. Qed.

Lemma ltQ_false (a b : Q) : ltQ a b = false <-> (b <= a)%Q.
Proof. apply gtQ_false. Qed.

(** ** Lane changes (C8) *)

Lemma changeLane_target (dir : Z) (st : Store) :
  targetLane (player (changeLane dir st)) =
  nextTargetLane (phaseRef st) (targetLane (player st)) dir.
Proof. reflexivity. Qed.

Lemma changeLane_phase (dir : Z) (st : Store) :
  phaseRef (changeLane dir st) = phaseRef st.
Proof. reflexivity. Qed.

Lemma nextTargetLane_flat (t dir : Z) :
  nextTargetLane FLAT t dir = Z.max (-3) (Z.min 3 (t + dir)).
Proof.
  unfold nextTargetLane. cbv zeta. change (- (3)) with (-3).
  destruct (Z.ltb_spec (t + dir) (-3)) as [E1 | E1].
  - change (-3 >? 3) with false. cbv iota. lia.
  - rewrite Z.gtb_ltb. destruct (Z.ltb_spec 3 (t + dir)); lia.
Qed.

Lemma nextTargetLane_cyclic (ph : GamePhase) (t dir : Z) :
  ph <> FLAT -> 0 <= t < 12 -> dir = 1 \/ dir = -1 ->
  nextTargetLane ph t dir = (t + dir) mod 12.
Proof.
  intros Hph Ht Hdir.
  assert (E : nextTargetLane ph t dir =
              let next := t + dir in
              let next := if next <? 0 then 11 else next in
              if next >=? 12 then 0 else next)
    by (destruct ph; [congruence | reflexivity ..]).
  rewrite E. cbv zeta.
  destruct (t + dir <? 0) eqn:E1.
  - apply Z.ltb_lt in E1. simpl.
    assert (t + dir = -1) as -> by lia. reflexivity.
  - apply Z.ltb_ge in E1.
    destruct (t + dir >=? 12) eqn:E2.
    + rewrite Z.geb_leb in E2. apply Z.leb_le in E2.
      assert (t + dir = 12) as -> by lia. reflexivity.
    + rewrite Z.geb_leb in E2. apply Z.leb_gt in E2.
      symmetry. apply Z.mod_small. lia.
Qed.

(** C8.  A lane change by one lane clamps the target lane to [-3, 3] in the
    FLAT phase and wraps it modulo 12 in the three cyclic phases; hence in a
    cyclic phase a move right followed by a move left returns to the lane it
    started from, and in the FLAT phase a move right from lane 3 stays in
    lane 3. *)
Theorem C8_lane_change (st : Store) (dir : Z) :
  dir = 1 \/ dir = -1 ->
  let L := targetLane (player st) in
  (phaseRef st = FLAT ->
     targetLane (player (changeLane dir st)) = Z.max (-3) (Z.min 3 (L + dir))
     /\ -3 <= targetLane (player (changeLane dir st)) <= 3
     /\ (L = 3 -> targetLane (player (changeLane 1 st)) = 3))
  /\ (phaseRef st <> FLAT -> 0 <= L < 12 ->
     targetLane (player (changeLane dir st)) = (L + dir) mod 12
     /\ targetLane (player (changeLane (-1) (changeLane 1 st))) = L).
Proof.
  intros Hdir L. split.
  - intro Hph. rewrite !changeLane_target, Hph, !nextTargetLane_flat.
    fold L. repeat split; try lia.
  - intros Hph HL. rewrite !changeLane_target, changeLane_phase.
    fold L. split.
    + apply nextTargetLane_cyclic; assumption.
    + rewrite (nextTargetLane_cyclic (phaseRef st) L 1) by (auto; lia).
      rewrite nextTargetLane_cyclic; auto.
      * rewrite Zplus_mod_idemp_l.
        replace (L + 1 + -1) with L by lia. apply Z.mod_small. lia.
      * apply Z.mod_pos_bound. lia.
Qed.

(** ** Spawning (C5, C9) *)

(** What [spawnObstacle] pushes, from the draws of the oracle. *)
Lemma spawnObstacle_spec (ph : GamePhase) (g : Segment) (t : Track) :
  let t' := snd (spawnObstacle ph false g t) in
  exists o k,
    obstaclesRef t' = obstaclesRef t ++ [o]
    /\ segmentsRef t' = segmentsRef t
    /\ detached t' = detached t
    /\ rng t' = rng t
    /\ nextId t' = nextId t
    /\ meshParent o = Some (segId g)
    /\ lane o = spawnLane ph (rng t (randomCalls t))
    /\ type o = spawnType (rng t (S (randomCalls t)))
    /\ meshZ o = spawnZPos (spawnTileRow (rng t k))
    /\ (k = 2 + randomCalls t \/ k = 3 + randomCalls t)%nat
    /\ width o = collisionWidth (type o)
    /\ exploded o = false
    /\ vertical (params o) = false.
Proof.
  unfold spawnObstacle, bind, Math_random, pushObstacle, ret. cbn.
  destruct (spawnType (rng t (S (randomCalls t)))) eqn:E; cbn;
    eexists; eexists; rewrite ?E;
    repeat (split; [reflexivity|]);
    (split; [ (left; reflexivity) || (right; reflexivity) |]);
    repeat split; reflexivity.
Qed.

(** In empty mode [spawnObstacle] does nothing. *)
Lemma spawnObstacle_empty (ph : GamePhase) (g : Segment) (t : Track) :
  snd (spawnObstacle ph true g t) = t.
Proof. reflexivity. Qed.

Lemma spawnType_intervals (r : Q) :
  (spawnType r = HEART <-> 0.95 < r)%Q
  /\ (spawnType r = SPEED_BOOST <-> 0.90 < r /\ r <= 0.95)%Q
  /\ (spawnType r = CLOCK_BLUE <-> 0.85 < r /\ r <= 0.90)%Q
  /\ (spawnType r = BULLET <-> 0.75 < r /\ r <= 0.85)%Q
  /\ (spawnType r = EXTRUDING <-> 0.65 < r /\ r <= 0.75)%Q
  /\ (spawnType r = WALL <-> 0.55 < r /\ r <= 0.65)%Q
  /\ (spawnType r = DOOR <-> 0.40 < r /\ r <= 0.55)%Q
  /\ (spawnType r = BALL <-> 0.25 < r /\ r <= 0.40)%Q
  /\ (spawnType r = SIMPLE <-> r <= 0.25)%Q.
Proof.
  unfold spawnType.
  destruct (gtQ r 0.95) eqn:E1;
    [ apply gtQ_true in E1 | apply gtQ_false in E1;
  destruct (gtQ r 0.90) eqn:E2;
    [ apply gtQ_true in E2 | apply gtQ_false in E2;
  destruct (gtQ r 0.85) eqn:E3;
    [ apply gtQ_true in E3 | apply gtQ_false in E3;
  destruct (gtQ r 0.75) eqn:E4;
    [ apply gtQ_true in E4 | apply gtQ_false in E4;
  destruct (gtQ r 0.65) eqn:E5;
    [ apply gtQ_true in E5 | apply gtQ_false in E5;
  destruct (gtQ r 0.55) eqn:E6;
    [ apply gtQ_true in E6 | apply gtQ_false in E6;
  destruct (gtQ r 0.40) eqn:E7;
    [ apply gtQ_true in E7 | apply gtQ_false in E7;
  destruct (gtQ r 0.25) eqn:E8;
    [ apply gtQ_true in E8 | apply gtQ_false in E8 ]]]]]]]];
  repeat split; intros; try discriminate; try tauto; try lra.
Qed.

(** INSTA_DEATH is in the enumeration but no draw selects it. *)
Lemma spawnType_not_INSTA_DEATH (r : Q) : spawnType r <> INSTA_DEATH.
Proof.
  unfold spawnType.
  repeat match goal with |- context [gtQ ?a ?b] => destruct (gtQ a b) end;
    discriminate.
Qed.

(** C5.  Each of the nine types of the probability table is selected by
    [spawnObstacle] for some draw in [0, 1), and the draws that select a type
    form the interval of the table: HEART, SPEED_BOOST and CLOCK_BLUE 5% each,
    BULLET, EXTRUDING and WALL 10% each, DOOR and BALL 15% each, SIMPLE the
    remaining 25%, in this order from the top. *)
Theorem C5_spawn_types_reachable :
  Forall (fun ty =>
            exists r : Q,
              (0 <= r)%Q /\ (r < 1)%Q /\ spawnType r = ty
              /\ forall ph g t, rng t (S (randomCalls t)) = r ->
                 exists o,
                   obstaclesRef (snd (spawnObstacle ph false g t)) =
                   obstaclesRef t ++ [o]
                   /\ type o = ty)
         tableTypes
  /\ forall r : Q,
      (spawnType r = HEART <-> 0.95 < r)%Q
      /\ (spawnType r = SPEED_BOOST <-> 0.90 < r /\ r <= 0.95)%Q
      /\ (spawnType r = CLOCK_BLUE <-> 0.85 < r /\ r <= 0.90)%Q
      /\ (spawnType r = BULLET <-> 0.75 < r /\ r <= 0.85)%Q
      /\ (spawnType r = EXTRUDING <-> 0.65 < r /\ r <= 0.75)%Q
      /\ (spawnType r = WALL <-> 0.55 < r /\ r <= 0.65)%Q
      /\ (spawnType r = DOOR <-> 0.40 < r /\ r <= 0.55)%Q
      /\ (spawnType r = BALL <-> 0.25 < r /\ r <= 0.40)%Q
      /\ (spawnType r = SIMPLE <-> r <= 0.25)%Q.
Proof.
  split; [| exact spawnType_intervals].
  assert (reach : forall r ty, (0 <= r)%Q -> (r < 1)%Q -> spawnType r = ty ->
            exists r : Q,
              (0 <= r)%Q /\ (r < 1)%Q /\ spawnType r = ty
              /\ forall ph g t, rng t (S (randomCalls t)) = r ->
                 exists o,
                   obstaclesRef (snd (spawnObstacle ph false g t)) =
                   obstaclesRef t ++ [o]
                   /\ type o = ty).
  { intros r ty H0 H1 Hty. exists r. repeat split; try assumption.
    intros ph g t Hr.
    destruct (spawnObstacle_spec ph g t) as (o & k & Ho & _ & _ & _ & _ & _ & _ & Hty' & _).
    exists o. split; [exact Ho|]. rewrite Hty', Hr. exact Hty. }
  unfold tableTypes.
  repeat apply Forall_cons; [ .. | apply Forall_nil ].
  - apply (reach 0.96%Q); [lra | lra | reflexivity].
  - apply (reach 0.93%Q); [lra | lra | reflexivity].
  - apply (reach 0.87%Q); [lra | lra | reflexivity].
  - apply (reach 0.80%Q); [lra | lra | reflexivity].
  - apply (reach 0.70%Q); [lra | lra | reflexivity].
  - apply (reach 0.60%Q); [lra | lra | reflexivity].
  - apply (reach 0.50%Q); [lra | lra | reflexivity].
  - apply (reach 0.30%Q); [lra | lra | reflexivity].
  - apply (reach 0.10%Q); [lra | lra | reflexivity].
Qed.

Lemma Math_floor_spec (x : Q) (j : Z) :
  Math_floor x = j <-> (inject_Z j <= x /\ x < inject_Z (j + 1))%Q.
Proof.
  unfold Math_floor. split.
  - intros <-. split; [apply Qfloor_le | apply Qlt_floor].
  - intros [Hlo Hhi].
    assert (H1 : j <= Qfloor x).
    { rewrite <- (Qfloor_Z j). apply Qfloor_resp_le. exact Hlo. }
    assert (H2 : Qfloor x < j + 1).
    { rewrite Zlt_Qlt. eapply Qle_lt_trans; [apply Qfloor_le | exact Hhi]. }
    lia.
Qed.

(** The draws that give lane [k] are those of
    [[(k - lowest)/count, (k - lowest + 1)/count)]: every lane of the range
    has an interval of the same length. *)
Lemma spawnLane_uniform (ph : GamePhase) (r : Q) (k : Z) :
  spawnLane ph r = k <->
  (inject_Z (k - lowestLane ph) <= r * inject_Z (laneCount ph)
   /\ r * inject_Z (laneCount ph) < inject_Z (k - lowestLane ph + 1))%Q.
Proof.
  rewrite <- Math_floor_spec.
  destruct ph; unfold spawnLane, laneCount, lowestLane; lia.
Qed.

Lemma spawnLane_range (ph : GamePhase) (r : Q) :
  (0 <= r)%Q -> (r < 1)%Q ->
  lowestLane ph <= spawnLane ph r < lowestLane ph + laneCount ph.
Proof.
  intros H0 H1.
  destruct (proj1 (spawnLane_uniform ph r (spawnLane ph r)) eq_refl)
    as [Hlo Hhi].
  assert (Hc : (r * inject_Z (laneCount ph) < inject_Z (laneCount ph))%Q).
  { destruct ph; unfold laneCount, LANE_COUNT_FLAT, LANE_COUNT_ROUND;
      change (inject_Z 7) with 7%Q; change (inject_Z 12) with 12%Q; lra. }
  assert (Hd : (0 <= r * inject_Z (laneCount ph))%Q).
  { destruct ph; unfold laneCount, LANE_COUNT_FLAT, LANE_COUNT_ROUND;
      change (inject_Z 7) with 7%Q; change (inject_Z 12) with 12%Q; lra. }
  assert (A : (inject_Z (spawnLane ph r - lowestLane ph)
               < inject_Z (laneCount ph))%Q) by lra.
  assert (B : (inject_Z 0 < inject_Z (spawnLane ph r - lowestLane ph + 1))%Q)
    by (change (inject_Z 0) with 0%Q; lra).
  rewrite <- Zlt_Qlt in A, B. lia.
Qed.

Lemma spawnTileRow_range (r : Q) :
  (0 <= r)%Q -> (r < 1)%Q -> 0 <= spawnTileRow r <= 3.
Proof.
  intros H0 H1. unfold spawnTileRow.
  destruct (proj1 (Math_floor_spec (r * 4) (Math_floor (r * 4))) eq_refl)
    as [Hlo Hhi].
  assert (A : (inject_Z (Math_floor (r * 4)) < inject_Z 4)%Q)
    by (change (inject_Z 4) with 4%Q; lra).
  assert (B : (inject_Z 0 < inject_Z (Math_floor (r * 4) + 1))%Q)
    by (change (inject_Z 0) with 0%Q; lra).
  rewrite <- Zlt_Qlt in A, B. lia.
Qed.

(** The four sub-slots: 1.5, 4.5, 7.5 and 10.5. *)
Lemma spawnZPos_slots (row : Z) :
  0 <= row <= 3 ->
  (spawnZPos row == 1.5 \/ spawnZPos row == 4.5 \/ spawnZPos row == 7.5
   \/ spawnZPos row == 10.5)%Q.
Proof.
  intro H.
  assert (C : row = 0 \/ row = 1 \/ row = 2 \/ row = 3) by lia.
  destruct C as [-> | [-> | [-> | ->]]];
    [ left | right; left | right; right; left | right; right; right ];
    reflexivity.
Qed.

(** Two different sub-slots are a whole number of lane widths apart. *)
Lemma spawnZPos_apart (a b : Z) :
  (spawnZPos a - spawnZPos b == inject_Z (a - b) * LANE_WIDTH)%Q.
Proof.
  unfold spawnZPos, LANE_WIDTH. unfold Zminus.
  rewrite inject_Z_plus, inject_Z_opp. field.
Qed.

Lemma rngTwins_valid : validRng rngTwins.
Proof.
  intro n. unfold rngTwins.
  destruct (Nat.eqb (Nat.modulo n 12) 1); split; lra.
Qed.

Lemma rngHigh_valid : validRng rngHigh.
Proof. intro n. unfold rngHigh. split; lra. Qed.

(** The claim of the design document taken literally: sub-slots within the
    segment span and no two obstacles of a segment in the same place.
    In a new game the first two obstacles belong to the same segment and
    have the same lane and the same sub-slot, and in another new game the
    first obstacle has the offset 10.5, beyond the segment length 8. *)
Lemma C9_counterexample :
  validRng rngTwins /\ validRng rngHigh
  /\ (exists a b rest,
        obstaclesRef (track (newGame rngTwins)) = a :: b :: rest
        /\ meshParent a = meshParent b /\ lane a = lane b
        /\ meshZ a = meshZ b /\ exploded a = false /\ exploded b = false)
  /\ (exists o rest,
        obstaclesRef (track (newGame rngHigh)) = o :: rest
        /\ meshZ o == 10.5 /\ SEGMENT_LENGTH < meshZ o)%Q.
Proof.
  split; [exact rngTwins_valid|]. split; [exact rngHigh_valid|]. split.
  - eexists. eexists. eexists. vm_compute. repeat split.
  - eexists. eexists. split; [vm_compute; reflexivity|]. split; reflexivity.
Qed.

(** C9 (amended).  With draws in [0, 1), the obstacle that [spawnObstacle]
    pushes has a lane in the lane range of the phase (-3..3 for FLAT, 0..11
    otherwise), every lane of the range being drawn for an interval of draws
    of the same length, and an offset that is one of the four sub-slots 1.5,
    4.5, 7.5 and 10.5 from the segment origin, sub-slots being whole lane
    widths apart.  Nothing is claimed about the sub-slot being inside the
    segment or about two obstacles of a segment being apart. *)
Theorem C9_spawn_placement (ph : GamePhase) (g : Segment) (t : Track) :
  validRng (rng t) ->
  (exists o row,
     obstaclesRef (snd (spawnObstacle ph false g t)) = obstaclesRef t ++ [o]
     /\ meshParent o = Some (segId g)
     /\ lane o = spawnLane ph (rng t (randomCalls t))
     /\ lowestLane ph <= lane o < lowestLane ph + laneCount ph
     /\ meshZ o = spawnZPos row
     /\ 0 <= row <= 3
     /\ (meshZ o == 1.5 \/ meshZ o == 4.5 \/ meshZ o == 7.5
         \/ meshZ o == 10.5)%Q)
  /\ (forall (r : Q) (k : Z),
        spawnLane ph r = k <->
        (inject_Z (k - lowestLane ph) <= r * inject_Z (laneCount ph)
         /\ r * inject_Z (laneCount ph) < inject_Z (k - lowestLane ph + 1))%Q)
  /\ (forall a b : Z,
        (spawnZPos a - spawnZPos b == inject_Z (a - b) * LANE_WIDTH)%Q).
Proof.
  intro Hrng. split; [| split; [apply spawnLane_uniform | apply spawnZPos_apart]].
  destruct (spawnObstacle_spec ph g t)
    as (o & k & Ho & _ & _ & _ & _ & Hp & Hl & _ & Hz & _).
  exists o, (spawnTileRow (rng t k)).
  destruct (Hrng k) as [K0 K1]. destruct (Hrng (randomCalls t)) as [R0 R1].
  pose proof (spawnTileRow_range _ K0 K1) as Hrow.
  repeat split; try assumption; try lia.
  - rewrite Hl. apply spawnLane_range; assumption.
  - rewrite Hl. apply spawnLane_range; assumption.
  - rewrite Hz. apply spawnZPos_slots. exact Hrow.
Qed.

Lemma C9_spawn_placement_witness :
  validRng (rng (track (newGame rngTwins)))
  /\ exists o,
       obstaclesRef
         (snd (spawnObstacle ROUND false {| segId := 0; positionZ := 0 |}
                 (track (newGame rngTwins))))
       = obstaclesRef (track (newGame rngTwins)) ++ [o]
       /\ 0 <= lane o < 12.
Proof.
  split; [exact rngTwins_valid|].
  destruct (C9_spawn_placement ROUND {| segId := 0; positionZ := 0 |}
              (track (newGame rngTwins)) rngTwins_valid)
    as [(o & row & Ho & _ & _ & Hl & _) _].
  exists o. split; [exact Ho | exact Hl].
Defined.

(** ** The frame delta (C3) *)

Lemma SFcompare_antisym (x y : spec_float) :
  SFcompare x y = option_map CompOpp (SFcompare y x).
Proof.
  destruct x as [sx | sx | | sx mx ex], y as [sy | sy | | sy my ey];
    simpl; try reflexivity;
    try (destruct sx; reflexivity); try (destruct sy; reflexivity);
    try (destruct sx, sy; reflexivity).
  pose proof (Pos.compare_cont_antisym my mx Eq) as A. simpl in A.
  destruct sx, sy; try reflexivity;
    rewrite (Z.compare_antisym ex ey); destruct (ex ?= ey); simpl;
      try reflexivity; rewrite A; reflexivity.
Qed.

(** Not above [y] and comparable with it is below or equal to it. *)
Lemma SFltb_false_SFleb (x y : spec_float) :
  isNaN x = false -> isNaN y = false -> SFltb y x = false -> SFleb x y = true.
Proof.
  unfold SFltb, SFleb. intros Hx Hy. rewrite (SFcompare_antisym x y).
  destruct (SFcompare y x) as [[ | | ] | ] eqn:E; simpl;
    try reflexivity; try discriminate.
  destruct x, y; simpl in *; discriminate.
Qed.

Lemma clampDelta_eq (d : spec_float) :
  clampDelta d = if isNaN d || SFltb f64_0_1 d then f64_0_1 else d.
Proof. reflexivity. Qed.

Lemma clampDelta_not_nan (d : spec_float) : isNaN (clampDelta d) = false.
Proof.
  unfold clampDelta. destruct (isNaN d) eqn:E; simpl; [reflexivity|].
  destruct (SFltb f64_0_1 d); [reflexivity | exact E].
Qed.

Lemma clampDelta_not_above (d : spec_float) :
  SFltb f64_0_1 (clampDelta d) = false.
Proof.
  unfold clampDelta. destruct (isNaN d); simpl; [reflexivity|].
  destruct (SFltb f64_0_1 d) eqn:E; [reflexivity | exact E].
Qed.

Lemma clampDelta_nonneg (d : spec_float) :
  SFleb f64_0 d = true ->
  SFleb f64_0 (clampDelta d) = true /\ isFinite (clampDelta d) = true.
Proof.
  intro H. unfold clampDelta.
  destruct (isNaN d) eqn:N; simpl; [split; reflexivity|].
  destruct (SFltb f64_0_1 d) eqn:E; [split; reflexivity|].
  split; [exact H|].
  destruct d as [s | [ | ] | | s m e]; try reflexivity; discriminate.
Qed.

(** A finite double that is not below zero has a rational value that is
    not negative. *)
Lemma SF2Q_nonneg (x : spec_float) :
  SFleb f64_0 x = true -> isFinite x = true ->
  exists q, SF2Q x = Some q /\ (0 <= q)%Q.
Proof.
  intros H0 HF. destruct x as [s | s | | s m e]; try discriminate.
  - exists 0%Q. split; [reflexivity | apply Qle_refl].
  - destruct s; [discriminate|]. simpl SF2Q. eexists. split; [reflexivity|].
    destruct e as [| k | k]; unfold Qle; simpl; try lia.
    assert (P : 0 < Z.pow_pos 2 k)
      by (apply (Z.pow_pos_nonneg 2 (Z.pos k)); lia).
    destruct (Z.pow_pos 2 k); lia.
Qed.

(** The claim of the design document taken literally: a frame whose time
    stamp is one second before the previous one integrates the delta -1 (the
    time left grows from 60 to 61 and the score falls to -16), and a time
    stamp of minus infinity integrates minus infinity. *)
Lemma C3_counterexample :
  frameDelta f64_1000 f64_2000 = f64_m1
  /\ SFltb (frameDelta f64_1000 f64_2000) f64_0 = true
  /\ option_map Qred (SF2Q (frameDelta f64_1000 f64_2000)) = Some (-1 # 1)
  /\ option_map (fun st => (Qred (timeRef st), Qred (scoreRef (session st))))
       (animate f64_1000 (setLastTime f64_2000 (newGame rngTwins)))
     = Some (61 # 1, -16 # 1)
  /\ frameDelta (S754_infinity true) f64_0 = S754_infinity true
  /\ isFinite (frameDelta (S754_infinity true) f64_0) = false
  /\ animate (S754_infinity true) (newGame rngTwins) = None.
Proof. vm_compute. repeat split; reflexivity. Qed.

(** C3 (amended).  The delta of a frame is the raw difference of the time
    stamps in seconds, replaced by 0.1 when it is not a number or greater
    than 0.1 (plus infinity included) and left as it is otherwise, negative
    values and minus infinity included.  So the delta that is integrated is
    never NaN and never above 0.1, and when the raw delta is not negative it
    is finite and lies in [0, 0.1]; the frame then runs [step] with its
    rational value. *)
Theorem C3_frame_delta (time lastTime : spec_float) :
  let raw := rawDelta time lastTime in
  let d := frameDelta time lastTime in
  d = (if isNaN raw || SFltb f64_0_1 raw then f64_0_1 else raw)
  /\ isNaN d = false
  /\ SFltb f64_0_1 d = false
  /\ SFleb d f64_0_1 = true
  /\ (SFleb f64_0 raw = true ->
      SFleb f64_0 d = true /\ isFinite d = true
      /\ exists q,
           SF2Q d = Some q /\ (0 <= q)%Q
           /\ forall st, gameStateRef st <> PAUSED ->
                lastTimeRef st = lastTime ->
                animate time st = Some (step q (setLastTime time st))).
Proof.
  intros raw d. unfold d, frameDelta. fold raw.
  split; [apply clampDelta_eq|].
  split; [apply clampDelta_not_nan|].
  split; [apply clampDelta_not_above|].
  split.
  { apply SFltb_false_SFleb;
      [apply clampDelta_not_nan | reflexivity | apply clampDelta_not_above]. }
  intro Hraw. destruct (clampDelta_nonneg raw Hraw) as [H0 HF].
  split; [exact H0|]. split; [exact HF|].
  destruct (SF2Q_nonneg (clampDelta raw) H0 HF) as (q & Hq & Hq0).
  exists q. split; [exact Hq|]. split; [exact Hq0|].
  intros st HP HL. unfold animate, frameDelta. rewrite HL. fold raw.
  rewrite Hq. destruct (gameStateRef st); try reflexivity. congruence.
Qed.

Lemma C3_frame_delta_witness :
  SFleb f64_0 (rawDelta f64_2000 f64_1000) = true
  /\ SFleb f64_0 (frameDelta f64_2000 f64_1000) = true
  /\ isFinite (frameDelta f64_2000 f64_1000) = true.
Proof.
  split; [vm_compute; reflexivity|].
  destruct (C3_frame_delta f64_2000 f64_1000) as (_ & _ & _ & _ & H).
  destruct (H eq_refl) as (A & B & _). split; [exact A | exact B].
Defined.

(** ** The obstacle callback *)

Lemma moveObstacle_fields (f : Frame) (o : ObstacleData) :
  type (moveObstacle f o) = type o
  /\ lane (moveObstacle f o) = lane o
  /\ exploded (moveObstacle f o) = exploded o
  /\ meshParent (moveObstacle f o) = meshParent o
  /\ params (moveObstacle f o) = params o
  /\ width (moveObstacle f o) = width o.
Proof.
  unfold moveObstacle.
  destruct (type o) eqn:E; repeat split; simpl; try exact E; reflexivity.
Qed.

Lemma obstacleCallback_hits (f : Frame) (s : Session) (o : ObstacleData) :
  hits f o = true ->
  obstacleCallback f s o =
  (resolve (type o) s, removeMesh (setExploded (moveObstacle f o) true)).
Proof.
  unfold hits, obstacleCallback. cbv zeta.
  destruct (moveObstacle_fields f o) as (Ht & Hl & _ & _ & Hp & _).
  rewrite Ht, Hl, Hp.
  destruct (exploded o); [discriminate|].
  destruct (meshParent o); [|discriminate]. simpl orb.
  destruct (gtQ _ 2.0); [discriminate|].
  destruct (ltQ _ 1.2); [|discriminate].
  destruct (_ =? lane o); [|discriminate].
  destruct (gtQ (fJH f) 1.5 && negb (vertical (params o))); [discriminate|].
  intros _. reflexivity.
Qed.

Lemma obstacleCallback_misses (f : Frame) (s : Session) (o : ObstacleData) :
  hits f o = false -> fst (obstacleCallback f s o) = s.
Proof.
  unfold hits, obstacleCallback. cbv zeta.
  destruct (moveObstacle_fields f o) as (Ht & Hl & _ & _ & Hp & _).
  rewrite Ht, Hl, Hp.
  destruct (exploded o); [reflexivity|].
  destruct (meshParent o); [|reflexivity]. simpl orb.
  destruct (gtQ _ 2.0); [destruct (gtQ _ 10); reflexivity|].
  destruct (ltQ _ 1.2); [|reflexivity].
  destruct (_ =? lane o); [|reflexivity].
  destruct (gtQ (fJH f) 1.5 && negb (vertical (params o))); [reflexivity|].
  discriminate.
Qed.

(** A resolved obstacle is skipped. *)
Lemma obstacleCallback_exploded (f : Frame) (s : Session) (o : ObstacleData) :
  exploded o = true -> obstacleCallback f s o = (s, o).
Proof. intro H. unfold obstacleCallback. rewrite H. reflexivity. Qed.

Lemma hits_unresolved (f : Frame) (o : ObstacleData) :
  hits f o = true -> exploded o = false.
Proof. unfold hits. destruct (exploded o); [discriminate | reflexivity]. Qed.


Lemma applyHit_events (ty : ObstacleType) (s : Session) :
  exists e, events (applyHit ty s) = events s ++ [e].
Proof. destruct ty; eexists; reflexivity. Qed.

Lemma resolve_events (ty : ObstacleType) (s : Session) :
  length (events (resolve ty s)) = S (length (events s)).
Proof.
  unfold resolve. cbv zeta.
  destruct (applyHit_events ty s) as [e He].
  destruct (healthRef (applyHit ty s) <=? 0); simpl; rewrite He;
    rewrite length_app; simpl; lia.
Qed.

Lemma fired_hits (f : Frame) (s : Session) (o : ObstacleData) :
  fired f s o = if hits f o then 1%nat else 0%nat.
Proof.
  unfold fired. destruct (hits f o) eqn:H.
  - rewrite (obstacleCallback_hits f s o H). simpl fst.
    rewrite resolve_events. lia.
  - rewrite (obstacleCallback_misses f s o H). lia.
Qed.

Lemma resolutions_exploded (frames : list (Frame * Session))
  (o : ObstacleData) :
  exploded o = true -> resolutions frames o = 0%nat.
Proof.
  intro H. induction frames as [| [f s] rest IH]; [reflexivity|].
  simpl. unfold fired. rewrite (obstacleCallback_exploded f s o H). simpl.
  rewrite IH. lia.
Qed.

Lemma resolutions_le_1 (frames : list (Frame * Session)) (o : ObstacleData) :
  (resolutions frames o <= 1)%nat.
Proof.
  revert o. induction frames as [| [f s] rest IH]; intro o; simpl; [lia|].
  rewrite fired_hits. destruct (hits f o) eqn:H.
  - rewrite (obstacleCallback_hits f s o H). simpl snd.
    rewrite resolutions_exploded by reflexivity. lia.
  - specialize (IH (snd (obstacleCallback f s o))). lia.
Qed.

(** The callback never turns a resolved obstacle into an unresolved one. *)
Lemma obstacleCallback_unresolved (f : Frame) (s : Session)
  (o : ObstacleData) :
  (length (events (fst (obstacleCallback f s o)))
   + unresolved [snd (obstacleCallback f s o)]
   <= length (events s) + unresolved [o])%nat.
Proof.
  destruct (hits f o) eqn:H.
  - rewrite (obstacleCallback_hits f s o H). simpl fst. simpl snd.
    rewrite resolve_events. unfold unresolved. simpl.
    rewrite (hits_unresolved f o H). simpl. lia.
  - rewrite (obstacleCallback_misses f s o H).
    apply Nat.add_le_mono_l. unfold unresolved. simpl.
    destruct (exploded o) eqn:E.
    + rewrite (obstacleCallback_exploded f s o E). simpl. rewrite E. simpl. lia.
    + simpl. destruct (exploded (snd (obstacleCallback f s o))); simpl; lia.
Qed.

Lemma forEachObstacle_length (f : Frame) (s : Session)
  (obs : list ObstacleData) :
  length (snd (forEachObstacle f s obs)) = length obs.
Proof.
  revert s. induction obs as [| o rest IH]; intro s; simpl; [reflexivity|].
  destruct (obstacleCallback f s o) as [s1 o1].
  specialize (IH s1). destruct (forEachObstacle f s1 rest) as [s2 rest'].
  simpl in *. congruence.
Qed.

(** In a frame, every resolution resolves an obstacle of its own. *)
Lemma forEachObstacle_unresolved (f : Frame) (s : Session)
  (obs : list ObstacleData) :
  (length (events (fst (forEachObstacle f s obs)))
   + unresolved (snd (forEachObstacle f s obs))
   <= length (events s) + unresolved obs)%nat.
Proof.
  revert s. induction obs as [| o rest IH]; intro s; simpl; [lia|].
  pose proof (obstacleCallback_unresolved f s o) as H1.
  destruct (obstacleCallback f s o) as [s1 o1].
  specialize (IH s1). destruct (forEachObstacle f s1 rest) as [s2 rest'].
  unfold unresolved in *. simpl in *.
  destruct (exploded o), (exploded o1); simpl in *; lia.
Qed.

(** A frame calls the callback once on every obstacle of the array, in
    order, each call with the session the calls before it have left. *)
Lemma forEachObstacle_pointwise (f : Frame) (s : Session)
  (obs : list ObstacleData) :
  Forall2 (fun o o' => exists s', o' = snd (obstacleCallback f s' o))
    obs (snd (forEachObstacle f s obs)).
Proof.
  revert s. induction obs as [| o rest IH]; intro s; simpl; [constructor|].
  destruct (obstacleCallback f s o) as [s1 o1] eqn:E.
  specialize (IH s1). destruct (forEachObstacle f s1 rest) as [s2 rest'].
  simpl in *. constructor; [| exact IH].
  exists s. rewrite E. reflexivity.
Qed.

(** C1.  Over any sequence of frames that see an obstacle, whatever the other
    state is in each of them, the effect of the obstacle is applied at most
    once: a call of the callback either leaves the session as it is, or
    applies the effect once to an obstacle that was not resolved and marks it
    resolved and removed; a resolved obstacle is skipped.  A frame calls the
    callback once on each obstacle, and within a frame every resolution
    resolves an obstacle of its own. *)
Theorem C1_at_most_one_resolution (frames : list (Frame * Session))
  (o : ObstacleData) :
  (resolutions frames o <= 1)%nat
  /\ (exploded o = true -> resolutions frames o = 0%nat)
  /\ (forall f s,
        let r := obstacleCallback f s o in
        (fired f s o = 0%nat /\ fst r = s
         /\ (exploded o = true -> snd r = o))
        \/ (fired f s o = 1%nat /\ fst r = resolve (type o) s
            /\ exploded o = false /\ exploded (snd r) = true
            /\ meshParent (snd r) = None))
  /\ (forall f s obs,
        let r := forEachObstacle f s obs in
        Forall2 (fun o o' => exists s', o' = snd (obstacleCallback f s' o))
          obs (snd r)
        /\ (length (events (fst r)) + unresolved (snd r)
            <= length (events s) + unresolved obs)%nat).
Proof.
  split; [apply resolutions_le_1|].
  split; [apply resolutions_exploded|].
  split.
  - intros f s r. unfold r. rewrite fired_hits.
    destruct (hits f o) eqn:H.
    + right. rewrite (obstacleCallback_hits f s o H).
      repeat split. exact (hits_unresolved f o H).
    + left. repeat split.
      * exact (obstacleCallback_misses f s o H).
      * intro E. rewrite (obstacleCallback_exploded f s o E). reflexivity.
  - intros f s obs r. unfold r. split.
    + apply forEachObstacle_pointwise.
    + apply forEachObstacle_unresolved.
Qed.

(** ** Health (C2) *)

Lemma resolve_health (ty : ObstacleType) (s : Session) :
  healthRef (resolve ty s) =
  match ty with
  | HEART => Z.min 100 (healthRef s + 20)
  | SPEED_BOOST | CLOCK_BLUE => healthRef s
  | _ => healthRef s - 20
  end.
Proof.
  unfold resolve. cbv zeta.
  destruct (healthRef (applyHit ty s) <=? 0); destruct ty; reflexivity.
Qed.

Lemma resolve_stateCalls (ty : ObstacleType) (s : Session) :
  stateCalls (resolve ty s) =
  stateCalls s ++ (if healthRef (resolve ty s) <=? 0 then [GAME_OVER] else []).
Proof.
  unfold resolve. cbv zeta.
  destruct (healthRef (applyHit ty s) <=? 0) eqn:E.
  - change (healthRef (setGameState GAME_OVER (applyHit ty s)))
      with (healthRef (applyHit ty s)).
    rewrite E. destruct ty; reflexivity.
  - rewrite E. rewrite app_nil_r. destruct ty; reflexivity.
Qed.

Lemma resolve_healthInv (ty : ObstacleType) (s : Session) :
  healthInv s -> healthInv (resolve ty s).
Proof.
  unfold healthInv. intros [Hle [k Hk]]. rewrite resolve_health.
  destruct ty;
    try (split; [lia | exists (k - 1); lia]);
    try (split; [lia | exists k; lia]).
  destruct (Z.min_spec 100 (healthRef s + 20)) as [[Hm ->] | [Hm ->]].
  - split; [lia | exists 5; lia].
  - split; [lia | exists (k + 1); lia].
Qed.

Lemma resolveAll_healthInv (tys : list ObstacleType) (s : Session) :
  healthInv s -> healthInv (resolveAll tys s).
Proof.
  revert s. induction tys as [| ty rest IH]; intros s H; [exact H|].
  simpl. apply IH. apply resolve_healthInv. exact H.
Qed.

Lemma obstacleCallback_healthInv (f : Frame) (s : Session)
  (o : ObstacleData) :
  healthInv s -> healthInv (fst (obstacleCallback f s o)).
Proof.
  intro H. destruct (hits f o) eqn:E.
  - rewrite (obstacleCallback_hits f s o E). apply resolve_healthInv. exact H.
  - rewrite (obstacleCallback_misses f s o E). exact H.
Qed.

Lemma forEachObstacle_healthInv (f : Frame) (s : Session)
  (obs : list ObstacleData) :
  healthInv s -> healthInv (fst (forEachObstacle f s obs)).
Proof.
  revert s. induction obs as [| o rest IH]; intros s H; simpl; [exact H|].
  pose proof (obstacleCallback_healthInv f s o H) as H1.
  destruct (obstacleCallback f s o) as [s1 o1].
  specialize (IH s1 H1). destruct (forEachObstacle f s1 rest) as [s2 rest'].
  exact IH.
Qed.

Lemma speedTimer_health (delta : Q) (s : Session) :
  healthRef (speedTimer delta s) = healthRef s.
Proof.
  unfold speedTimer. destruct (gtQ (speedTimerRef s) 0); [|reflexivity].
  destruct (leQ _ 0); reflexivity.
Qed.

Lemma step_healthInv (delta : Q) (st : Store) :
  healthInv (session st) -> healthInv (session (step delta st)).
Proof.
  intro H. unfold step. cbv zeta.
  assert (H0 : healthInv (speedTimer delta (session st)))
    by (unfold healthInv; rewrite speedTimer_health; exact H).
  destruct (gameStateRef st); try exact H0.
  match goal with
  | |- context [forEachObstacle ?f ?s ?obs] =>
      assert (H1 : healthInv s);
      [| pose proof (forEachObstacle_healthInv f s obs H1) as H2;
         destruct (forEachObstacle f s obs); exact H2 ]
  end.
  destruct (leQ _ 0); exact H0.
Qed.

Lemma resetGame_healthInv (b : bool) (st : Store) :
  healthInv (session st) -> healthInv (session (resetGame b st)).
Proof.
  intro H. unfold resetGame. cbv zeta. simpl session.
  destruct b; [| exact H].
  split; [simpl; unfold MAX_HEALTH; lia | exists 5; reflexivity].
Qed.

Lemma perform_healthInv (a : Action) (st : Store) :
  healthInv (session st) -> healthInv (session (perform a st)).
Proof.
  intro H. destruct a; unfold perform; try exact H.
  - unfold tick. destruct (gameStateRef st);
      try (apply step_healthInv); exact H.
  - unfold doJump. destruct (isJumping (player st)); exact H.
  - apply resetGame_healthInv. exact H.
  - unfold syncDebugPhase. destruct (GamePhase_eqb ph (phaseRef st));
      [exact H | apply resetGame_healthInv; exact H].
Qed.

Lemma run_healthInv (acts : list Action) (st : Store) :
  healthInv (session st) -> healthInv (session (run acts st)).
Proof.
  revert st. induction acts as [| a rest IH]; intros st H; [exact H|].
  simpl. apply IH. apply perform_healthInv. exact H.
Qed.

Lemma newGame_health (rng : nat -> Q) :
  healthRef (session (newGame rng)) = 100.
Proof. reflexivity. Qed.

(** ** Vertical clearance (C4) *)

Lemma rngBalls_valid : validRng rngBalls.
Proof.
  intro n. unfold rngBalls.
  destruct (Nat.eqb (Nat.modulo n 7) 3); split; lra.
Qed.

(** A jump above the clearance height avoids every obstacle whose [vertical]
    flag is not set. *)
Lemma jump_clears (f : Frame) (o : ObstacleData) :
  gtQ (fJH f) 1.5 = true -> vertical (params o) = false -> hits f o = false.
Proof.
  intros HJ HV. unfold hits. cbv zeta. rewrite HJ, HV. simpl.
  rewrite !andb_false_r. reflexivity.
Qed.

(** With the flag set, no jump avoids the obstacle. *)
Lemma vertical_blocks_clearance (f : Frame) (o : ObstacleData) :
  vertical (params o) = true ->
  hits f o =
  hits {| fPhase := fPhase f; fLane := fLane f; fJH := 0; fDt := fDt f;
          fGameTime := fGameTime f; fGroups := fGroups f |} o.
Proof.
  intro HV. unfold hits. cbv zeta. rewrite HV. simpl.
  rewrite andb_false_r. reflexivity.
Qed.

Lemma isLaneZeroBall_spec (o : ObstacleData) :
  isLaneZeroBall o = true ->
  type o = BALL /\ lane o = 0 /\ vertical (params o) = false.
Proof.
  unfold isLaneZeroBall. intro E.
  apply andb_prop in E. destruct E as [E Hv].
  apply andb_prop in E. destruct E as [Ht Hl].
  repeat split.
  - destruct (type o); try discriminate. reflexivity.
  - apply Z.eqb_eq. exact Hl.
  - apply negb_true_iff. exact Hv.
Qed.

(** C4, as the code has it.  [spawnObstacle] stores [vertical: false] for
    every type, BALL included, so the clearance test
    [jH > 1.5 && !obs.params.vertical] never tells a BALL from the other
    types: a jump above 1.5 leaves the session untouched for every spawned
    obstacle.  In a new game whose segments each hold one BALL in the player's
    lane, three frames after a jump pass the first BALL without a hit, and the
    same frames without the jump take the hit. *)
Theorem C4_ball_jumped_over :
  (forall ph g t,
     exists o,
       obstaclesRef (snd (spawnObstacle ph false g t)) = obstaclesRef t ++ [o]
       /\ vertical (params o) = false)
  /\ (forall f s o,
        vertical (params o) = false -> gtQ (fJH f) 1.5 = true ->
        fst (obstacleCallback f s o) = s)
  /\ Forall (fun o => type o = BALL /\ lane o = 0
                      /\ vertical (params o) = false)
       (obstaclesRef (track (newGame rngBalls)))
  /\ length (obstaclesRef (track (newGame rngBalls))) = 40%nat
  /\ (let st := run [Jump; Tick 0.1; Tick 0.1; Tick 0.1] (newGame rngBalls) in
      healthRef (session st) = 100 /\ events (session st) = [])
  /\ (let st := run [Tick 0.1; Tick 0.1; Tick 0.1] (newGame rngBalls) in
      healthRef (session st) = 80 /\ events (session st) = [DAMAGE]).
Proof.
  split.
  { intros ph g t.
    destruct (spawnObstacle_spec ph g t)
      as (o & k & Ho & _ & _ & _ & _ & _ & _ & _ & _ & _ & _ & _ & Hv).
    exists o. split; assumption. }
  split.
  { intros f s o HV HJ. apply obstacleCallback_misses.
    apply jump_clears; assumption. }
  split.
  { apply Forall_forall. intros o Ho. apply isLaneZeroBall_spec.
    revert o Ho. apply forallb_forall. vm_compute. reflexivity. }
  vm_compute. repeat split; reflexivity.
Qed.

(** ** Lane match (C6) *)

Lemma rngLane11_valid : validRng rngLane11.
Proof.
  intro n. unfold rngLane11.
  destruct (Nat.modulo n 12) as [| [| [| [| [| [| [| [| k]]]]]]]];
    split; lra.
Qed.

(** C6, as the code has it.  The lane check wraps the rounded lane only in
    the ROUND phase; in the two square phases it compares the rounded lane as
    it is.  [currentLane] leaves 0..11 as soon as the player crosses the
    seam: after one move left from lane 0 it goes to -1.  In the first square
    phase the player then runs through the obstacles of lane 11 without a
    hit, in the ROUND phase the same moves take the hits.  In the ROUND phase
    itself the wrap adds 12 once, so a rounded lane below -12 stays
    negative. *)
Theorem C6_square_lane_not_normalized :
  (forall x, playerLane TUNNEL_GLOWING x = Math_round x)
  /\ (forall x, playerLane TUNNEL_CLEAN x = Math_round x)
  /\ (let sq := run [MoveLeft; Tick 0.1]
                  (syncGameState PLAYING (nextLevel (newGame rngLane11))) in
      phaseRef sq = TUNNEL_GLOWING
      /\ targetLane (player sq) = 11
      /\ Math_round (currentLane (player sq)) = -1
      /\ playerLane (phaseRef sq) (currentLane (player sq)) = -1
      /\ healthRef (session sq) = 100
      /\ events (session sq) = [])
  /\ (let sq := run (MoveLeft :: repeat (Tick 0.1) 11)
                  (syncGameState PLAYING (nextLevel (newGame rngLane11))) in
      healthRef (session sq) = 100 /\ events (session sq) = [])
  /\ (let tube := run [MoveLeft; Tick 0.1] (newGame rngLane11) in
      phaseRef tube = ROUND
      /\ targetLane (player tube) = 11
      /\ Math_round (currentLane (player tube)) = -1
      /\ playerLane (phaseRef tube) (currentLane (player tube)) = 11
      /\ healthRef (session tube) = 60
      /\ events (session tube) = [DAMAGE; DAMAGE])
  /\ playerLane ROUND (-13) = -1.
Proof.
  split; [reflexivity|]. split; [reflexivity|].
  vm_compute. repeat split; reflexivity.
Qed.

(** ** Collision width (C10) *)

Lemma hits_setWidth (f : Frame) (o : ObstacleData) (w : Q) :
  hits f (setWidth o w) = hits f o.
Proof.
  unfold hits, obsWorldZ, moveObstacle. cbv zeta. simpl.
  destruct (type o); reflexivity.
Qed.

Lemma moveObstacle_setWidth (f : Frame) (o : ObstacleData) (w : Q) :
  type o <> BALL ->
  moveObstacle f (setWidth o w) = setWidth (moveObstacle f o) w.
Proof.
  intro H. unfold moveObstacle. simpl.
  destruct (type o); try reflexivity. congruence.
Qed.






(** ** The segment window (C7) *)

Lemma sameSegments_trans (t1 t2 t3 : Track) :
  sameSegments t1 t2 -> sameSegments t2 t3 -> sameSegments t1 t3.
Proof. unfold sameSegments. intros [A B] [C D]. split; congruence. Qed.

Lemma spawnObstacle_sameSegments (ph : GamePhase) (em : bool) (g : Segment)
  (t : Track) :
  sameSegments t (snd (spawnObstacle ph em g t)).
Proof.
  destruct em; [split; reflexivity|].
  destruct (spawnObstacle_spec ph g t) as (o & k & _ & A & B & _).
  split; assumption.
Qed.

Lemma times_sameSegments (n : nat) (body : Gen unit) :
  (forall t, sameSegments t (snd (body t))) ->
  forall t, sameSegments t (snd (times n body t)).
Proof.
  intros Hbody. induction n as [| n IH]; intro t; simpl.
  - split; reflexivity.
  - unfold bind. specialize (Hbody t). destruct (body t) as [u t1].
    simpl in Hbody. eapply sameSegments_trans; [exact Hbody | apply IH].
Qed.

Lemma spawnCount_sameSegments (t : Track) :
  sameSegments t (snd (spawnCount t)).
Proof.
  unfold spawnCount, bind, Math_random, ret.
  destruct (ltQ _ 0.9); split; reflexivity.
Qed.

(** [spawnSegment] appends exactly one group, at [-zPos]. *)
Lemma spawnSegment_segments (ph : GamePhase) (em : bool) (zPos : Q)
  (t : Track) :
  exists g,
    segmentsRef (snd (spawnSegment ph em zPos t)) = segmentsRef t ++ [g]
    /\ positionZ g = (- zPos)%Q
    /\ detached (snd (spawnSegment ph em zPos t)) = detached t.
Proof.
  unfold spawnSegment, bind, newGroup.
  set (g := {| segId := nextId t; positionZ := (- zPos)%Q |}).
  set (t0 := {| segmentsRef := segmentsRef t; detached := detached t;
                obstaclesRef := obstaclesRef t; nextId := S (nextId t);
                rng := rng t; randomCalls := randomCalls t |}).
  exists g. destruct em; [repeat split|].
  pose proof (spawnCount_sameSegments t0) as H1.
  destruct (spawnCount t0) as [n t1]. simpl in H1.
  pose proof (times_sameSegments n (spawnObstacle ph false g)
                (spawnObstacle_sameSegments ph false g) t1) as H2.
  destruct (times n (spawnObstacle ph false g) t1) as [u t2]. simpl in H2.
  destruct H1 as [A1 B1], H2 as [A2 B2]. simpl.
  rewrite A2, A1, B2, B1. repeat split.
Qed.

Lemma spawnAll_length (ph : GamePhase) (em : bool) (idxs : list Z)
  (t : Track) :
  length (segmentsRef (snd (spawnAll ph em idxs t))) =
  (length (segmentsRef t) + length idxs)%nat.
Proof.
  revert t. induction idxs as [| i rest IH]; intro t; simpl.
  - lia.
  - unfold bind.
    destruct (spawnSegment_segments ph em (inject_Z i * SEGMENT_LENGTH) t)
      as (g & Hg & _).
    destruct (spawnSegment ph em (inject_Z i * SEGMENT_LENGTH) t) as [u t1].
    simpl in Hg. rewrite IH, Hg, length_app. simpl. lia.
Qed.

(** After a reset of a mounted component there are forty segments. *)
Lemma resetGame_segments (b : bool) (st : Store) :
  worldGroupRef st = true ->
  length (segmentsRef (track (resetGame b st))) = 40%nat.
Proof.
  intro H. unfold resetGame. cbv zeta. cbn [track]. rewrite H.
  rewrite spawnAll_length. reflexivity.
Qed.

Lemma lastSegment_map (dist : Q) (l : list Segment) :
  lastSegment (map (moveSegment dist) l) =
  option_map (moveSegment dist) (lastSegment l).
Proof.
  induction l as [| a [| b rest] IH]; try reflexivity.
  change (lastSegment (map (moveSegment dist) (a :: b :: rest)))
    with (lastSegment (map (moveSegment dist) (b :: rest))).
  rewrite IH. reflexivity.
Qed.

Lemma lastSegment_nonempty (a : Segment) (l : list Segment) :
  exists x, lastSegment (a :: l) = Some x.
Proof.
  revert a. induction l as [| b rest IH]; intro a.
  - exists a. reflexivity.
  - destruct (IH b) as [x Hx]. exists x. exact Hx.
Qed.

(** What the segment block does to a window of at least two segments: when
    the first segment, moved, is beyond 100 it is shifted out and one segment
    is appended one segment length before the last one; otherwise the segments
    only move. *)
Lemma loopSegments_spec (ph : GamePhase) (em : bool) (dist : Q) (t : Track)
  (first second : Segment) (rest : list Segment) :
  segmentsRef t = first :: second :: rest ->
  let t' := loopSegments ph em dist t in
  (gtQ (positionZ first + dist) 100 = true ->
   exists g l,
     lastSegment (second :: rest) = Some l
     /\ segmentsRef t' = map (moveSegment dist) (second :: rest) ++ [g]
     /\ positionZ g = (- (- (positionZ l + dist) + SEGMENT_LENGTH))%Q
     /\ detached t' = detached t ++ [moveSegment dist first])
  /\ (gtQ (positionZ first + dist) 100 = false ->
      segmentsRef t' = map (moveSegment dist) (first :: second :: rest)
      /\ detached t' = detached t).
Proof.
  intros Hs t'. unfold t', loopSegments. rewrite Hs.
  change (map (moveSegment dist) (first :: second :: rest))
    with (moveSegment dist first :: map (moveSegment dist) (second :: rest)).
  cbv beta iota.
  change (positionZ (moveSegment dist first)) with (positionZ first + dist)%Q.
  split; intro Hc; rewrite Hc.
  - rewrite lastSegment_map.
    destruct (lastSegment_nonempty second rest) as [l Hl]. rewrite Hl.
    simpl option_map. cbv iota.
    match goal with
    | |- context [spawnSegment ph em ?z ?t0] =>
        destruct (spawnSegment_segments ph em z t0) as (g & Hg & Hz & Hd)
    end.
    exists g, l. repeat split; assumption.
  - split; reflexivity.
Qed.

Lemma loopSegments_length (ph : GamePhase) (em : bool) (dist : Q) (t : Track) :
  (2 <= length (segmentsRef t))%nat ->
  length (segmentsRef (loopSegments ph em dist t)) = length (segmentsRef t).
Proof.
  intro H. destruct (segmentsRef t) as [| a [| b rest]] eqn:E;
    simpl in H; try lia.
  destruct (loopSegments_spec ph em dist t a b rest E) as [Hshift Hkeep].
  destruct (gtQ (positionZ a + dist) 100) eqn:C.
  - destruct (Hshift eq_refl) as (g & l & _ & Hg & _). rewrite Hg.
    rewrite length_app, length_map. simpl. lia.
  - destruct (Hkeep eq_refl) as [Hg _]. rewrite Hg, length_map. reflexivity.
Qed.

Lemma step_segments (delta : Q) (st : Store) :
  segmentsRef (track (step delta st)) =
  match gameStateRef st with
  | PLAYING =>
      segmentsRef
        (loopSegments (phaseRef st) (emptyModeRef st)
           (SPEED_BASE * (delta * speedMultRef (session st)))%Q (track st))
  | _ => segmentsRef (track st)
  end.
Proof.
  unfold step. cbv zeta. destruct (gameStateRef st); try reflexivity.
  match goal with
  | |- context [forEachObstacle ?f ?s ?obs] =>
      destruct (forEachObstacle f s obs)
  end.
  reflexivity.
Qed.

Lemma step_detached (delta : Q) (st : Store) :
  detached (track (step delta st)) =
  match gameStateRef st with
  | PLAYING =>
      detached
        (loopSegments (phaseRef st) (emptyModeRef st)
           (SPEED_BASE * (delta * speedMultRef (session st)))%Q (track st))
  | _ => detached (track st)
  end.
Proof.
  unfold step. cbv zeta. destruct (gameStateRef st); try reflexivity.
  match goal with
  | |- context [forEachObstacle ?f ?s ?obs] =>
      destruct (forEachObstacle f s obs)
  end.
  reflexivity.
Qed.

Lemma step_worldGroup (delta : Q) (st : Store) :
  worldGroupRef (step delta st) = worldGroupRef st.
Proof.
  unfold step. cbv zeta. destruct (gameStateRef st); try reflexivity.
  match goal with
  | |- context [forEachObstacle ?f ?s ?obs] =>
      destruct (forEachObstacle f s obs)
  end.
  reflexivity.
Qed.

Lemma resetGame_windowInv (b : bool) (st : Store) :
  worldGroupRef st = true -> windowInv (resetGame b st).
Proof.
  intro H. split; [exact H | apply resetGame_segments; exact H].
Qed.

Lemma perform_windowInv (a : Action) (st : Store) :
  windowInv st -> windowInv (perform a st).
Proof.
  intros [HW HL]. destruct a; unfold perform.
  - unfold tick. destruct (gameStateRef st) eqn:G;
      try (split; assumption);
      (split; [rewrite step_worldGroup; exact HW|]);
      rewrite step_segments, G; try exact HL.
    rewrite loopSegments_length; [exact HL | lia].
  - split; assumption.
  - split; assumption.
  - unfold doJump. destruct (isJumping (player st)); split; assumption.
  - apply resetGame_windowInv. exact HW.
  - unfold nextLevel. apply resetGame_windowInv. exact HW.
  - split; assumption.
  - unfold syncDebugPhase. destruct (GamePhase_eqb ph (phaseRef st));
      [split; assumption | apply resetGame_windowInv; exact HW].
  - unfold syncEmptyMode. split; [exact HW|].
    destruct b; exact HL.
  - apply resetGame_windowInv. exact HW.
Qed.

Lemma run_windowInv (acts : list Action) (st : Store) :
  windowInv st -> windowInv (run acts st).
Proof.
  revert st. induction acts as [| a rest IH]; intros st H; [exact H|].
  simpl. apply IH. apply perform_windowInv. exact H.
Qed.

Lemma tick_segments_length (delta : Q) (st : Store) :
  (2 <= length (segmentsRef (track st)))%nat ->
  length (segmentsRef (track (tick delta st))) =
  length (segmentsRef (track st)).
Proof.
  intro H. unfold tick.
  destruct (gameStateRef st) eqn:G; try reflexivity;
    rewrite step_segments, G; try reflexivity.
  apply loopSegments_length. exact H.
Qed.

Lemma ticks_segments_length (deltas : list Q) (st : Store) :
  (2 <= length (segmentsRef (track st)))%nat ->
  length (segmentsRef (track (run (map Tick deltas) st))) =
  length (segmentsRef (track st)).
Proof.
  revert st. induction deltas as [| d rest IH]; intros st H; [reflexivity|].
  change (run (map Tick (d :: rest)) st)
    with (run (map Tick rest) (tick d st)).
  rewrite IH.
  - apply tick_segments_length. exact H.
  - rewrite tick_segments_length; exact H.
Qed.

(** C7.  A reset of the mounted component spawns forty segments, and after
    any actions that follow, frames included, there are still forty.  In a
    frame of a game that is being played the segments move by the distance
    run; when the first segment is then beyond 100 it leaves the array and
    exactly one segment is appended, one segment length in front of the last
    one; otherwise the array keeps its segments.  Whatever the number of
    segments a window starts with, two at least, frames keep it. *)
Theorem C7_segment_window (acts : list Action) (b : bool) (st : Store) :
  worldGroupRef st = true ->
  length (segmentsRef (track (resetGame b st))) = 40%nat
  /\ length (segmentsRef (track (run acts (resetGame b st)))) = 40%nat
  /\ (forall delta,
       let st1 := run acts (resetGame b st) in
       let dist := (SPEED_BASE * (delta * speedMultRef (session st1)))%Q in
       gameStateRef st1 = PLAYING ->
       exists first rest l,
         segmentsRef (track st1) = first :: rest
         /\ lastSegment rest = Some l
         /\ (gtQ (positionZ first + dist) 100 = true ->
             exists g,
               segmentsRef (track (tick delta st1)) =
               map (moveSegment dist) rest ++ [g]
               /\ positionZ g
                  = (- (- (positionZ l + dist) + SEGMENT_LENGTH))%Q
               /\ detached (track (tick delta st1)) =
                  detached (track st1) ++ [moveSegment dist first])
         /\ (gtQ (positionZ first + dist) 100 = false ->
             segmentsRef (track (tick delta st1)) =
             map (moveSegment dist) (first :: rest)))
  /\ (forall (st0 : Store) (deltas : list Q),
        (2 <= length (segmentsRef (track st0)))%nat ->
        length (segmentsRef (track (run (map Tick deltas) st0))) =
        length (segmentsRef (track st0))).
Proof.
  intro HW.
  pose proof (resetGame_windowInv b st HW) as H0.
  pose proof (run_windowInv acts _ H0) as [HW1 HL1].
  split; [apply H0|]. split; [exact HL1|].
  split; [| intros st0 deltas; apply ticks_segments_length].
  intros delta st1 dist HP. fold st1 in HL1.
  assert (HT : tick delta st1 = step delta st1)
    by (unfold tick; rewrite HP; reflexivity).
  rewrite HT.
  destruct (segmentsRef (track st1)) as [| first [| second rest]] eqn:E;
    simpl in HL1; try lia.
  destruct (lastSegment_nonempty second rest) as [l Hl].
  exists first, (second :: rest), l.
  split; [reflexivity|]. split; [exact Hl|].
  destruct (loopSegments_spec (phaseRef st1) (emptyModeRef st1) dist
              (track st1) first second rest E) as [Hshift Hkeep].
  split; intro Hc.
  - destruct (Hshift Hc) as (g & l' & Hl' & Hg & Hz & Hd).
    assert (l' = l) by congruence. subst l'.
    exists g. rewrite step_segments, step_detached, HP.
    fold dist. repeat split; assumption.
  - destruct (Hkeep Hc) as [Hg _].
    rewrite step_segments, HP. fold dist. exact Hg.
Qed.

Lemma C7_segment_window_witness :
  worldGroupRef (mounted rngTwins) = true
  /\ gameStateRef beforeRecycle = PLAYING
  /\ length (segmentsRef (track (tick 0.0625 beforeRecycle))) = 40%nat
  /\ exists first rest g,
       segmentsRef (track beforeRecycle) = first :: rest
       /\ (positionZ first == 100)%Q
       /\ segmentsRef (track (tick 0.0625 beforeRecycle)) =
          map (moveSegment
                 (SPEED_BASE
                  * (0.0625 * speedMultRef (session beforeRecycle))))
            rest ++ [g]
       /\ (positionZ g == -219)%Q
       /\ detached (track (tick 0.0625 beforeRecycle)) =
          detached (track beforeRecycle)
          ++ [moveSegment
                (SPEED_BASE
                 * (0.0625 * speedMultRef (session beforeRecycle)))
                first].
Proof.
  split; [reflexivity|].
  unfold beforeRecycle.
  pose proof (C7_segment_window
                (PropGameState PLAYING :: repeat (Tick 0.0625) 20)
                true (mounted rngTwins) eq_refl) as (_ & L & H & _).
  set (st := run (PropGameState PLAYING :: repeat (Tick 0.0625) 20)
               (resetGame true (mounted rngTwins))) in *.
  assert (P : gameStateRef st = PLAYING) by (vm_compute; reflexivity).
  assert (Z : match segmentsRef (track st) with
              | first :: _ => Qeq_bool (positionZ first) 100
              | [] => false
              end = true) by (vm_compute; reflexivity).
  assert (Zl : match lastSegment (segmentsRef (track st)) with
               | Some l => Qeq_bool (positionZ l) (-212)
               | None => false
               end = true) by (vm_compute; reflexivity).
  assert (M : Qeq_bool (speedMultRef (session st)) 1 = true)
    by (vm_compute; reflexivity).
  clearbody st.
  apply Qeq_bool_iff in M.
  destruct (H 0.0625%Q P) as (first & rest & l & E & El & Yes & _).
  rewrite E in Z, Zl, L.
  apply Qeq_bool_iff in Z.
  assert (Ll : lastSegment (first :: rest) = Some l).
  { destruct rest as [| x r]; [discriminate El | exact El]. }
  rewrite Ll in Zl. apply Qeq_bool_iff in Zl.
  assert (G : gtQ (positionZ first
                   + SPEED_BASE * (0.0625 * speedMultRef (session st)))
                100 = true).
  { apply gtQ_true. rewrite Z, M. reflexivity. }
  destruct (Yes G) as (g & Sg & Zg & Dg).
  split; [exact P|].
  split.
  { rewrite Sg, length_app, length_map. cbn [length] in L |- *. lia. }
  exists first, rest, g.
  split; [exact E|]. split; [exact Z|]. split; [exact Sg|].
  split; [|exact Dg].
  rewrite Zg, Zl, M. reflexivity.
Defined.

Lemma C8_lane_change_witness :
  (1 = 1 \/ 1 = -1)
  /\ targetLane
       (player (changeLane (-1)
                  (changeLane 1
                     (run [MoveLeft] (newGame rngTwins))))) = 11.
Proof.
  split; [left; reflexivity|].
  destruct (C8_lane_change (run [MoveLeft] (newGame rngTwins)) 1
              (or_introl eq_refl)) as [_ H].
  assert (Hph : phaseRef (run [MoveLeft] (newGame rngTwins)) <> FLAT)
    by (vm_compute; discriminate).
  assert (HL : 0 <= targetLane (player (run [MoveLeft] (newGame rngTwins)))
               < 12)
    by (vm_compute; split; [discriminate | reflexivity]).
  destruct (H Hph HL) as [_ B]. rewrite B. vm_compute. reflexivity.
Defined.

(** ** The loops of [lerpCyclic] *)

Lemma whileAbove_exit (fuel : nat) (diff max : Q) :
  (0 < max)%Q ->
  (diff <= max / 2 + inject_Z (Z.of_nat fuel) * max)%Q ->
  gtQ (whileAbove fuel diff max) (max / 2) = false.
Proof.
  intro Hmax. revert diff. induction fuel as [| fuel IH]; intros diff H.
  - simpl. apply gtQ_false.
    change (inject_Z (Z.of_nat 0)) with 0%Q in H. lra.
  - simpl. destruct (gtQ diff (max / 2)) eqn:E; [| exact E].
    apply IH. rewrite Nat2Z.inj_succ in H. unfold Z.succ in H.
    rewrite inject_Z_plus in H.
    change (inject_Z 1) with 1%Q in H.
    set (p := (inject_Z (Z.of_nat fuel) * max)%Q).
    assert (D : ((inject_Z (Z.of_nat fuel) + 1) * max == p + max)%Q)
      by (unfold p; ring).
    rewrite D in H. lra.
Qed.

Lemma whileBelow_exit (fuel : nat) (diff max : Q) :
  (0 < max)%Q ->
  (- max / 2 - inject_Z (Z.of_nat fuel) * max <= diff)%Q ->
  ltQ (whileBelow fuel diff max) (- max / 2) = false.
Proof.
  intro Hmax. revert diff. induction fuel as [| fuel IH]; intros diff H.
  - simpl. apply ltQ_false.
    change (inject_Z (Z.of_nat 0)) with 0%Q in H. lra.
  - simpl. destruct (ltQ diff (- max / 2)) eqn:E; [| exact E].
    apply IH. rewrite Nat2Z.inj_succ in H. unfold Z.succ in H.
    rewrite inject_Z_plus in H.
    change (inject_Z 1) with 1%Q in H.
    set (p := (inject_Z (Z.of_nat fuel) * max)%Q).
    assert (D : ((inject_Z (Z.of_nat fuel) + 1) * max == p + max)%Q)
      by (unfold p; ring).
    rewrite D in H. lra.
Qed.

Lemma loopFuel_bound (diff max : Q) :
  (0 < max)%Q ->
  (Qabs diff <= inject_Z (Z.of_nat (loopFuel diff max)) * max)%Q.
Proof.
  intro Hmax. unfold loopFuel.
  set (c := Qceiling (Qabs diff / max)).
  assert (Hq : (0 <= Qabs diff / max)%Q).
  { apply Qle_shift_div_l; [exact Hmax|].
    rewrite Qmult_0_l. apply Qabs_nonneg. }
  assert (Hc : 0 <= c).
  { unfold c. rewrite Zle_Qle. eapply Qle_trans; [exact Hq|].
    apply Qle_ceiling. }
  rewrite Nat2Z.inj_succ, Z2Nat.id by exact Hc. unfold Z.succ.
  rewrite inject_Z_plus. change (inject_Z 1) with 1%Q.
  assert (Hd : (Qabs diff == Qabs diff / max * max)%Q)
    by (field; intro Hz; rewrite Hz in Hmax; exact (Qlt_irrefl 0 Hmax)).
  assert (He : (Qabs diff / max * max <= inject_Z c * max)%Q).
  { apply Qmult_le_compat_r; [apply Qle_ceiling | apply Qlt_le_weak, Hmax]. }
  set (p := (inject_Z c * max)%Q) in *.
  assert (D : ((inject_Z c + 1) * max == p + max)%Q) by (unfold p; ring).
  rewrite D. rewrite Hd at 1. lra.
Qed.

(** With a positive period, both loops of [lerpCyclic] end because their
    condition fails, not because the rounds are used up. *)
Lemma lerpCyclic_loops_exit (current target max : Q) :
  (0 < max)%Q ->
  let diff := (target - current)%Q in
  let d1 := whileAbove (loopFuel diff max) diff max in
  let d2 := whileBelow (loopFuel d1 max) d1 max in
  gtQ d1 (max / 2) = false /\ ltQ d2 (- max / 2) = false.
Proof.
  intros Hmax diff d1 d2.
  assert (Hhalf : (0 < max / 2)%Q) by (apply Qlt_shift_div_l; lra).
  assert (Hneg : (- max / 2 < 0)%Q) by (apply Qlt_shift_div_r; lra).
  split.
  - apply whileAbove_exit; [exact Hmax|].
    apply (Qle_trans _ _ _ (Qle_Qabs diff)).
    apply (Qle_trans _ _ _ (loopFuel_bound diff max Hmax)).
    generalize (inject_Z (Z.of_nat (loopFuel diff max)) * max)%Q.
    intro p. clear - Hhalf. lra.
  - apply whileBelow_exit; [exact Hmax|].
    pose proof (loopFuel_bound d1 max Hmax) as B.
    pose proof (Qle_Qabs (- d1)) as A. rewrite Qabs_opp in A.
    revert A B. generalize (Qabs d1).
    generalize (inject_Z (Z.of_nat (loopFuel d1 max)) * max)%Q.
    generalize d1. intros x p a A B. clear - Hneg A B. lra.
Qed.

(** * Further properties of the component *)

(** ** The parts of a frame *)

Lemma step_playing (delta : Q) (st : Store) :
  gameStateRef st = PLAYING ->
  step delta st =
  let r := forEachObstacle (frameOf delta st) (frameSession delta st)
             (obstaclesRef (frameTrack delta st)) in
  {| track := setObstacles (snd r) (frameTrack delta st);
     player := framePlayer delta st;
     session := fst r;
     timeRef := (timeRef st - delta)%Q;
     phaseRef := phaseRef st;
     levelRef := levelRef st;
     gameStateRef := gameStateRef st;
     gameTimeRef := (gameTimeRef st + frameDt delta st)%Q;
     lastTimeRef := lastTimeRef st;
     emptyModeRef := emptyModeRef st;
     worldGroupRef := worldGroupRef st |}.
Proof.
  intro G. unfold step. cbv zeta. rewrite G.
  unfold frameOf, frameSession, frameTrack, framePlayer, frameDt. cbv zeta.
  match goal with
  | |- context [forEachObstacle ?f ?s ?obs] =>
      destruct (forEachObstacle f s obs)
  end.
  reflexivity.
Qed.

Lemma step_idle (delta : Q) (st : Store) :
  gameStateRef st <> PLAYING ->
  step delta st =
  {| track := track st; player := player st;
     session := speedTimer delta (session st);
     timeRef := timeRef st; phaseRef := phaseRef st;
     levelRef := levelRef st; gameStateRef := gameStateRef st;
     gameTimeRef := (gameTimeRef st + frameDt delta st)%Q;
     lastTimeRef := lastTimeRef st; emptyModeRef := emptyModeRef st;
     worldGroupRef := worldGroupRef st |}.
Proof.
  intro G. unfold step. cbv zeta.
  destruct (gameStateRef st); try reflexivity. congruence.
Qed.

Lemma tick_playing (delta : Q) (st : Store) :
  gameStateRef st = PLAYING -> tick delta st = step delta st.
Proof. intro G. unfold tick. rewrite G. reflexivity. Qed.

Lemma tick_gameState (delta : Q) (st : Store) :
  gameStateRef (tick delta st) = gameStateRef st.
Proof.
  unfold tick. destruct (gameStateRef st) eqn:G; try exact G;
    try (rewrite step_idle by congruence; exact G).
  rewrite step_playing by exact G. exact G.
Qed.

Lemma tick_phase (delta : Q) (st : Store) :
  phaseRef (tick delta st) = phaseRef st.
Proof.
  unfold tick. destruct (gameStateRef st) eqn:G; try reflexivity;
    try (rewrite step_idle by congruence; reflexivity).
  rewrite step_playing by exact G. reflexivity.
Qed.

Lemma tick_worldGroup (delta : Q) (st : Store) :
  worldGroupRef (tick delta st) = worldGroupRef st.
Proof.
  unfold tick. destruct (gameStateRef st); try reflexivity;
    apply step_worldGroup.
Qed.

Lemma tick_emptyMode (delta : Q) (st : Store) :
  emptyModeRef (tick delta st) = emptyModeRef st.
Proof.
  unfold tick. destruct (gameStateRef st) eqn:G; try reflexivity;
    try (rewrite step_idle by congruence; reflexivity).
  rewrite step_playing by exact G. reflexivity.
Qed.

Lemma easeLane_fields (ph : GamePhase) (dt : Q) (p : Player) :
  targetLane (easeLane ph dt p) = targetLane p
  /\ isJumping (easeLane ph dt p) = isJumping p
  /\ jumpHeight (easeLane ph dt p) = jumpHeight p
  /\ playerVelY (easeLane ph dt p) = playerVelY p.
Proof. destruct ph; repeat split. Qed.

Lemma jumpPhysics_target (dt : Q) (p : Player) :
  targetLane (jumpPhysics dt p) = targetLane p.
Proof.
  unfold jumpPhysics. destruct (isJumping p); [|reflexivity].
  destruct (leQ _ 0); reflexivity.
Qed.

Lemma tick_target (delta : Q) (st : Store) :
  targetLane (player (tick delta st)) = targetLane (player st).
Proof.
  unfold tick. destruct (gameStateRef st) eqn:G; try reflexivity;
    try (rewrite step_idle by congruence; reflexivity).
  rewrite step_playing by exact G. cbv zeta. simpl player.
  unfold framePlayer. rewrite jumpPhysics_target.
  apply easeLane_fields.
Qed.

(** ** Levels *)

(** X1.  [nextLevel] moves the phase one step along ROUND, TUNNEL_GLOWING,
    TUNNEL_CLEAN, FLAT and back to ROUND, so four levels later the phase is
    the same and the level is four higher; it keeps the score and the health
    and puts the player back in lane 0 on the ground with 60 seconds on the
    clock and the speed multiplier at 1. *)
Theorem X1_next_level_cycle (st : Store) :
  phaseRef (nextLevel st) = nextPhase (phaseRef st)
  /\ phaseRef (iterate 4 nextLevel st) = phaseRef st
  /\ levelRef (iterate 4 nextLevel st) = levelRef st + 4
  /\ healthRef (session (nextLevel st)) = healthRef (session st)
  /\ scoreRef (session (nextLevel st)) = scoreRef (session st)
  /\ speedMultRef (session (nextLevel st)) = 1.0%Q
  /\ timeRef (nextLevel st) = PHASE_DURATION
  /\ targetLane (player (nextLevel st)) = 0
  /\ currentLane (player (nextLevel st)) = 0%Q
  /\ isJumping (player (nextLevel st)) = false.
Proof.
  assert (P : forall s, phaseRef (nextLevel s) = nextPhase (phaseRef s))
    by reflexivity.
  assert (L : forall s, levelRef (nextLevel s) = levelRef s + 1)
    by reflexivity.
  split; [apply P|]. split.
  { simpl iterate. rewrite !P. destruct (phaseRef st); reflexivity. }
  split.
  { simpl iterate. rewrite !L. lia. }
  repeat split.
Qed.

(** ** The target lane *)

Lemma nextTargetLane_range (ph : GamePhase) (t dir : Z) :
  match ph with
  | FLAT => -3 <= nextTargetLane ph t dir <= 3
  | _ => 0 <= nextTargetLane ph t dir <= 11
  end.
Proof.
  destruct ph; unfold nextTargetLane, LANE_COUNT_ROUND; cbv zeta;
    change (- (3)) with (-3).
  - destruct (Z.ltb_spec (t + dir) (-3)).
    + change (-3 >? 3) with false. cbv iota. lia.
    + rewrite Z.gtb_ltb. destruct (Z.ltb_spec 3 (t + dir)); lia.
  - destruct (Z.ltb_spec (t + dir) 0).
    + change (12 - 1 >=? 12) with false. cbv iota. lia.
    + rewrite Z.geb_leb. destruct (Z.leb_spec 12 (t + dir)); lia.
  - destruct (Z.ltb_spec (t + dir) 0).
    + change (12 - 1 >=? 12) with false. cbv iota. lia.
    + rewrite Z.geb_leb. destruct (Z.leb_spec 12 (t + dir)); lia.
  - destruct (Z.ltb_spec (t + dir) 0).
    + change (12 - 1 >=? 12) with false. cbv iota. lia.
    + rewrite Z.geb_leb. destruct (Z.leb_spec 12 (t + dir)); lia.
Qed.

Lemma resetGame_laneInv (b : bool) (st : Store) : laneInv (resetGame b st).
Proof.
  unfold laneInv.
  change (targetLane (player (resetGame b st))) with 0.
  destruct (phaseRef (resetGame b st)); lia.
Qed.

Lemma perform_laneInv (a : Action) (st : Store) :
  laneInv st -> laneInv (perform a st).
Proof.
  intro H. destruct a; unfold perform.
  - unfold laneInv. rewrite tick_phase, tick_target. exact H.
  - unfold laneInv. rewrite changeLane_target, changeLane_phase.
    apply nextTargetLane_range.
  - unfold laneInv. rewrite changeLane_target, changeLane_phase.
    apply nextTargetLane_range.
  - unfold doJump. destruct (isJumping (player st)); exact H.
  - apply resetGame_laneInv.
  - unfold nextLevel. apply resetGame_laneInv.
  - exact H.
  - unfold syncDebugPhase. destruct (GamePhase_eqb ph (phaseRef st));
      [exact H | apply resetGame_laneInv].
  - exact H.
  - apply resetGame_laneInv.
Qed.

(** X2.  Whatever the parent does to a mounted component, the target lane is
    a lane of the current phase: -3..3 in the FLAT phase and 0..11 in the
    others.  A lane change lands in the range from any lane, and every
    change of phase goes through a reset that puts the target lane at 0. *)
Theorem X2_target_lane_valid (rng : nat -> Q) (acts : list Action) :
  laneInv (run acts (mounted rng))
  /\ (forall st dir, laneInv (changeLane dir st))
  /\ (forall st b, targetLane (player (resetGame b st)) = 0)
  /\ (forall st a, phaseRef (perform a st) <> phaseRef st ->
                   targetLane (player (perform a st)) = 0).
Proof.
  split.
  { assert (G : forall st, laneInv st -> laneInv (run acts st)).
    { induction acts as [| a rest IH]; intros st H; [exact H|].
      simpl. apply IH. apply perform_laneInv. exact H. }
    apply G. unfold mounted, laneInv.
    change (targetLane (player (createWorld (resetGame false (initialRefs rng)))))
      with 0.
    change (phaseRef (createWorld (resetGame false (initialRefs rng))))
      with ROUND. cbv iota. lia. }
  split.
  { intros st dir. unfold laneInv.
    rewrite changeLane_target, changeLane_phase. apply nextTargetLane_range. }
  split; [reflexivity|].
  intros st a H. destruct a; unfold perform in *; try reflexivity.
  - exfalso. apply H. apply tick_phase.
  - exfalso. apply H. reflexivity.
  - exfalso. apply H. reflexivity.
  - exfalso. apply H. unfold doJump.
    destruct (isJumping (player st)); reflexivity.
  - exfalso. apply H. reflexivity.
  - unfold syncDebugPhase in *.
    destruct (GamePhase_eqb ph (phaseRef st)); [|reflexivity].
    exfalso. apply H. reflexivity.
  - exfalso. apply H. reflexivity.
Qed.

(** ** Jumps *)

Lemma jumpPhysics_jumpInv (dt : Q) (p : Player) :
  jumpInv p -> jumpInv (jumpPhysics dt p).
Proof.
  intros H. pose proof H as [H0 HG]. unfold jumpPhysics.
  destruct (isJumping p) eqn:J; [| exact H].
  destruct (leQ (jumpHeight p + playerVelY p * dt) 0) eqn:E.
  - split; [apply Qle_refl | intros _; split; reflexivity].
  - split; [| discriminate]. simpl.
    apply Qlt_le_weak. apply ltQ_true. unfold ltQ. unfold leQ in E.
    rewrite E. reflexivity.
Qed.

Lemma easeLane_jumpInv (ph : GamePhase) (dt : Q) (p : Player) :
  jumpInv p -> jumpInv (easeLane ph dt p).
Proof.
  unfold jumpInv. destruct (easeLane_fields ph dt p) as (_ & A & B & C).
  rewrite A, B, C. exact (fun H => H).
Qed.

Lemma tick_jumpInv (delta : Q) (st : Store) :
  jumpInv (player st) -> jumpInv (player (tick delta st)).
Proof.
  intro H. unfold tick.
  destruct (gameStateRef st) eqn:G; try exact H;
    try (rewrite step_idle by congruence; exact H).
  rewrite step_playing by exact G. cbv zeta. simpl player.
  apply jumpPhysics_jumpInv, easeLane_jumpInv. exact H.
Qed.

Lemma resetGame_jumpInv (b : bool) (st : Store) :
  worldGroupRef st = true -> jumpInv (player (resetGame b st)).
Proof.
  intro W. unfold resetGame. cbv zeta. simpl player. rewrite W.
  split; [apply Qle_refl | intros _; split; reflexivity].
Qed.

Lemma perform_worldGroup (a : Action) (st : Store) :
  worldGroupRef (perform a st) = worldGroupRef st.
Proof.
  destruct a; unfold perform; try reflexivity.
  - apply tick_worldGroup.
  - unfold doJump. destruct (isJumping (player st)); reflexivity.
  - unfold syncDebugPhase. destruct (GamePhase_eqb ph (phaseRef st));
      reflexivity.
Qed.

Lemma perform_jumpInv (a : Action) (st : Store) :
  worldGroupRef st = true -> jumpInv (player st) ->
  jumpInv (player (perform a st)).
Proof.
  intros W H. destruct a; unfold perform; try exact H.
  - apply tick_jumpInv. exact H.
  - unfold doJump. destruct (isJumping (player st)) eqn:J; [exact H|].
    split; [apply H | discriminate].
  - apply resetGame_jumpInv. exact W.
  - unfold nextLevel. apply resetGame_jumpInv. exact W.
  - unfold syncDebugPhase. destruct (GamePhase_eqb ph (phaseRef st));
      [exact H | apply resetGame_jumpInv; exact W].
  - apply resetGame_jumpInv. exact W.
Qed.

Lemma run_jumpInv (acts : list Action) (st : Store) :
  worldGroupRef st = true -> jumpInv (player st) ->
  jumpInv (player (run acts st)).
Proof.
  revert st. induction acts as [| a rest IH]; intros st W H; [exact H|].
  simpl. apply IH.
  - rewrite perform_worldGroup. exact W.
  - apply perform_jumpInv; assumption.
Qed.

Lemma mounted_jumpInv (rng : nat -> Q) : jumpInv (player (mounted rng)).
Proof.
  unfold mounted, createWorld, resetGame. cbv zeta. simpl player.
  split; [apply Qle_refl | intros _; split; reflexivity].
Qed.

(** X3.  Whatever the parent does to a mounted component, the jump height is
    never negative and a player on the ground has height 0 and no vertical
    speed; so the height can exceed the clearance height 1.5 only while the
    player is airborne, and a jump request in the air changes nothing. *)
Theorem X3_jump_state (rng : nat -> Q) (acts : list Action) :
  let st := run acts (mounted rng) in
  (0 <= jumpHeight (player st))%Q
  /\ (isJumping (player st) = false ->
      jumpHeight (player st) = 0%Q /\ playerVelY (player st) = 0%Q)
  /\ (gtQ (jumpHeight (player st)) 1.5 = true -> isJumping (player st) = true)
  /\ (isJumping (player st) = true -> doJump st = st)
  /\ (isJumping (player st) = false ->
      isJumping (player (doJump st)) = true
      /\ playerVelY (player (doJump st)) = JUMP_FORCE
      /\ jumpHeight (player (doJump st)) = 0%Q).
Proof.
  intro st.
  assert (H : jumpInv (player st))
    by (apply run_jumpInv; [reflexivity | apply mounted_jumpInv]).
  destruct H as [H0 HG].
  split; [exact H0|]. split; [exact HG|]. split.
  { intro C. destruct (isJumping (player st)) eqn:J; [reflexivity|].
    destruct (HG eq_refl) as [Hh _]. rewrite Hh in C. discriminate. }
  split.
  { intro J. unfold doJump. rewrite J. reflexivity. }
  intro J. unfold doJump. rewrite J. simpl.
  repeat split. apply HG. exact J.
Qed.

(** ** The speed multiplier *)

Lemma speedTimer_speedInv (delta : Q) (s : Session) :
  speedInv s -> speedInv (speedTimer delta s).
Proof.
  intro H. unfold speedTimer.
  destruct (gtQ (speedTimerRef s) 0) eqn:T; [| exact H].
  destruct (leQ (speedTimerRef s - delta) 0) eqn:E.
  - left. reflexivity.
  - destruct H as [H | [H _]].
    + left. exact H.
    + right. split; [exact H|]. simpl.
      apply ltQ_true. unfold ltQ. unfold leQ in E. rewrite E. reflexivity.
Qed.

Lemma resolve_speedInv (ty : ObstacleType) (s : Session) :
  speedInv s -> speedInv (resolve ty s).
Proof.
  intro H. unfold resolve. cbv zeta.
  assert (A : speedInv (applyHit ty s)).
  { destruct ty; try exact H. right. split; [reflexivity|]. simpl. lra. }
  destruct (healthRef (applyHit ty s) <=? 0); exact A.
Qed.

Lemma forEachObstacle_speedInv (f : Frame) (s : Session)
  (obs : list ObstacleData) :
  speedInv s -> speedInv (fst (forEachObstacle f s obs)).
Proof.
  revert s. induction obs as [| o rest IH]; intros s H; simpl; [exact H|].
  assert (H1 : speedInv (fst (obstacleCallback f s o))).
  { destruct (hits f o) eqn:E.
    - rewrite (obstacleCallback_hits f s o E). apply resolve_speedInv, H.
    - rewrite (obstacleCallback_misses f s o E). exact H. }
  destruct (obstacleCallback f s o) as [s1 o1].
  specialize (IH s1 H1). destruct (forEachObstacle f s1 rest) as [s2 rest'].
  exact IH.
Qed.

Lemma frameSession_speedInv (delta : Q) (st : Store) :
  speedInv (session st) -> speedInv (frameSession delta st).
Proof.
  intro H. unfold frameSession. cbv zeta.
  pose proof (speedTimer_speedInv delta _ H) as H1.
  destruct (leQ (timeRef st - delta) 0); exact H1.
Qed.

Lemma tick_speedInv (delta : Q) (st : Store) :
  speedInv (session st) -> speedInv (session (tick delta st)).
Proof.
  intro H. unfold tick.
  destruct (gameStateRef st) eqn:G; try exact H;
    try (rewrite step_idle by congruence; apply speedTimer_speedInv, H).
  rewrite step_playing by exact G. cbv zeta. simpl session.
  apply forEachObstacle_speedInv, frameSession_speedInv, H.
Qed.

Lemma resetGame_speedInv (b : bool) (st : Store) :
  speedInv (session (resetGame b st)).
Proof. left. unfold resetGame. cbv zeta. destruct b; reflexivity. Qed.

Lemma perform_speedInv (a : Action) (st : Store) :
  speedInv (session st) -> speedInv (session (perform a st)).
Proof.
  intro H. destruct a; unfold perform; try exact H.
  - apply tick_speedInv, H.
  - unfold doJump. destruct (isJumping (player st)); exact H.
  - apply resetGame_speedInv.
  - unfold nextLevel. apply resetGame_speedInv.
  - unfold syncDebugPhase. destruct (GamePhase_eqb ph (phaseRef st));
      [exact H | apply resetGame_speedInv].
  - apply resetGame_speedInv.
Qed.

Lemma run_speedInv (acts : list Action) (st : Store) :
  speedInv (session st) -> speedInv (session (run acts st)).
Proof.
  revert st. induction acts as [| a rest IH]; intros st H; [exact H|].
  simpl. apply IH. apply perform_speedInv. exact H.
Qed.

Lemma mounted_speedInv (rng : nat -> Q) : speedInv (session (mounted rng)).
Proof. left. reflexivity. Qed.

(** X4.  Whatever the parent does to a mounted component, the speed
    multiplier is 1.0 or 0.5, and it is 0.5 only while the speed timer is
    positive; a CLOCK resolution sets them to 0.5 and 5.0, and nothing else
    lowers the multiplier. *)
Theorem X4_speed_multiplier_values (rng : nat -> Q) (acts : list Action) :
  let s := session (run acts (mounted rng)) in
  (speedMultRef s = 1.0%Q
   \/ (speedMultRef s = 0.5%Q /\ (0 < speedTimerRef s)%Q))
  /\ (forall ty,
        speedMultRef (resolve ty s) =
        match ty with CLOCK_BLUE => 0.5%Q | _ => speedMultRef s end
        /\ speedTimerRef (resolve ty s) =
           match ty with CLOCK_BLUE => 5.0%Q | _ => speedTimerRef s end).
Proof.
  intro s. split.
  - apply run_speedInv, mounted_speedInv.
  - intro ty. unfold resolve. cbv zeta.
    destruct (healthRef (applyHit ty s) <=? 0); destruct ty; split;
      reflexivity.
Qed.

Lemma speedTimer_expired (delta : Q) (s : Session) :
  gtQ (speedTimerRef s) 0 = false -> speedTimer delta s = s.
Proof. intro H. unfold speedTimer. rewrite H. reflexivity. Qed.

Lemma elapse_expired (deltas : list Q) (s : Session) :
  gtQ (speedTimerRef s) 0 = false -> elapse deltas s = s.
Proof.
  intro H. induction deltas as [| d rest IH]; [reflexivity|].
  simpl. rewrite speedTimer_expired by exact H. exact IH.
Qed.

Lemma speedTimer_crossing (d : Q) (s : Session) :
  speedInv s -> (0 <= d)%Q ->
  (speedTimerRef (speedTimer d s) <= speedTimerRef s)%Q
  /\ ((0 < speedTimerRef (speedTimer d s))%Q ->
      speedMultRef (speedTimer d s) = speedMultRef s)
  /\ ((speedTimerRef (speedTimer d s) <= 0)%Q ->
      speedMultRef (speedTimer d s) = 1.0%Q).
Proof.
  intros Hinv Hd. unfold speedTimer.
  destruct (gtQ (speedTimerRef s) 0) eqn:T.
  - destruct (leQ (speedTimerRef s - d) 0) eqn:E; cbn.
    + unfold leQ in E. apply Qle_bool_iff in E.
      split; [lra|]. split; [intro H; lra | reflexivity].
    + assert (P : (0 < speedTimerRef s - d)%Q).
      { apply ltQ_true. unfold ltQ. unfold leQ in E. rewrite E.
        reflexivity. }
      split; [lra|]. split; [reflexivity | intro H; lra].
  - apply gtQ_false in T.
    split; [apply Qle_refl|]. split; [reflexivity|].
    intros _. destruct Hinv as [H | [_ H]]; [exact H | lra].
Qed.

Lemma elapse_crossing (deltas : list Q) (s : Session) :
  speedInv s ->
  (forall d, In d deltas -> (0 <= d)%Q) ->
  (speedTimerRef (elapse deltas s) <= speedTimerRef s)%Q
  /\ ((0 < speedTimerRef (elapse deltas s))%Q ->
      speedMultRef (elapse deltas s) = speedMultRef s)
  /\ ((speedTimerRef (elapse deltas s) <= 0)%Q ->
      speedMultRef (elapse deltas s) = 1.0%Q).
Proof.
  revert s. induction deltas as [| d rest IH]; intros s Hinv Hpos.
  - split; [apply Qle_refl|]. split; [reflexivity|].
    intro H. destruct Hinv as [E | [_ E]]; [exact E | cbn in H; lra].
  - assert (Hd : (0 <= d)%Q) by (apply Hpos; left; reflexivity).
    assert (Hrest : forall x, In x rest -> (0 <= x)%Q)
      by (intros x Hx; apply Hpos; right; exact Hx).
    destruct (speedTimer_crossing d s Hinv Hd) as (A1 & A2 & A3).
    destruct (IH (speedTimer d s) (speedTimer_speedInv d s Hinv) Hrest)
      as (B1 & B2 & B3).
    change (elapse (d :: rest) s) with (elapse rest (speedTimer d s)).
    split; [lra|]. split; [|exact B3].
    intro H. rewrite B2 by exact H. apply A2. lra.
Qed.

(** X5.  The speed timer and the multiplier it guards, by comparisons only
    (they hold of the doubles of the code as of exact numbers).  Over frames
    with deltas that are not negative, from a state in which the multiplier
    is 0.5 only with a positive timer: the timer never goes up; as long as
    it is still positive the multiplier is the one the frames started with;
    once it is at 0 or below the multiplier is 1.0, and from then on the
    block does nothing.  A frame brings a positive timer to 0 or below
    exactly when its delta is at least the time left. *)
Theorem X5_speed_timer_expiry (deltas : list Q) (s : Session) :
  speedInv s ->
  (forall d, In d deltas -> (0 <= d)%Q) ->
  (speedTimerRef (elapse deltas s) <= speedTimerRef s)%Q
  /\ ((0 < speedTimerRef (elapse deltas s))%Q ->
      speedMultRef (elapse deltas s) = speedMultRef s)
  /\ ((speedTimerRef (elapse deltas s) <= 0)%Q ->
      speedMultRef (elapse deltas s) = 1.0%Q)
  /\ (gtQ (speedTimerRef s) 0 = false -> elapse deltas s = s)
  /\ (forall more,
        (speedTimerRef (elapse deltas s) <= 0)%Q ->
        elapse (deltas ++ more) s = elapse deltas s)
  /\ (forall d,
        (0 < speedTimerRef s)%Q ->
        ((speedTimerRef s <= d)%Q
         <-> (speedTimerRef (speedTimer d s) <= 0)%Q)).
Proof.
  intros Hinv Hpos.
  destruct (elapse_crossing deltas s Hinv Hpos) as (A & B & C).
  split; [exact A|]. split; [exact B|]. split; [exact C|].
  split; [apply elapse_expired|].
  split.
  - intros more H. unfold elapse at 1. rewrite fold_left_app.
    apply elapse_expired. apply gtQ_false. exact H.
  - intros d T. unfold speedTimer.
    assert (T' : gtQ (speedTimerRef s) 0 = true) by (apply gtQ_true; exact T).
    rewrite T'. cbv zeta.
    destruct (leQ (speedTimerRef s - d) 0); cbn; split; intro H; lra.
Qed.

Lemma X5_speed_timer_expiry_witness :
  speedInv (resolve CLOCK_BLUE (session (mounted rngTwins)))
  /\ (forall d, In d (repeat 0.1%Q 60) -> (0 <= d)%Q)
  /\ speedMultRef (resolve CLOCK_BLUE (session (mounted rngTwins))) = 0.5%Q
  /\ speedMultRef
       (elapse (repeat 0.1%Q 60)
          (resolve CLOCK_BLUE (session (mounted rngTwins)))) = 1.0%Q.
Proof.
  assert (I : speedInv (resolve CLOCK_BLUE (session (mounted rngTwins))))
    by (right; split; reflexivity).
  assert (P : forall d, In d (repeat 0.1%Q 60) -> (0 <= d)%Q)
    by (intros d Hd; apply repeat_spec in Hd; subst d; discriminate).
  split; [exact I|]. split; [exact P|]. split; [reflexivity|].
  destruct (X5_speed_timer_expiry (repeat 0.1%Q 60)
              (resolve CLOCK_BLUE (session (mounted rngTwins))) I P)
    as (_ & _ & A & _).
  apply A. vm_compute. discriminate.
Defined.

(** ** Score and clock *)

Lemma speedTimer_fields (delta : Q) (s : Session) :
  scoreRef (speedTimer delta s) = scoreRef s
  /\ healthRef (speedTimer delta s) = healthRef s
  /\ events (speedTimer delta s) = events s
  /\ stateCalls (speedTimer delta s) = stateCalls s.
Proof.
  unfold speedTimer. destruct (gtQ (speedTimerRef s) 0); [| repeat split].
  destruct (leQ _ 0); repeat split.
Qed.

Lemma resolve_score (ty : ObstacleType) (s : Session) :
  scoreRef (resolve ty s) =
  match ty with SPEED_BOOST => (scoreRef s + 500)%Q | _ => scoreRef s end.
Proof.
  unfold resolve. cbv zeta.
  destruct (healthRef (applyHit ty s) <=? 0); destruct ty; reflexivity.
Qed.

Lemma forEachObstacle_score (f : Frame) (s : Session)
  (obs : list ObstacleData) :
  (scoreRef s <= scoreRef (fst (forEachObstacle f s obs)))%Q.
Proof.
  revert s. induction obs as [| o rest IH]; intro s; simpl; [apply Qle_refl|].
  assert (H1 : (scoreRef s <= scoreRef (fst (obstacleCallback f s o)))%Q).
  { destruct (hits f o) eqn:E.
    - rewrite (obstacleCallback_hits f s o E). simpl fst.
      rewrite resolve_score. destruct (type o); lra.
    - rewrite (obstacleCallback_misses f s o E). apply Qle_refl. }
  destruct (obstacleCallback f s o) as [s1 o1].
  specialize (IH s1). destruct (forEachObstacle f s1 rest) as [s2 rest'].
  simpl in *. lra.
Qed.

Lemma frameSession_score (delta : Q) (st : Store) :
  scoreRef (frameSession delta st) =
  (scoreRef (session st) + SPEED_BASE * frameDt delta st)%Q.
Proof.
  unfold frameSession. cbv zeta.
  destruct (speedTimer_fields delta (session st)) as (A & _).
  destruct (leQ (timeRef st - delta) 0); simpl; rewrite A; reflexivity.
Qed.

(** X6.  The score never goes down, by comparisons only (they hold of the
    doubles of the code as of exact numbers): a frame with a delta that is
    not negative leaves it at least as high as it was, a frame outside a
    game leaves it as it is, and a resolution never lowers it and changes
    it only for a SPEED_BOOST. *)
Theorem X6_score_never_decreases (rng : nat -> Q) (acts : list Action)
  (delta : Q) :
  (0 <= delta)%Q ->
  let st := run acts (mounted rng) in
  (scoreRef (session st) <= scoreRef (session (tick delta st)))%Q
  /\ (gameStateRef st <> PLAYING ->
      scoreRef (session (tick delta st)) = scoreRef (session st))
  /\ (forall ty s,
        (scoreRef s <= scoreRef (resolve ty s))%Q
        /\ (ty <> SPEED_BOOST -> scoreRef (resolve ty s) = scoreRef s))
  /\ (forall f s obs,
        (scoreRef s <= scoreRef (fst (forEachObstacle f s obs)))%Q).
Proof.
  intros Hd st.
  assert (Hs : speedInv (session st)) by apply run_speedInv, mounted_speedInv.
  assert (Hm : (0 <= delta * speedMultRef (session st))%Q).
  { destruct Hs as [-> | [-> _]]; lra. }
  assert (Idle : gameStateRef st <> PLAYING ->
                 scoreRef (session (tick delta st)) = scoreRef (session st)).
  { intro G. unfold tick. destruct (gameStateRef st) eqn:E;
      try reflexivity; try congruence;
      rewrite step_idle by congruence; apply speedTimer_fields. }
  assert (Play : gameStateRef st = PLAYING ->
            (scoreRef (session st)
               + SPEED_BASE * (delta * speedMultRef (session st))
             <= scoreRef (session (tick delta st)))%Q).
  { intro G. rewrite tick_playing, step_playing by exact G.
    cbv zeta. simpl session.
    eapply Qle_trans; [| apply forEachObstacle_score].
    rewrite frameSession_score. apply Qle_refl. }
  split.
  { destruct (gameStateRef st) eqn:G;
      try (rewrite Idle by congruence; apply Qle_refl).
    specialize (Play eq_refl). unfold SPEED_BASE in *. lra. }
  split; [exact Idle|].
  split; [|intros f s obs; apply forEachObstacle_score].
  intros ty s. rewrite resolve_score.
  split; [destruct ty; lra|].
  intro N. destruct ty; try reflexivity. congruence.
Qed.

Lemma X6_score_never_decreases_witness :
  (0 <= 0.1)%Q
  /\ (scoreRef (session (newGame rngTwins))
      <= scoreRef (session (tick 0.1 (newGame rngTwins))))%Q.
Proof.
  split; [discriminate|].
  exact (proj1 (X6_score_never_decreases rngTwins
                  [StartNewGame; PropGameState PLAYING] 0.1%Q
                  ltac:(discriminate))).
Defined.

Lemma resolve_stateCalls_over (ty : ObstacleType) (s : Session) :
  exists overs,
    Forall (eq GAME_OVER) overs
    /\ stateCalls (resolve ty s) = stateCalls s ++ overs.
Proof.
  rewrite resolve_stateCalls.
  destruct (healthRef (resolve ty s) <=? 0).
  - exists [GAME_OVER]. split; [repeat constructor | reflexivity].
  - exists []. split; [constructor | reflexivity].
Qed.

Lemma forEachObstacle_stateCalls (f : Frame) (s : Session)
  (obs : list ObstacleData) :
  exists overs,
    Forall (eq GAME_OVER) overs
    /\ stateCalls (fst (forEachObstacle f s obs)) = stateCalls s ++ overs.
Proof.
  revert s. induction obs as [| o rest IH]; intro s; simpl.
  - exists []. split; [constructor | rewrite app_nil_r; reflexivity].
  - assert (H1 : exists overs, Forall (eq GAME_OVER) overs
                 /\ stateCalls (fst (obstacleCallback f s o))
                    = stateCalls s ++ overs).
    { destruct (hits f o) eqn:E.
      - rewrite (obstacleCallback_hits f s o E).
        apply resolve_stateCalls_over.
      - rewrite (obstacleCallback_misses f s o E).
        exists []. split; [constructor | rewrite app_nil_r; reflexivity]. }
    destruct (obstacleCallback f s o) as [s1 o1].
    destruct H1 as (ov1 & F1 & E1).
    destruct (IH s1) as (ov2 & F2 & E2).
    destruct (forEachObstacle f s1 rest) as [s2 rest'].
    simpl in *. exists (ov1 ++ ov2). split.
    + apply Forall_app. split; assumption.
    + rewrite E2, E1, app_assoc. reflexivity.
Qed.

(** X7.  A frame of a game being played takes its delta off the time left.
    The only states it asks the parent for are LEVEL_COMPLETE, once and
    first, exactly when the time left is then 0 or below, and GAME_OVER;
    since the parent's answer arrives after the frame, every further frame
    that still sees PLAYING with the time used up asks again. *)
Theorem X7_frame_clock (delta : Q) (st : Store) :
  gameStateRef st = PLAYING ->
  timeRef (tick delta st) = (timeRef st - delta)%Q
  /\ gameStateRef (tick delta st) = PLAYING
  /\ exists overs,
       Forall (eq GAME_OVER) overs
       /\ stateCalls (session (tick delta st)) =
          stateCalls (session st)
          ++ (if leQ (timeRef st - delta)%Q 0 then [LEVEL_COMPLETE] else [])
          ++ overs.
Proof.
  intro G. split; [| split].
  - rewrite tick_playing, step_playing by exact G. reflexivity.
  - rewrite tick_gameState. exact G.
  - rewrite tick_playing, step_playing by exact G.
    cbv zeta. simpl session.
    destruct (forEachObstacle_stateCalls (frameOf delta st)
                (frameSession delta st) (obstaclesRef (frameTrack delta st)))
      as (overs & F & E).
    exists overs. split; [exact F|]. rewrite E.
    rewrite app_assoc. f_equal.
    unfold frameSession. cbv zeta.
    destruct (speedTimer_fields delta (session st)) as (_ & _ & _ & A).
    destruct (leQ (timeRef st - delta) 0); simpl; rewrite A;
      [reflexivity | rewrite app_nil_r; reflexivity].
Qed.

Lemma X7_frame_clock_witness :
  gameStateRef (newGame rngTwins) = PLAYING
  /\ timeRef (tick 0.1 (newGame rngTwins))
     = (timeRef (newGame rngTwins) - 0.1)%Q.
Proof.
  split; [reflexivity|].
  exact (proj1 (X7_frame_clock 0.1%Q (newGame rngTwins) eq_refl)).
Defined.

(** ** Outside a game *)

Lemma tick_idle_fields (delta : Q) (st : Store) :
  gameStateRef st <> PLAYING ->
  track (tick delta st) = track st
  /\ player (tick delta st) = player st
  /\ timeRef (tick delta st) = timeRef st
  /\ healthRef (session (tick delta st)) = healthRef (session st)
  /\ scoreRef (session (tick delta st)) = scoreRef (session st)
  /\ events (session (tick delta st)) = events (session st)
  /\ stateCalls (session (tick delta st)) = stateCalls (session st).
Proof.
  intro G. unfold tick.
  destruct (speedTimer_fields delta (session st)) as (A & B & C & D).
  destruct (gameStateRef st) eqn:E; try congruence;
    try (repeat split; reflexivity);
    rewrite step_idle by congruence; repeat split; assumption.
Qed.

(** X8.  While the state the component sees is not PLAYING (the menu, a
    pause, a finished level, a lost game), frames leave the track, the
    obstacles, the player, the time left, the health and the score as they
    are and call neither [onEvent] nor [setGameState], however many frames
    there are. *)
Theorem X8_frames_outside_a_game (deltas : list Q) (st : Store) :
  gameStateRef st <> PLAYING ->
  let st' := run (map Tick deltas) st in
  gameStateRef st' = gameStateRef st
  /\ track st' = track st
  /\ player st' = player st
  /\ timeRef st' = timeRef st
  /\ healthRef (session st') = healthRef (session st)
  /\ scoreRef (session st') = scoreRef (session st)
  /\ events (session st') = events (session st)
  /\ stateCalls (session st') = stateCalls (session st).
Proof.
  revert st. induction deltas as [| d rest IH]; intros st G; [repeat split|].
  change (run (map Tick (d :: rest)) st)
    with (run (map Tick rest) (tick d st)).
  cbv zeta.
  assert (G' : gameStateRef (tick d st) <> PLAYING)
    by (rewrite tick_gameState; exact G).
  specialize (IH (tick d st) G'). cbv zeta in IH.
  destruct IH as (I0 & I1 & I2 & I3 & I4 & I5 & I6 & I7).
  destruct (tick_idle_fields d st G) as (T1 & T2 & T3 & T4 & T5 & T6 & T7).
  rewrite I0, I1, I2, I3, I4, I5, I6, I7, tick_gameState.
  repeat split; assumption.
Qed.

Lemma X8_frames_outside_a_game_witness :
  gameStateRef (mounted rngTwins) <> PLAYING
  /\ healthRef (session (run (map Tick [0.1; 0.1; 0.1]%Q) (mounted rngTwins)))
     = healthRef (session (mounted rngTwins)).
Proof.
  assert (G : gameStateRef (mounted rngTwins) <> PLAYING) by discriminate.
  split; [exact G|].
  destruct (X8_frames_outside_a_game [0.1; 0.1; 0.1]%Q (mounted rngTwins) G)
    as (_ & _ & _ & _ & H & _).
  exact H.
Defined.

(** ** Empty mode *)

Lemma spawnSegment_empty (ph : GamePhase) (zPos : Q) (t : Track) :
  obstaclesRef (snd (spawnSegment ph true zPos t)) = obstaclesRef t.
Proof. reflexivity. Qed.

Lemma spawnAll_empty (ph : GamePhase) (idxs : list Z) (t : Track) :
  obstaclesRef (snd (spawnAll ph true idxs t)) = obstaclesRef t.
Proof.
  revert t. induction idxs as [| i rest IH]; intro t; [reflexivity|].
  simpl. unfold bind.
  pose proof (spawnSegment_empty ph (inject_Z i * SEGMENT_LENGTH) t) as H.
  destruct (spawnSegment ph true (inject_Z i * SEGMENT_LENGTH) t) as [u t1].
  simpl in H. rewrite IH. exact H.
Qed.

Lemma loopSegments_empty (ph : GamePhase) (dist : Q) (t : Track) :
  obstaclesRef (loopSegments ph true dist t) = obstaclesRef t.
Proof.
  unfold loopSegments.
  destruct (map (moveSegment dist) (segmentsRef t)) as [| first rest];
    [reflexivity|].
  destruct (gtQ (positionZ first) 100); [| reflexivity].
  destruct (lastSegment rest); reflexivity.
Qed.

Lemma resetGame_empty (b : bool) (st : Store) :
  emptyModeRef st = true -> obstaclesRef (track st) = [] ->
  obstaclesRef (track (resetGame b st)) = [].
Proof.
  intros E O. unfold resetGame. cbv zeta. cbn [track]. rewrite E.
  rewrite spawnAll_empty. destruct (worldGroupRef st); [reflexivity | exact O].
Qed.

Lemma tick_empty (delta : Q) (st : Store) :
  emptyModeRef st = true -> obstaclesRef (track st) = [] ->
  obstaclesRef (track (tick delta st)) = []
  /\ events (session (tick delta st)) = events (session st)
  /\ healthRef (session (tick delta st)) = healthRef (session st).
Proof.
  intros E O. destruct (gameStateRef st) eqn:G;
    try (destruct (tick_idle_fields delta st) as (T & _ & _ & H & _ & V & _);
         [congruence | rewrite T, H, V; repeat split; exact O]).
  rewrite tick_playing, step_playing by exact G. cbv zeta.
  assert (O' : obstaclesRef (frameTrack delta st) = []).
  { unfold frameTrack. rewrite E, loopSegments_empty. exact O. }
  rewrite O'. simpl.
  destruct (speedTimer_fields delta (session st)) as (_ & A & B & _).
  unfold frameSession. cbv zeta.
  destruct (leQ (timeRef st - delta) 0); simpl; rewrite A, B;
    repeat split.
Qed.

Lemma perform_emptyMode (a : Action) (st : Store) :
  keepsEmptyMode a -> emptyModeRef st = true ->
  emptyModeRef (perform a st) = true.
Proof.
  intros K E. destruct a; unfold perform; try exact E.
  - rewrite tick_emptyMode. exact E.
  - unfold doJump. destruct (isJumping (player st)); exact E.
  - unfold syncDebugPhase. destruct (GamePhase_eqb ph (phaseRef st)); exact E.
  - destruct b; [reflexivity | contradiction].
Qed.

Lemma perform_empty (a : Action) (st : Store) :
  keepsEmptyMode a -> emptyModeRef st = true ->
  obstaclesRef (track st) = [] ->
  obstaclesRef (track (perform a st)) = []
  /\ events (session (perform a st)) = events (session st).
Proof.
  intros K E O. destruct a; unfold perform;
    try (split; [exact O | reflexivity]).
  - destruct (tick_empty delta st E O) as (A & B & _). split; assumption.
  - unfold doJump. destruct (isJumping (player st)); split;
      try exact O; reflexivity.
  - split; [apply resetGame_empty; assumption|].
    unfold resetGame. cbv zeta. simpl. reflexivity.
  - split; [unfold nextLevel; apply resetGame_empty; assumption|].
    reflexivity.
  - unfold syncDebugPhase. destruct (GamePhase_eqb ph (phaseRef st));
      [split; [exact O | reflexivity]|].
    split; [apply resetGame_empty; assumption | reflexivity].
  - unfold syncEmptyMode. destruct b; split; try reflexivity. exact O.
  - split; [apply resetGame_empty; assumption | reflexivity].
Qed.

(** X9.  Switching empty mode on clears the obstacle array at once, and as
    long as it is not switched off again the array stays empty through
    frames, moves, new games, next levels and debug resets: no segment that
    is spawned gets an obstacle, so [onEvent] is never called. *)
Theorem X9_empty_mode (acts : list Action) (st : Store) :
  Forall keepsEmptyMode acts ->
  let st' := run acts (syncEmptyMode true st) in
  obstaclesRef (track (syncEmptyMode true st)) = []
  /\ emptyModeRef st' = true
  /\ obstaclesRef (track st') = []
  /\ events (session st') = events (session st).
Proof.
  intros K st'. split; [reflexivity|].
  assert (G : forall s, emptyModeRef s = true -> obstaclesRef (track s) = [] ->
                emptyModeRef (run acts s) = true
                /\ obstaclesRef (track (run acts s)) = []
                /\ events (session (run acts s)) = events (session s)).
  { induction K as [| a rest Ka Krest IH]; intros s E O; [repeat split; assumption|].
    simpl.
    pose proof (perform_emptyMode a s Ka E) as E1.
    destruct (perform_empty a s Ka E O) as [O1 V1].
    destruct (IH (perform a s) E1 O1) as (A & B & C).
    rewrite C, V1. repeat split; assumption. }
  apply (G (syncEmptyMode true st)); reflexivity.
Qed.

Lemma X9_empty_mode_witness :
  Forall keepsEmptyMode [StartNewGame; PropGameState PLAYING; Tick 0.1%Q]
  /\ obstaclesRef
       (track (run [StartNewGame; PropGameState PLAYING; Tick 0.1%Q]
                 (syncEmptyMode true (mounted rngTwins)))) = [].
Proof.
  assert (K : Forall keepsEmptyMode
                [StartNewGame; PropGameState PLAYING; Tick 0.1%Q])
    by (repeat constructor).
  split; [exact K|].
  destruct (X9_empty_mode _ (mounted rngTwins) K) as (_ & _ & H & _).
  exact H.
Defined.

(** ** What spawning adds *)

Lemma spawnObstacle_nextId (ph : GamePhase) (g : Segment) (t : Track) :
  nextId (snd (spawnObstacle ph false g t)) = nextId t.
Proof.
  destruct (spawnObstacle_spec ph g t) as (o & k & _ & _ & _ & _ & H & _).
  exact H.
Qed.

Lemma times_spawnObstacle (ph : GamePhase) (g : Segment) (n : nat)
  (t : Track) :
  let t' := snd (times n (spawnObstacle ph false g) t) in
  exists new,
    obstaclesRef t' = obstaclesRef t ++ new
    /\ length new = n
    /\ Forall (freshIn (segId g)) new
    /\ segmentsRef t' = segmentsRef t
    /\ detached t' = detached t
    /\ nextId t' = nextId t.
Proof.
  revert t. induction n as [| n IH]; intro t.
  - exists []. simpl. rewrite app_nil_r. repeat split. constructor.
  - cbn [times]. unfold bind. cbv zeta.
    destruct (spawnObstacle_spec ph g t)
      as (o & k & Ho & Hs & Hd & _ & Hn & Hp & _ & _ & _ & _ & _ & He & _).
    destruct (spawnObstacle ph false g t) as [u t1]. cbn [snd] in *.
    destruct (IH t1) as (new & A & B & C & D & E & F).
    exists (o :: new).
    split; [rewrite A, Ho, <- app_assoc; reflexivity|].
    split; [cbn [length]; congruence|].
    split; [constructor; [split; assumption | exact C]|].
    split; [congruence|]. split; congruence.
Qed.

Lemma spawnCount_spec (t : Track) :
  (fst (spawnCount t) <= 2)%nat
  /\ segmentsRef (snd (spawnCount t)) = segmentsRef t
  /\ detached (snd (spawnCount t)) = detached t
  /\ obstaclesRef (snd (spawnCount t)) = obstaclesRef t
  /\ nextId (snd (spawnCount t)) = nextId t.
Proof.
  unfold spawnCount, bind, Math_random, ret.
  destruct (ltQ _ 0.9); simpl; [| repeat split; lia].
  destruct (ltQ _ 0.5); simpl; repeat split; lia.
Qed.

(** [spawnSegment] appends one group with a new identifier and at most two
    obstacles, all unresolved and with that group as parent. *)
Lemma spawnSegment_spec (ph : GamePhase) (em : bool) (zPos : Q) (t : Track) :
  let t' := snd (spawnSegment ph em zPos t) in
  exists new,
    segmentsRef t' =
    segmentsRef t ++ [{| segId := nextId t; positionZ := (- zPos)%Q |}]
    /\ detached t' = detached t
    /\ nextId t' = S (nextId t)
    /\ obstaclesRef t' = obstaclesRef t ++ new
    /\ (length new <= 2)%nat
    /\ (em = true -> new = [])
    /\ Forall (freshIn (nextId t)) new.
Proof.
  unfold spawnSegment, bind, newGroup.
  set (g := {| segId := nextId t; positionZ := (- zPos)%Q |}).
  set (t0 := {| segmentsRef := segmentsRef t; detached := detached t;
                obstaclesRef := obstaclesRef t; nextId := S (nextId t);
                rng := rng t; randomCalls := randomCalls t |}).
  destruct em.
  { exists []. unfold pushSegment, t0. cbn. rewrite app_nil_r.
    repeat split; [lia | constructor]. }
  destruct (spawnCount_spec t0) as (Hn & A1 & B1 & C1 & D1).
  destruct (spawnCount t0) as [n t1]. cbn [fst snd] in Hn, A1, B1, C1, D1.
  destruct (times_spawnObstacle ph g n t1) as (new & A & B & C & D & E & F).
  destruct (times n (spawnObstacle ph false g) t1) as [u t2].
  cbn [fst snd] in A, D, E, F. exists new.
  unfold pushSegment. cbn [snd segmentsRef detached nextId obstaclesRef].
  rewrite A, D, E, F, A1, B1, C1, D1. unfold t0.
  cbn [segmentsRef detached nextId obstaclesRef].
  repeat split; try assumption; try lia; try discriminate.
Qed.

(** ** The obstacle array *)

Lemma loopSegments_obstacles (ph : GamePhase) (em : bool) (dist : Q)
  (t : Track) :
  exists new,
    obstaclesRef (loopSegments ph em dist t) = obstaclesRef t ++ new
    /\ (length new <= 2)%nat
    /\ Forall (fun o => exploded o = false) new.
Proof.
  unfold loopSegments.
  destruct (map (moveSegment dist) (segmentsRef t)) as [| first rest].
  { exists []. rewrite app_nil_r. repeat split; [simpl; lia | constructor]. }
  destruct (gtQ (positionZ first) 100).
  - destruct (lastSegment rest) as [l |].
    + destruct (spawnSegment_spec ph em (- positionZ l + SEGMENT_LENGTH)
                  (shiftSegment first rest t))
        as (new & _ & _ & _ & A & B & _ & C).
      exists new. split; [exact A|]. split; [exact B|].
      eapply Forall_impl; [| exact C]. intros o [H _]. exact H.
    + exists []. rewrite app_nil_r.
      repeat split; [simpl; lia | constructor].
  - exists []. rewrite app_nil_r. repeat split; [simpl; lia | constructor].
Qed.

(** X10.  A frame never takes an obstacle out of the array: resolved and
    passed obstacles stay in it with their flag set, each obstacle that was
    there is the result of one call of the callback on it in the same place,
    and at most two obstacles are appended, those of the one segment a frame
    can spawn.  The array only empties on a reset or when empty mode is
    switched on. *)
Theorem X10_obstacle_array_grows (delta : Q) (st : Store) :
  let old := obstaclesRef (track st) in
  let now := obstaclesRef (track (tick delta st)) in
  (length old <= length now <= length old + 2)%nat
  /\ (gameStateRef st = PLAYING ->
      Forall2 (fun o o' =>
                 exists s, o' = snd (obstacleCallback (frameOf delta st) s o))
        old (firstn (length old) now))
  /\ (gameStateRef st <> PLAYING -> now = old).
Proof.
  intros old now. unfold old, now.
  assert (Idle : gameStateRef st <> PLAYING ->
                 obstaclesRef (track (tick delta st))
                 = obstaclesRef (track st)).
  { intro G. destruct (tick_idle_fields delta st G) as (T & _).
    rewrite T. reflexivity. }
  destruct (gameStateRef st) eqn:G;
    try (rewrite Idle by congruence;
         split; [lia | split; [congruence | reflexivity]]).
  rewrite tick_playing, step_playing by exact G. cbv zeta. simpl track.
  simpl obstaclesRef.
  destruct (loopSegments_obstacles (phaseRef st) (emptyModeRef st)
              (SPEED_BASE * frameDt delta st)%Q (track st))
    as (new & A & B & _).
  fold (frameTrack delta st) in A.
  pose proof (forEachObstacle_pointwise (frameOf delta st)
                (frameSession delta st) (obstaclesRef (frameTrack delta st)))
    as P.
  pose proof (forEachObstacle_length (frameOf delta st)
                (frameSession delta st) (obstaclesRef (frameTrack delta st)))
    as L.
  rewrite A in P, L. rewrite A. rewrite length_app in L.
  split; [lia|]. split; [| congruence].
  intros _.
  apply Forall2_app_inv_l in P.
  destruct P as (l1 & l2 & P1 & P2 & E). rewrite E.
  pose proof (Forall2_length P1) as L1.
  rewrite L1, firstn_app, Nat.sub_diag, firstn_all. simpl.
  rewrite app_nil_r. exact P1.
Qed.

(** ** The spacing of the segments *)

Lemma spacedZ_snoc (l : list Q) (a x : Q) :
  spacedZ (l ++ [a]) -> (a - x == SEGMENT_LENGTH)%Q ->
  spacedZ ((l ++ [a]) ++ [x]).
Proof.
  intros H Hx. induction l as [| b rest IH].
  - simpl. split; [exact Hx | exact I].
  - destruct rest as [| c rest'].
    + simpl in *. destruct H as [H1 _]. repeat split; assumption.
    + simpl in *. destruct H as [H1 H2]. split; [exact H1|].
      apply IH. exact H2.
Qed.

Lemma spacedZ_shift (d : Q) (l : list Q) :
  spacedZ l -> spacedZ (map (fun z => (z + d)%Q) l).
Proof.
  induction l as [| a [| b rest] IH]; intro H; try exact I.
  destruct H as [H1 H2]. split.
  - unfold SEGMENT_LENGTH in *. lra.
  - apply IH. exact H2.
Qed.

Lemma spacedZ_tail (a : Q) (l : list Q) : spacedZ (a :: l) -> spacedZ l.
Proof. destruct l as [| b rest]; [intros _; exact I | intros [_ H]; exact H]. Qed.

Lemma lastSegment_snoc (l : list Segment) (x : Segment) :
  lastSegment l = Some x -> exists pre, l = pre ++ [x].
Proof.
  induction l as [| a [| b rest] IH]; intro H; try discriminate.
  - injection H as <-. exists []. reflexivity.
  - destruct (IH H) as [pre E]. exists (a :: pre). rewrite E. reflexivity.
Qed.

Lemma map_moveSegment_positions (dist : Q) (l : list Segment) :
  map positionZ (map (moveSegment dist) l) =
  map (fun z => (z + dist)%Q) (map positionZ l).
Proof. rewrite !map_map. reflexivity. Qed.

Lemma loopSegments_spaced (ph : GamePhase) (em : bool) (dist : Q)
  (t : Track) :
  evenlySpaced (segmentsRef t) ->
  evenlySpaced (segmentsRef (loopSegments ph em dist t)).
Proof.
  intro H. unfold loopSegments.
  assert (M : evenlySpaced (map (moveSegment dist) (segmentsRef t))).
  { unfold evenlySpaced. rewrite map_moveSegment_positions.
    apply spacedZ_shift. exact H. }
  destruct (map (moveSegment dist) (segmentsRef t)) as [| first rest];
    [exact H|].
  destruct (gtQ (positionZ first) 100); [| exact M].
  assert (R : evenlySpaced rest)
    by (unfold evenlySpaced in *; simpl in M; eapply spacedZ_tail; exact M).
  destruct (lastSegment rest) as [l |] eqn:L; [| exact R].
  destruct (spawnSegment_spec ph em (- positionZ l + SEGMENT_LENGTH)
              (shiftSegment first rest t)) as (new & A & _).
  rewrite A.
  change (segmentsRef (shiftSegment first rest t)) with rest.
  destruct (lastSegment_snoc rest l L) as [pre E]. subst rest.
  unfold evenlySpaced in *. rewrite !map_app in *.
  change (map positionZ [l]) with [positionZ l] in *.
  cbn [map positionZ].
  apply spacedZ_snoc; [exact R|]. unfold SEGMENT_LENGTH. ring.
Qed.

Lemma spawnAll_positions (ph : GamePhase) (em : bool) (idxs : list Z)
  (t : Track) :
  map positionZ (segmentsRef (snd (spawnAll ph em idxs t))) =
  map positionZ (segmentsRef t)
  ++ map (fun i => (- (inject_Z i * SEGMENT_LENGTH))%Q) idxs.
Proof.
  revert t. induction idxs as [| i rest IH]; intro t.
  - simpl. rewrite app_nil_r. reflexivity.
  - cbn [spawnAll]. unfold bind. cbv zeta.
    destruct (spawnSegment_spec ph em (inject_Z i * SEGMENT_LENGTH) t)
      as (new & A & _).
    destruct (spawnSegment ph em (inject_Z i * SEGMENT_LENGTH) t) as [u t1].
    cbn [snd] in A. rewrite IH, A, map_app, <- app_assoc. reflexivity.
Qed.

Lemma initial_spaced :
  spacedZ (map (fun i => (- (inject_Z i * SEGMENT_LENGTH))%Q) initialIndices).
Proof. cbv. repeat split; reflexivity. Qed.

Lemma resetGame_spaced (b : bool) (st : Store) :
  worldGroupRef st = true \/ segmentsRef (track st) = [] ->
  evenlySpaced (segmentsRef (track (resetGame b st))).
Proof.
  intro H. unfold resetGame. cbv zeta. cbn [track].
  unfold evenlySpaced. rewrite spawnAll_positions.
  assert (E : map positionZ
                (segmentsRef (if worldGroupRef st
                              then clearTrack (track st) else track st)) = []).
  { destruct H as [-> | H]; [reflexivity|].
    destruct (worldGroupRef st); [reflexivity | rewrite H; reflexivity]. }
  rewrite E. exact initial_spaced.
Qed.

Lemma tick_segments (delta : Q) (st : Store) :
  segmentsRef (track (tick delta st)) =
  match gameStateRef st with
  | PLAYING => segmentsRef (frameTrack delta st)
  | _ => segmentsRef (track st)
  end.
Proof.
  unfold tick. destruct (gameStateRef st) eqn:G; try reflexivity;
    rewrite step_segments, G; reflexivity.
Qed.

Lemma perform_spaced (a : Action) (st : Store) :
  worldGroupRef st = true ->
  evenlySpaced (segmentsRef (track st)) ->
  evenlySpaced (segmentsRef (track (perform a st))).
Proof.
  intros W H. destruct a; unfold perform; try exact H.
  - rewrite tick_segments. destruct (gameStateRef st); try exact H.
    apply loopSegments_spaced. exact H.
  - unfold doJump. destruct (isJumping (player st)); exact H.
  - apply resetGame_spaced. left. exact W.
  - unfold nextLevel. apply resetGame_spaced. left. exact W.
  - unfold syncDebugPhase. destruct (GamePhase_eqb ph (phaseRef st));
      [exact H | apply resetGame_spaced; left; exact W].
  - unfold syncEmptyMode. destruct b; exact H.
  - apply resetGame_spaced. left. exact W.
Qed.

(** X11.  In exact arithmetic the track has no gap and no overlap: after the
    mount and whatever follows, any two neighbours in the segment array are
    one segment length (8) apart, the later one further ahead, because a
    frame adds the same distance to every segment and a recycled segment is
    put one segment length in front of the last one.  The code adds in
    binary64, where each addition rounds, so on the machine the gaps are 8
    up to rounding only.  The positions a reset lays, from 80 down to -232,
    are exact in both. *)
Theorem X11_segments_evenly_spaced (rng : nat -> Q) (acts : list Action) :
  evenlySpaced (segmentsRef (track (run acts (mounted rng))))
  /\ (forall b st, worldGroupRef st = true ->
        map positionZ (segmentsRef (track (resetGame b st))) =
        map (fun i => (- (inject_Z i * SEGMENT_LENGTH))%Q) initialIndices)
  /\ hd_error (map (fun i => Qred (- (inject_Z i * SEGMENT_LENGTH)))
                 initialIndices) = Some (80 # 1)
  /\ hd_error (rev (map (fun i => Qred (- (inject_Z i * SEGMENT_LENGTH)))
                      initialIndices)) = Some (-232 # 1).
Proof.
  split.
  { assert (G : forall st, worldGroupRef st = true ->
                  evenlySpaced (segmentsRef (track st)) ->
                  evenlySpaced (segmentsRef (track (run acts st)))).
    { induction acts as [| a rest IH]; intros st W H; [exact H|].
      simpl. apply IH.
      - rewrite perform_worldGroup. exact W.
      - apply perform_spaced; assumption. }
    apply G; [reflexivity|].
    unfold mounted. change (track (createWorld ?s)) with (track s).
    apply resetGame_spaced. right. reflexivity. }
  split.
  { intros b st W. unfold resetGame. cbv zeta. cbn [track].
    rewrite spawnAll_positions, W. reflexivity. }
  split; reflexivity.
Qed.

(** ** Lane easing *)

Lemma whileAbove_multiple (fuel : nat) (diff max : Q) :
  exists k : Z, (whileAbove fuel diff max == diff + inject_Z k * max)%Q.
Proof.
  revert diff. induction fuel as [| fuel IH]; intro diff.
  - exists 0. simpl. ring.
  - simpl. destruct (gtQ diff (max / 2)).
    + destruct (IH (diff - max)%Q) as [k Hk]. exists (k - 1).
      rewrite Hk. unfold Z.sub. rewrite inject_Z_plus, inject_Z_opp.
      change (inject_Z 1) with 1%Q. ring.
    + exists 0. simpl. ring.
Qed.

Lemma whileBelow_multiple (fuel : nat) (diff max : Q) :
  exists k : Z, (whileBelow fuel diff max == diff + inject_Z k * max)%Q.
Proof.
  revert diff. induction fuel as [| fuel IH]; intro diff.
  - exists 0. simpl. ring.
  - simpl. destruct (ltQ diff (- max / 2)).
    + destruct (IH (diff + max)%Q) as [k Hk]. exists (k + 1).
      rewrite Hk, inject_Z_plus. change (inject_Z 1) with 1%Q. ring.
    + exists 0. simpl. ring.
Qed.

Lemma whileBelow_upper (fuel : nat) (diff max : Q) :
  (0 < max)%Q -> (diff <= max / 2)%Q ->
  (whileBelow fuel diff max <= max / 2)%Q.
Proof.
  intro Hmax.
  assert (Hh : (max / 2 + max / 2 == max)%Q) by field.
  assert (Hn : (- max / 2 == - (max / 2))%Q) by field.
  revert diff. induction fuel as [| fuel IH]; intros diff H; [exact H|].
  simpl. destruct (ltQ diff (- max / 2)) eqn:E; [| exact H].
  apply IH. apply ltQ_true in E. rewrite Hn in E.
  revert Hh E. generalize (max / 2)%Q. intros h Hh E. lra.
Qed.

Lemma shortestDiff_range (current target max : Q) :
  (0 < max)%Q ->
  (- (max / 2) <= shortestDiff current target max)%Q
  /\ (shortestDiff current target max <= max / 2)%Q.
Proof.
  intro Hmax. unfold shortestDiff. cbv zeta.
  destruct (lerpCyclic_loops_exit current target max Hmax) as [A B].
  cbv zeta in A, B. split.
  - apply ltQ_false in B.
    assert (Hn : (- max / 2 == - (max / 2))%Q) by field.
    rewrite Hn in B. exact B.
  - apply whileBelow_upper; [exact Hmax|]. apply gtQ_false. exact A.
Qed.

(** X12.  [lerpCyclic] goes the short way round the ring: for a positive
    period the difference it applies differs from [target - current] by a
    whole number of periods and lies between minus half a period and half a
    period, and the result is [current + difference * speed].  Both loops
    end on their own condition. *)
Theorem X12_lerpCyclic_shortest_way (current target speed max : Q) :
  (0 < max)%Q ->
  let d := shortestDiff current target max in
  lerpCyclic current target speed max = (current + d * speed)%Q
  /\ (- (max / 2) <= d)%Q
  /\ (d <= max / 2)%Q
  /\ exists k : Z, (d == target - current + inject_Z k * max)%Q.
Proof.
  intros Hmax d. split; [reflexivity|].
  destruct (shortestDiff_range current target max Hmax) as [A B].
  split; [exact A|]. split; [exact B|].
  unfold d, shortestDiff. cbv zeta.
  set (diff := (target - current)%Q).
  destruct (whileAbove_multiple (loopFuel diff max) diff max) as [k1 H1].
  set (d1 := whileAbove (loopFuel diff max) diff max) in *.
  destruct (whileBelow_multiple (loopFuel d1 max) d1 max) as [k2 H2].
  exists (k1 + k2). rewrite H2, H1, inject_Z_plus. ring.
Qed.

Lemma X12_lerpCyclic_shortest_way_witness :
  (0 < 12)%Q
  /\ (Qred (shortestDiff 11 0 12) = 1 /\ Qred (shortestDiff 0 11 12) = -1)%Q
  /\ (shortestDiff 11 0 12 <= 12 / 2)%Q.
Proof.
  split; [reflexivity|]. split; [split; reflexivity|].
  destruct (X12_lerpCyclic_shortest_way 11 0 1 12 eq_refl)
    as (_ & _ & H & _).
  exact H.
Defined.

Lemma jumpPhysics_currentLane (dt : Q) (p : Player) :
  currentLane (jumpPhysics dt p) = currentLane p.
Proof.
  unfold jumpPhysics. destruct (isJumping p); [|reflexivity].
  destruct (leQ _ 0); reflexivity.
Qed.

Lemma easeLane_flat_current (dt : Q) (p : Player) :
  currentLane (easeLane FLAT dt p) =
  Qred (lerp (currentLane p) (inject_Z (targetLane p)) (12 * dt)).
Proof. reflexivity. Qed.

Lemma lerp_error (x y t : Q) : (lerp x y t - y == (1 - t) * (x - y))%Q.
Proof. unfold lerp. ring. Qed.

(** X13.  In the FLAT phase a frame of a game being played multiplies the
    distance between the player's lane and the target lane by [1 - 12 dt],
    where [dt] is the delta times the speed multiplier (in exact arithmetic;
    the code rounds the product).  For every delta from 0 to 1/6 the
    distance does not grow.  That covers all the clamp lets through: the
    clamped delta is the double 0.1, a little above one tenth and well
    below 1/6.  At the clamped delta and full speed the factor is just
    below -0.2, so the lane overshoots the target by a fifth of the
    distance. *)
Theorem X13_flat_lane_easing (rng : nat -> Q) (acts : list Action)
  (delta : Q) :
  let st := run acts (mounted rng) in
  let T := inject_Z (targetLane (player st)) in
  let dt := (delta * speedMultRef (session st))%Q in
  phaseRef st = FLAT -> gameStateRef st = PLAYING ->
  (0 <= delta)%Q -> (delta <= 1 # 6)%Q ->
  (currentLane (player (tick delta st)) - T
   == (1 - 12 * dt) * (currentLane (player st) - T))%Q
  /\ (Qabs (currentLane (player (tick delta st)) - T)
      <= Qabs (currentLane (player st) - T))%Q
  /\ SF2Q (clampDelta f64_0_1) = Some clampedDelta
  /\ (0.1 < clampedDelta)%Q /\ (clampedDelta <= 1 # 6)%Q
  /\ (-0.21 < 1 - 12 * (clampedDelta * 1.0))%Q
  /\ (1 - 12 * (clampedDelta * 1.0) < -0.2)%Q.
Proof.
  intros st T dt HF HP H0 H1.
  assert (Hs : speedInv (session st)) by apply run_speedInv, mounted_speedInv.
  assert (E : (currentLane (player (tick delta st)) - T
               == (1 - 12 * dt) * (currentLane (player st) - T))%Q).
  { rewrite tick_playing, step_playing by exact HP. cbv zeta. simpl player.
    unfold framePlayer. rewrite jumpPhysics_currentLane, HF.
    rewrite easeLane_flat_current, Qred_correct. apply lerp_error. }
  split; [exact E|].
  split.
  { rewrite E, Qabs_Qmult.
    assert (F : (Qabs (1 - 12 * dt) <= 1)%Q).
    { apply Qabs_Qle_condition. unfold dt.
      destruct Hs as [-> | [-> _]]; split; lra. }
    pose proof (Qabs_nonneg (currentLane (player st) - T)) as N.
    revert F N. generalize (Qabs (1 - 12 * dt)).
    generalize (Qabs (currentLane (player st) - T)). intros a f F N.
    rewrite <- (Qmult_1_l a) at 2. apply Qmult_le_compat_r; assumption. }
  split; [vm_compute; reflexivity|].
  split; [vm_compute; reflexivity|].
  split; [vm_compute; discriminate|].
  split; vm_compute; reflexivity.
Qed.

Lemma X13_flat_lane_easing_witness :
  phaseRef (run [PropDebugPhase FLAT; PropGameState PLAYING; MoveRight]
              (mounted rngTwins)) = FLAT
  /\ gameStateRef (run [PropDebugPhase FLAT; PropGameState PLAYING; MoveRight]
                     (mounted rngTwins)) = PLAYING
  /\ (0 <= clampedDelta)%Q /\ (clampedDelta <= 1 # 6)%Q
  /\ (1.2 < currentLane
              (player
                 (tick clampedDelta
                    (run [PropDebugPhase FLAT; PropGameState PLAYING;
                          MoveRight] (mounted rngTwins)))))%Q
  /\ (Qabs (currentLane
              (player
                 (tick clampedDelta
                    (run [PropDebugPhase FLAT; PropGameState PLAYING;
                          MoveRight] (mounted rngTwins))))
            - inject_Z 1)
      <= Qabs (0 - inject_Z 1))%Q.
Proof.
  split; [reflexivity|]. split; [reflexivity|].
  split; [vm_compute; discriminate|]. split; [vm_compute; discriminate|].
  split; [vm_compute; reflexivity|].
  exact (proj1 (proj2 (X13_flat_lane_easing rngTwins
                  [PropDebugPhase FLAT; PropGameState PLAYING; MoveRight]
                  clampedDelta eq_refl eq_refl
                  ltac:(vm_compute; discriminate)
                  ltac:(vm_compute; discriminate)))).
Defined.

(** ** Resets *)

Lemma attachedTo_more (segs more : list Segment) (o : ObstacleData) :
  attachedTo segs o -> attachedTo (segs ++ more) o.
Proof.
  intros [E (g & Hg & Hp)]. split; [exact E|].
  exists g. split; [apply in_or_app; left; exact Hg | exact Hp].
Qed.

Lemma spawnAll_attached (ph : GamePhase) (em : bool) (idxs : list Z)
  (t : Track) :
  let t' := snd (spawnAll ph em idxs t) in
  exists gs new,
    segmentsRef t' = segmentsRef t ++ gs
    /\ detached t' = detached t
    /\ obstaclesRef t' = obstaclesRef t ++ new
    /\ (length new <= 2 * length idxs)%nat
    /\ Forall (attachedTo gs) new.
Proof.
  revert t. induction idxs as [| i rest IH]; intro t.
  - exists [], []. simpl. rewrite !app_nil_r.
    repeat split; [lia | constructor].
  - cbn [spawnAll]. unfold bind. cbv zeta.
    destruct (spawnSegment_spec ph em (inject_Z i * SEGMENT_LENGTH) t)
      as (new1 & A1 & B1 & _ & C1 & D1 & _ & F1).
    destruct (spawnSegment ph em (inject_Z i * SEGMENT_LENGTH) t) as [u t1].
    cbn [snd] in A1, B1, C1.
    destruct (IH t1) as (gs & new2 & A2 & B2 & C2 & D2 & F2).
    set (g := {| segId := nextId t;
                 positionZ := (- (inject_Z i * SEGMENT_LENGTH))%Q |}) in *.
    exists (g :: gs), (new1 ++ new2).
    split; [rewrite A2, A1, <- app_assoc; reflexivity|].
    split; [congruence|].
    split; [rewrite C2, C1, <- app_assoc; reflexivity|].
    split; [rewrite length_app; cbn [length]; lia|].
    apply Forall_app. split.
    + eapply Forall_impl; [| exact F1]. intros o [E P]. split; [exact E|].
      exists g. split; [left; reflexivity | exact P].
    + eapply Forall_impl; [| exact F2]. intros o [E (g' & Hg & P)].
      split; [exact E|]. exists g'. split; [right; exact Hg | exact P].
Qed.

Lemma spawnAll_newIds (ph : GamePhase) (em : bool) (idxs : list Z)
  (t : Track) :
  exists gs,
    segmentsRef (snd (spawnAll ph em idxs t)) = segmentsRef t ++ gs
    /\ Forall (fun g => (nextId t <= segId g)%nat) gs.
Proof.
  revert t. induction idxs as [| j r IHr]; intro s.
  - exists []. simpl. rewrite app_nil_r. split; [reflexivity | constructor].
  - cbn [spawnAll]. unfold bind. cbv zeta.
    destruct (spawnSegment_spec ph em (inject_Z j * SEGMENT_LENGTH) s)
      as (n1 & B1 & _ & M1 & _).
    destruct (spawnSegment ph em (inject_Z j * SEGMENT_LENGTH) s) as [v s1].
    cbn [snd] in B1, M1.
    destruct (IHr s1) as (gs' & B2 & F2).
    exists ({| segId := nextId s;
               positionZ := (- (inject_Z j * SEGMENT_LENGTH))%Q |} :: gs').
    split; [rewrite B2, B1, <- app_assoc; reflexivity|].
    constructor; [simpl; lia|].
    eapply Forall_impl; [| exact F2]. intros g Hg. simpl in Hg. lia.
Qed.

(** X14.  A reset of a mounted component leaves nothing of the game before
    it on the track: no segment is left detached, the forty segments are
    new, and every obstacle in the array, eighty at most, is unresolved and
    hangs on one of them.  A full reset also puts the score at 0, the level
    at 1, the health at 100 and the phase at ROUND, while a partial reset
    keeps these four; neither touches the speed timer. *)
Theorem X14_reset_clears_the_track (b : bool) (st : Store) :
  worldGroupRef st = true ->
  let st' := resetGame b st in
  detached (track st') = []
  /\ length (segmentsRef (track st')) = 40%nat
  /\ (length (obstaclesRef (track st')) <= 80)%nat
  /\ Forall (attachedTo (segmentsRef (track st'))) (obstaclesRef (track st'))
  /\ Forall (fun g => (nextId (track st) <= segId g)%nat)
       (segmentsRef (track st'))
  /\ (b = true ->
      scoreRef (session st') = 0%Q /\ levelRef st' = 1
      /\ healthRef (session st') = 100 /\ phaseRef st' = ROUND)
  /\ (b = false ->
      scoreRef (session st') = scoreRef (session st)
      /\ levelRef st' = levelRef st
      /\ healthRef (session st') = healthRef (session st)
      /\ phaseRef st' = phaseRef st)
  /\ speedTimerRef (session st') = speedTimerRef (session st).
Proof.
  intros W st'. unfold st', resetGame. cbv zeta. cbn [track]. rewrite W.
  match goal with
  | |- context [spawnAll ?ph ?em ?idxs ?t] =>
      destruct (spawnAll_attached ph em idxs t)
        as (gs & new & A & B & C & D & F);
      destruct (spawnAll_newIds ph em idxs t) as (gs' & A' & I);
      pose proof (spawnAll_length ph em idxs t) as L
  end.
  rewrite A in A', L. apply app_inv_head in A'. subst gs'.
  rewrite A, B, C.
  cbn [clearTrack segmentsRef detached obstaclesRef nextId app length] in *.
  split; [reflexivity|]. split; [exact L|].
  split; [change (length initialIndices) with 40%nat in D; lia|].
  split; [exact F|]. split; [exact I|].
  split; [intros ->; repeat split|].
  split; [intros ->; repeat split|].
  destruct b; reflexivity.
Qed.

Lemma X14_reset_clears_the_track_witness :
  worldGroupRef (run (repeat (Tick 0.1%Q) 3) (newGame rngTwins)) = true
  /\ Forall
       (attachedTo
          (segmentsRef
             (track
                (resetGame true
                   (run (repeat (Tick 0.1%Q) 3) (newGame rngTwins))))))
       (obstaclesRef
          (track
             (resetGame true
                (run (repeat (Tick 0.1%Q) 3) (newGame rngTwins))))).
Proof.
  assert (W : worldGroupRef (run (repeat (Tick 0.1%Q) 3) (newGame rngTwins))
              = true) by (vm_compute; reflexivity).
  split; [exact W|].
  destruct (X14_reset_clears_the_track true _ W) as (_ & _ & _ & H & _).
  exact H.
Defined.

(** * Properties of the audio system *)

(** ** The sequencer *)

Lemma sixteenth_value : (sixteenth == 15 # 128)%Q.
Proof. reflexivity. Qed.

Lemma nextBeat_range (b : Z) : 0 <= b < 16 -> 0 <= nextBeat b < 16.
Proof.
  intro H. unfold nextBeat. destruct (Z.eqb_spec (b + 1) 16); lia.
Qed.

Lemma nextBeat_mod (b : Z) : 0 <= b < 16 -> nextBeat b = (b + 1) mod 16.
Proof.
  intro H. unfold nextBeat. destruct (Z.eqb_spec (b + 1) 16) as [E | E].
  - rewrite E. reflexivity.
  - symmetry. apply Z.mod_small. lia.
Qed.

Lemma currentTrack_defined (a : AudioSystem) :
  0 <= currentTrackIndex a < 3 -> exists tr, currentTrack a = Some tr.
Proof.
  intro H. unfold currentTrack.
  destruct (Z.ltb_spec (currentTrackIndex a) 0); [lia|].
  assert (C : currentTrackIndex a = 0 \/ currentTrackIndex a = 1
              \/ currentTrackIndex a = 2) by lia.
  destruct C as [-> | [-> | ->]]; eexists; reflexivity.
Qed.

Lemma nextNote_sameTransport (a : AudioSystem) : sameTransport a (nextNote a).
Proof. repeat split. Qed.

Lemma scheduleNote_spec (b : Z) (t : Q) (a : AudioSystem) (tr : TrackDef) :
  currentTrack a = Some tr ->
  exists a',
    scheduleNote b t a = Some a'
    /\ sameTransport a a'
    /\ nextNoteTime a' = nextNoteTime a
    /\ current16thNote a' = current16thNote a
    /\ scheduled a' =
       scheduled a
       ++ (if isMusicMuted a || negb (ctxReady a) then []
           else map (fun v => (v, t)) (voicesOf tr b)).
Proof.
  intro H. unfold scheduleNote.
  destruct (isMusicMuted a || negb (ctxReady a)).
  - exists a. rewrite app_nil_r. repeat split.
  - rewrite H. eexists. split; [reflexivity|]. repeat split.
Qed.

Lemma sameTransport_trans (a b c : AudioSystem) :
  sameTransport a b -> sameTransport b c -> sameTransport a c.
Proof.
  unfold sameTransport.
  intros (A1 & A2 & A3 & A4 & A5 & A6 & A7 & A8 & A9)
         (B1 & B2 & B3 & B4 & B5 & B6 & B7 & B8 & B9).
  repeat split; congruence.
Qed.

Lemma sameTransport_track (a b : AudioSystem) :
  sameTransport a b -> currentTrack b = currentTrack a.
Proof.
  intros (_ & _ & _ & H & _). unfold currentTrack. rewrite H. reflexivity.
Qed.

(** The loop with enough rounds: it ends on its condition after [k] notes. *)
Lemma schedulerLoop_spec (fuel : nat) (now : Q) (a : AudioSystem)
  (tr : TrackDef) :
  currentTrack a = Some tr ->
  (now + scheduleAheadTime - nextNoteTime a
   <= inject_Z (Z.of_nat fuel) * sixteenth)%Q ->
  exists k a',
    schedulerLoop (S fuel) now a = Some a'
    /\ ltQ (nextNoteTime a') (now + scheduleAheadTime) = false
    /\ (nextNoteTime a'
        == nextNoteTime a + inject_Z (Z.of_nat k) * sixteenth)%Q
    /\ current16thNote a' = Nat.iter k nextBeat (current16thNote a)
    /\ sameTransport a a'
    /\ scheduled a' =
       scheduled a
       ++ (if isMusicMuted a || negb (ctxReady a) then []
           else notesFrom tr k (current16thNote a) (nextNoteTime a))
    /\ (ltQ (nextNoteTime a) (now + scheduleAheadTime) = false -> a' = a)
    /\ (k <= fuel)%nat
    /\ (forall j, (j < k)%nat ->
         (nextNoteTime a + inject_Z (Z.of_nat j) * sixteenth
          < now + scheduleAheadTime)%Q).
Proof.
  revert a. induction fuel as [| fuel IH]; intros a Htr Hfuel.
  - assert (E : ltQ (nextNoteTime a) (now + scheduleAheadTime) = false).
    { apply ltQ_false. change (inject_Z (Z.of_nat 0)) with 0%Q in Hfuel.
      lra. }
    exists 0%nat, a.
    split; [simpl; rewrite E; reflexivity|]. split; [exact E|].
    split; [simpl; ring|]. split; [reflexivity|].
    split; [repeat split|].
    split; [destruct (isMusicMuted a || negb (ctxReady a));
            rewrite app_nil_r; reflexivity|].
    split; [reflexivity|]. split; [lia | intros j Hj; lia].
  - change (schedulerLoop (S (S fuel)) now a)
      with (if ltQ (nextNoteTime a) (now + scheduleAheadTime) then
              match scheduleNote (current16thNote a) (nextNoteTime a) a with
              | Some a' => schedulerLoop (S fuel) now (nextNote a')
              | None => None
              end
            else Some a).
    destruct (ltQ (nextNoteTime a) (now + scheduleAheadTime)) eqn:E.
    + destruct (scheduleNote_spec (current16thNote a) (nextNoteTime a) a tr
                  Htr) as (a1 & S1 & T1 & N1 & B1 & V1).
      rewrite S1.
      assert (Htr' : currentTrack (nextNote a1) = Some tr).
      { rewrite (sameTransport_track a1 (nextNote a1)
                   (nextNote_sameTransport a1)).
        rewrite (sameTransport_track a a1 T1). exact Htr. }
      assert (Hf' : (now + scheduleAheadTime - nextNoteTime (nextNote a1)
                     <= inject_Z (Z.of_nat fuel) * sixteenth)%Q).
      { change (nextNoteTime (nextNote a1))
          with (nextNoteTime a1 + sixteenth)%Q.
        rewrite N1. rewrite Nat2Z.inj_succ in Hfuel. unfold Z.succ in Hfuel.
        rewrite inject_Z_plus in Hfuel.
        change (inject_Z 1) with 1%Q in Hfuel.
        revert Hfuel. generalize (inject_Z (Z.of_nat fuel)). intros q Hq.
        rewrite sixteenth_value in *. lra. }
      destruct (IH (nextNote a1) Htr' Hf')
        as (k & a' & L & X & T & B & ST & V & _ & K & Least).
      exists (S k), a'. split; [exact L|]. split; [exact X|].
      split.
      { rewrite T. change (nextNoteTime (nextNote a1))
          with (nextNoteTime a1 + sixteenth)%Q.
        rewrite N1, Nat2Z.inj_succ. unfold Z.succ. rewrite inject_Z_plus.
        change (inject_Z 1) with 1%Q. ring. }
      split.
      { rewrite B. change (current16thNote (nextNote a1))
          with (nextBeat (current16thNote a1)).
        rewrite B1. rewrite <- Nat.iter_succ_r. reflexivity. }
      split.
      { eapply sameTransport_trans; [exact T1|].
        eapply sameTransport_trans; [apply nextNote_sameTransport | exact ST]. }
      split.
      { rewrite V. change (scheduled (nextNote a1)) with (scheduled a1).
        rewrite V1.
        change (isMusicMuted (nextNote a1)) with (isMusicMuted a1).
        change (ctxReady (nextNote a1)) with (ctxReady a1).
        destruct T1 as (C1 & _ & _ & _ & M1 & _). rewrite C1, M1.
        change (current16thNote (nextNote a1))
          with (nextBeat (current16thNote a1)).
        change (nextNoteTime (nextNote a1))
          with (nextNoteTime a1 + sixteenth)%Q.
        rewrite B1, N1.
        destruct (isMusicMuted a || negb (ctxReady a));
          [rewrite !app_nil_r; reflexivity|].
        rewrite <- app_assoc. reflexivity. }
      split; [discriminate|]. split; [lia|].
      intros [| j] Hj.
      { apply ltQ_true in E. change (inject_Z (Z.of_nat 0)) with 0%Q.
        lra. }
      assert (Hj' : (j < k)%nat) by lia.
      specialize (Least j Hj').
      change (nextNoteTime (nextNote a1))
        with (nextNoteTime a1 + sixteenth)%Q in Least.
      rewrite N1 in Least.
      rewrite Nat2Z.inj_succ. unfold Z.succ. rewrite inject_Z_plus.
      change (inject_Z 1) with 1%Q.
      revert Least. generalize (inject_Z (Z.of_nat j)). intros q Hq.
      lra.
    + exists 0%nat, a.
      split; [reflexivity|]. split; [exact E|].
      split; [simpl; ring|]. split; [reflexivity|].
      split; [repeat split|].
      split; [destruct (isMusicMuted a || negb (ctxReady a));
              rewrite app_nil_r; reflexivity|].
      split; [reflexivity|]. split; [lia | intros j Hj; lia].
Qed.

Lemma schedulerFuel_enough (now : Q) (a : AudioSystem) :
  exists fuel,
    schedulerFuel now a = S fuel
    /\ (now + scheduleAheadTime - nextNoteTime a
        <= inject_Z (Z.of_nat fuel) * sixteenth)%Q.
Proof.
  unfold schedulerFuel. fold sixteenth.
  set (x := (now + scheduleAheadTime - nextNoteTime a)%Q).
  exists (Z.to_nat (Qceiling (x / sixteenth))). split; [reflexivity|].
  assert (P : (0 < sixteenth)%Q) by reflexivity.
  assert (Hx : (x == x / sixteenth * sixteenth)%Q)
    by (field; intro Hz; rewrite Hz in P; exact (Qlt_irrefl 0 P)).
  destruct (Z_le_gt_dec 0 (Qceiling (x / sixteenth))) as [C | C].
  - rewrite Z2Nat.id by exact C. rewrite Hx at 1.
    apply Qmult_le_compat_r; [apply Qle_ceiling | apply Qlt_le_weak, P].
  - assert (Z.to_nat (Qceiling (x / sixteenth)) = 0%nat) as -> by lia.
    change (inject_Z (Z.of_nat 0)) with 0%Q. rewrite Qmult_0_l.
    assert (N : (x / sixteenth <= 0)%Q).
    { eapply Qle_trans; [apply Qle_ceiling|].
      change 0%Q with (inject_Z 0). rewrite <- Zle_Qle. lia. }
    rewrite Hx.
    setoid_replace 0%Q with (0 * sixteenth)%Q by ring.
    apply Qmult_le_compat_r; [exact N | apply Qlt_le_weak, P].
Qed.

Lemma iter_nextBeat (k : nat) (b : Z) :
  0 <= b < 16 -> Nat.iter k nextBeat b = (b + Z.of_nat k) mod 16.
Proof.
  intro H. induction k as [| k IH].
  - simpl. rewrite Z.add_0_r. symmetry. apply Z.mod_small. exact H.
  - rewrite Nat.iter_succ, IH.
    rewrite nextBeat_mod by (apply Z.mod_pos_bound; lia).
    rewrite Zplus_mod_idemp_l. f_equal. lia.
Qed.

Lemma iter_nextNote_beat (k : nat) (a : AudioSystem) :
  current16thNote (Nat.iter k nextNote a)
  = Nat.iter k nextBeat (current16thNote a).
Proof.
  induction k as [| k IH]; [reflexivity|].
  rewrite !Nat.iter_succ, <- IH. reflexivity.
Qed.

Lemma iter_nextNote_time (k : nat) (a : AudioSystem) :
  (nextNoteTime (Nat.iter k nextNote a)
   == nextNoteTime a + inject_Z (Z.of_nat k) * sixteenth)%Q.
Proof.
  induction k as [| k IH].
  - simpl. ring.
  - rewrite Nat.iter_succ.
    change (nextNoteTime (nextNote (Nat.iter k nextNote a)))
      with (nextNoteTime (Nat.iter k nextNote a) + sixteenth)%Q.
    rewrite IH, Nat2Z.inj_succ. unfold Z.succ. rewrite inject_Z_plus.
    change (inject_Z 1) with 1%Q. ring.
Qed.

(** X17. nextNote counts the sixteenth notes of a bar: from a beat in 0..15,
    k calls leave the beat (beat + k) mod 16 and move nextNoteTime forward by
    k times 15/128 s (a sixteenth note at 128 beats per minute), so the beat
    never leaves 0..15 and sixteen calls come back to the same beat 1.875 s
    later. *)
Theorem X17_bar_of_sixteen (a : AudioSystem) (k : nat)
  (Hbeat : 0 <= current16thNote a < 16) :
  current16thNote (Nat.iter k nextNote a)
  = (current16thNote a + Z.of_nat k) mod 16
  /\ 0 <= current16thNote (Nat.iter k nextNote a) < 16
  /\ (nextNoteTime (Nat.iter k nextNote a)
      == nextNoteTime a + inject_Z (Z.of_nat k) * (15 # 128))%Q
  /\ current16thNote (Nat.iter 16 nextNote a) = current16thNote a
  /\ (nextNoteTime (Nat.iter 16 nextNote a) == nextNoteTime a + 1.875)%Q.
Proof.
  assert (B : forall n, current16thNote (Nat.iter n nextNote a)
                        = (current16thNote a + Z.of_nat n) mod 16).
  { intro n. rewrite iter_nextNote_beat. apply iter_nextBeat. exact Hbeat. }
  split; [apply B|].
  split; [rewrite B; apply Z.mod_pos_bound; lia|].
  split; [rewrite iter_nextNote_time, sixteenth_value; reflexivity|].
  split.
  - rewrite B. change (Z.of_nat 16) with (1 * 16).
    rewrite Z.mod_add by lia. apply Z.mod_small. exact Hbeat.
  - rewrite iter_nextNote_time, sixteenth_value.
    change (inject_Z (Z.of_nat 16)) with 16%Q. lra.
Qed.

Lemma X17_bar_of_sixteen_witness :
  current16thNote (Nat.iter 5 nextNote newAudioSystem) = 5
  /\ current16thNote (Nat.iter 16 nextNote newAudioSystem) = 0.
Proof.
  destruct (X17_bar_of_sixteen newAudioSystem 5) as (H & _ & _ & H16 & _).
  - simpl. lia.
  - split; [exact H | exact H16].
Defined.

(** ** The scheduler *)

Lemma scheduler_spec (now : Q) (a : AudioSystem) (tr : TrackDef) :
  ctxReady a = true ->
  currentTrack a = Some tr ->
  exists k a',
    scheduler now a = Some a'
    /\ ltQ (nextNoteTime a') (now + scheduleAheadTime) = false
    /\ (nextNoteTime a'
        == nextNoteTime a + inject_Z (Z.of_nat k) * sixteenth)%Q
    /\ current16thNote a' = Nat.iter k nextBeat (current16thNote a)
    /\ sameTransport a a'
    /\ scheduled a' =
       scheduled a
       ++ (if isMusicMuted a || negb (ctxReady a) then []
           else notesFrom tr k (current16thNote a) (nextNoteTime a))
    /\ (ltQ (nextNoteTime a) (now + scheduleAheadTime) = false -> a' = a)
    /\ (forall j, (j < k)%nat ->
         (nextNoteTime a + inject_Z (Z.of_nat j) * sixteenth
          < now + scheduleAheadTime)%Q).
Proof.
  intros C Htr.
  destruct (schedulerFuel_enough now a) as (fuel & F & Hf).
  destruct (schedulerLoop_spec fuel now a tr Htr Hf)
    as (k & a' & L & X & T & B & ST & V & I & _ & Least).
  exists k, a'.
  split; [unfold scheduler; rewrite C, F; exact L|].
  split; [exact X|]. split; [exact T|]. split; [exact B|].
  split; [exact ST|]. split; [exact V|]. split; [exact I | exact Least].
Qed.

Lemma sameTransport_inv (a b : AudioSystem) :
  sameTransport a b -> 0 <= current16thNote b < 16 ->
  audioInv a -> audioInv b.
Proof.
  intros (C & P & I & X & _ & _ & T & N & _) B (I1 & _ & I3 & I4).
  unfold audioInv. rewrite C, P, I, X, T, N.
  split; [exact I1|]. split; [exact B|]. split; [exact I3 | exact I4].
Qed.

Lemma scheduler_inv (now : Q) (a : AudioSystem) :
  audioInv a -> ctxReady a = true ->
  exists a', scheduler now a = Some a' /\ audioInv a'
             /\ sameTransport a a'
             /\ (isMusicMuted a = true -> scheduled a' = scheduled a)
             /\ exists l, scheduled a' = scheduled a ++ l.
Proof.
  intros I C. pose proof I as (I1 & I2 & _).
  destruct (currentTrack_defined a I1) as (tr & Htr).
  destruct (scheduler_spec now a tr C Htr)
    as (k & a' & S & _ & _ & B & ST & V & _).
  exists a'. split; [exact S|].
  split.
  { apply (sameTransport_inv a a' ST); [|exact I].
    rewrite B, iter_nextBeat by exact I2. apply Z.mod_pos_bound. lia. }
  split; [exact ST|].
  split.
  - intro M. rewrite V, M. simpl. apply app_nil_r.
  - eexists. exact V.
Qed.

(** ** The transport *)

Lemma newAudioSystem_inv : audioInv newAudioSystem.
Proof.
  unfold audioInv. simpl. repeat split; try lia. right. repeat split.
Qed.

Lemma resume_playing (now : Q) (a : AudioSystem) :
  ctxReady a = true -> isPlaying a = true -> resume now a = a.
Proof.
  intros C P. unfold resume, init. rewrite C. cbv zeta. rewrite P.
  reflexivity.
Qed.

Lemma resume_inv (now : Q) (a : AudioSystem) :
  audioInv a ->
  audioInv (resume now a)
  /\ isPlaying (resume now a) = true
  /\ scheduled (resume now a) = scheduled a
  /\ played (resume now a) = played a
  /\ currentTrackIndex (resume now a) = currentTrackIndex a
  /\ current16thNote (resume now a) = current16thNote a.
Proof.
  intros (I1 & I2 & I3 & [(P & C & id & SI & TI & R) | (P & SI & TI)]).
  - rewrite (resume_playing now a C P).
    split; [|repeat split; exact P].
    unfold audioInv. repeat split; try lia. left.
    split; [exact P|]. split; [exact C|]. exists id. repeat split; tauto || lia.
  - assert (E : resume now a =
                {| ctxReady := true; isPlaying := true;
                   schedulerInterval := Some (nextTimer a);
                   currentTrackIndex := currentTrackIndex a;
                   nextNoteTime := (now + 0.1)%Q;
                   current16thNote := current16thNote a;
                   isMusicMuted := isMusicMuted a;
                   isSfxMuted := isSfxMuted a;
                   musicGainValue := musicGainValue (init a);
                   sfxGainValue := sfxGainValue (init a);
                   timers := [nextTimer a]; nextTimer := S (nextTimer a);
                   scheduled := scheduled a; played := played a |}).
    { unfold resume, init.
      destruct (ctxReady a) eqn:C; cbv zeta; cbn [isPlaying]; rewrite P;
        cbn; rewrite ?C, TI; reflexivity. }
    rewrite E. split; [|repeat split].
    unfold audioInv. cbn.
    split; [exact I1|]. split; [exact I2|]. split; [lia|].
    left. split; [reflexivity|]. split; [reflexivity|].
    exists (nextTimer a). repeat split; lia.
Qed.

Lemma pause_inv (a : AudioSystem) :
  audioInv a ->
  audioInv (pause a)
  /\ isPlaying (pause a) = false
  /\ timers (pause a) = []
  /\ (isPlaying a = false -> pause a = a).
Proof.
  intros (I1 & I2 & I3 & [(P & C & id & SI & TI & R) | (P & SI & TI)]).
  - assert (T : timers (pause a) = []).
    { unfold pause. cbn. rewrite SI, TI. destruct id as [| id']; [lia|].
      unfold clearInterval. cbn. rewrite Nat.eqb_refl. reflexivity. }
    assert (S0 : schedulerInterval (pause a) = None).
    { unfold pause. cbn. rewrite SI. destruct id as [| id']; [lia|].
      reflexivity. }
    split.
    { unfold audioInv. rewrite T, S0.
      split; [exact I1|]. split; [exact I2|]. split; [exact I3|].
      right. repeat split. }
    split; [reflexivity|]. split; [exact T|].
    intro H. congruence.
  - assert (E : pause a = a).
    { unfold pause. rewrite SI. destruct a. cbn in *. subst. reflexivity. }
    rewrite E.
    split.
    { unfold audioInv. split; [exact I1|]. split; [exact I2|].
      split; [exact I3|]. right. repeat split; assumption. }
    split; [exact P|]. split; [exact TI|]. intros _. reflexivity.
Qed.

Lemma nextTrack_index (a : AudioSystem) :
  0 <= currentTrackIndex a < 3 ->
  currentTrackIndex (nextTrack a) = (currentTrackIndex a + 1) mod 3
  /\ currentTrackIndex (prevTrack a) = (currentTrackIndex a + 2) mod 3.
Proof.
  intro H. unfold nextTrack, prevTrack. cbn.
  assert (C : currentTrackIndex a = 0 \/ currentTrackIndex a = 1
              \/ currentTrackIndex a = 2) by lia.
  destruct C as [-> | [-> | ->]]; split; reflexivity.
Qed.

Lemma setTrackIndex_inv (a : AudioSystem) (i : Z) :
  0 <= i < 3 -> audioInv a -> audioInv (setTrackIndex a i).
Proof.
  intros Hi (I1 & I2 & I3 & I4). unfold audioInv. cbn.
  split; [exact Hi|]. split; [exact I2|]. split; [exact I3 | exact I4].
Qed.

Lemma setTrackIndex_same (a : AudioSystem) :
  setTrackIndex a (currentTrackIndex a) = a.
Proof. destruct a. reflexivity. Qed.

Lemma setTrackIndex_twice (a : AudioSystem) (i j : Z) :
  setTrackIndex (setTrackIndex a i) j = setTrackIndex a j.
Proof. reflexivity. Qed.

Lemma nextTrack_inv (a : AudioSystem) :
  audioInv a -> audioInv (nextTrack a) /\ audioInv (prevTrack a).
Proof.
  intro I. pose proof I as (I1 & _).
  destruct (nextTrack_index a I1) as (N & P).
  split.
  - apply setTrackIndex_inv; [|exact I].
    change (Z.rem (currentTrackIndex a + 1) (Z.of_nat (length tracks)))
      with (currentTrackIndex (nextTrack a)).
    rewrite N. apply Z.mod_pos_bound. lia.
  - apply setTrackIndex_inv; [|exact I].
    change (Z.rem (currentTrackIndex a - 1 + Z.of_nat (length tracks))
              (Z.of_nat (length tracks)))
      with (currentTrackIndex (prevTrack a)).
    rewrite P. apply Z.mod_pos_bound. lia.
Qed.

Lemma toggleMute_inv (a : AudioSystem) :
  audioInv a ->
  audioInv (snd (toggleMusicMute a)) /\ audioInv (snd (toggleSfxMute a)).
Proof. intro I. split; exact I. Qed.

Lemma playSfx_inv (s : Sfx) (a : AudioSystem) :
  audioInv a -> audioInv (playSfx s a).
Proof.
  intro I. unfold playSfx.
  destruct (isSfxMuted a || negb (ctxReady a)); exact I.
Qed.

Lemma playSfx_played (s : Sfx) (a : AudioSystem) :
  played (playSfx s a)
  = played a ++ (if isSfxMuted a || negb (ctxReady a) then [] else [s])
  /\ scheduled (playSfx s a) = scheduled a.
Proof.
  unfold playSfx. destruct (isSfxMuted a || negb (ctxReady a)).
  - rewrite app_nil_r. split; reflexivity.
  - split; reflexivity.
Qed.

(** Every call keeps the invariant, never throws, never removes a scheduled
    voice or a played effect, and adds none of a muted kind. *)
Lemma audioCall_inv (c : AudioCall) (a : AudioSystem) :
  audioInv a ->
  exists a',
    audioCall c a = Some a' /\ audioInv a'
    /\ (isMusicMuted a = true -> scheduled a' = scheduled a)
    /\ (isSfxMuted a = true -> played a' = played a)
    /\ (exists l, scheduled a' = scheduled a ++ l)
    /\ (exists l, played a' = played a ++ l).
Proof.
  intro I.
  assert (Same : forall a' : AudioSystem,
             audioInv a' -> scheduled a' = scheduled a ->
             played a' = played a ->
             exists b, Some a' = Some b /\ audioInv b
               /\ (isMusicMuted a = true -> scheduled b = scheduled a)
               /\ (isSfxMuted a = true -> played b = played a)
               /\ (exists l, scheduled b = scheduled a ++ l)
               /\ (exists l, played b = played a ++ l)).
  { intros a' I' S P. exists a'. split; [reflexivity|]. split; [exact I'|].
    split; [intros _; exact S|]. split; [intros _; exact P|].
    split; exists []; rewrite app_nil_r; assumption. }
  destruct c as [now | | now | | | | | s | now]; cbn [audioCall].
  - destruct (resume_inv now a I) as (R & _ & S & P & _). apply Same; assumption.
  - apply Same; [apply pause_inv; exact I | reflexivity | reflexivity].
  - unfold togglePlayback. destruct (isPlaying a).
    + apply Same; [apply pause_inv; exact I | reflexivity | reflexivity].
    + destruct (resume_inv now a I) as (R & _ & S & P & _).
      apply Same; assumption.
  - apply Same; [apply nextTrack_inv; exact I | reflexivity | reflexivity].
  - apply Same; [apply nextTrack_inv; exact I | reflexivity | reflexivity].
  - apply Same; [apply toggleMute_inv; exact I | reflexivity | reflexivity].
  - apply Same; [apply toggleMute_inv; exact I | reflexivity | reflexivity].
  - destruct (playSfx_played s a) as (P & S).
    exists (playSfx s a). split; [reflexivity|].
    split; [apply playSfx_inv; exact I|].
    split; [intros _; exact S|].
    split; [intro M; rewrite P, M; apply app_nil_r|].
    split; [exists []; rewrite app_nil_r; exact S|].
    eexists. exact P.
  - pose proof I as (_ & _ & _ & [(P & C & id & SI & TI & R) | (P & SI & TI)]).
    + rewrite TI. cbn [length fireAll].
      destruct (scheduler_inv now a I C) as (a' & S & I' & ST & M & L).
      rewrite S. exists a'. split; [reflexivity|]. split; [exact I'|].
      split; [exact M|].
      destruct ST as (_ & _ & _ & _ & _ & _ & _ & _ & Pl).
      split; [intros _; exact Pl|]. split; [exact L|].
      exists []. rewrite app_nil_r. exact Pl.
    + rewrite TI. cbn [length fireAll].
      apply Same; [exact I | reflexivity | reflexivity].
Qed.

Lemma audioRun_inv (calls : list AudioCall) (a : AudioSystem) :
  audioInv a -> exists a', audioRun calls a = Some a' /\ audioInv a'.
Proof.
  revert a. induction calls as [| c rest IH]; intros a I.
  - exists a. split; [reflexivity | exact I].
  - destruct (audioCall_inv c a I) as (a1 & E & I1 & _).
    cbn [audioRun]. rewrite E. apply IH. exact I1.
Qed.

(** X15. The music transport: whatever methods are called and whenever the
    interval fires, nothing throws (scheduler always finds an audio context
    and a track), and there is exactly one live scheduler interval while
    isPlaying is set and none otherwise.  resume() while playing changes
    nothing, pause() while paused changes nothing, resume() always leaves
    the system playing with one interval and pause() leaves none; a pause
    followed by resume goes on from the same beat of the same track, with
    the next note due 0.1 s after the resume. *)
Theorem X15_one_scheduler_interval (calls : list AudioCall) :
  exists a,
    audioRun calls newAudioSystem = Some a
    /\ audioInv a
    /\ (isPlaying a = true -> length (timers a) = 1%nat)
    /\ (isPlaying a = false -> timers a = [])
    /\ (isPlaying a = true -> forall now, resume now a = a)
    /\ (isPlaying a = false -> pause a = a)
    /\ (forall now, isPlaying (resume now a) = true
                    /\ length (timers (resume now a)) = 1%nat)
    /\ (isPlaying (pause a) = false /\ timers (pause a) = [])
    /\ (forall now,
          current16thNote (resume now (pause a)) = current16thNote a
          /\ currentTrackIndex (resume now (pause a)) = currentTrackIndex a
          /\ nextNoteTime (resume now (pause a)) = (now + 0.1)%Q).
Proof.
  destruct (audioRun_inv calls newAudioSystem newAudioSystem_inv)
    as (a & R & I).
  exists a. split; [exact R|]. split; [exact I|].
  pose proof I as (_ & _ & _ & J).
  destruct (pause_inv a I) as (IP & PP & TP & PE).
  split.
  { intro P. destruct J as [(_ & _ & id & _ & TI & _) | (P' & _)];
      [rewrite TI; reflexivity | congruence]. }
  split.
  { intro P. destruct J as [(P' & _) | (_ & _ & TI)];
      [congruence | exact TI]. }
  split.
  { intros P now. destruct J as [(_ & C & _) | (P' & _)];
      [apply resume_playing; assumption | congruence]. }
  split; [exact PE|].
  split.
  { intro now. destruct (resume_inv now a I) as (IR & PR & _).
    split; [exact PR|].
    destruct IR as (_ & _ & _ & [(_ & _ & id & _ & TI & _) | (P' & _)]);
      [rewrite TI; reflexivity | congruence]. }
  split; [split; assumption|].
  intro now.
  destruct (resume_inv now (pause a) IP) as (_ & _ & _ & _ & X & B).
  split; [rewrite B; reflexivity|]. split; [rewrite X; reflexivity|].
  unfold resume, init.
  destruct (ctxReady (pause a)); cbv zeta; cbn [isPlaying]; rewrite PP;
    reflexivity.
Qed.

(** X16. Track selection: over any calls the track index is 0, 1 or 2, so
    getCurrentTrackName never reads past the track list; nextTrack and
    prevTrack are inverse to each other, three nextTrack calls (or three
    prevTrack calls) come back to the same track, and a track change touches
    nothing else: the sequencer goes on at the same beat of the new
    track. *)
Theorem X16_track_selection (calls : list AudioCall) :
  exists a,
    audioRun calls newAudioSystem = Some a
    /\ 0 <= currentTrackIndex a < 3
    /\ (exists n, getCurrentTrackName a = Some n)
    /\ prevTrack (nextTrack a) = a
    /\ nextTrack (prevTrack a) = a
    /\ nextTrack (nextTrack (nextTrack a)) = a
    /\ prevTrack (prevTrack (prevTrack a)) = a
    /\ nextTrack a = setTrackIndex a ((currentTrackIndex a + 1) mod 3)
    /\ prevTrack a = setTrackIndex a ((currentTrackIndex a + 2) mod 3).
Proof.
  destruct (audioRun_inv calls newAudioSystem newAudioSystem_inv)
    as (a & R & I).
  exists a. split; [exact R|].
  pose proof I as (I1 & _). split; [exact I1|].
  split.
  { destruct (currentTrack_defined a I1) as (tr & E).
    exists (name tr). unfold getCurrentTrackName. rewrite E. reflexivity. }
  assert (C : currentTrackIndex a = 0 \/ currentTrackIndex a = 1
              \/ currentTrackIndex a = 2) by lia.
  unfold nextTrack, prevTrack.
  destruct a as [c p si i t b mm sm mg sg ts nt sc pl]. cbn in C |- *.
  destruct C as [-> | [-> | ->]]; repeat split.
Qed.

(** X18. One run of scheduler() at context time now, in exact arithmetic:
    with an audio context and a valid track index the loop ends, after k
    rounds, where k is the least number of sixteenth notes (15/128 s each)
    that brings nextNoteTime to now + 0.1 or later; the beat advances by k
    modulo 16 and nothing else of the transport changes.  The run adds the
    voices of those k sixteenth notes of the current track, each at its own
    note time, or nothing when the music is muted: muting does not stop the
    sequencer, only its sound.  A run that finds nextNoteTime already at
    now + 0.1 or later changes nothing. *)
Theorem X18_scheduler_run (now : Q) (a : AudioSystem)
  (Hinv : audioInv a) (Hctx : ctxReady a = true) :
  exists k a' tr,
    currentTrack a = Some tr
    /\ scheduler now a = Some a'
    /\ (now + 0.1 <= nextNoteTime a')%Q
    /\ (nextNoteTime a'
        == nextNoteTime a + inject_Z (Z.of_nat k) * (15 # 128))%Q
    /\ (forall j, (j < k)%nat ->
          (nextNoteTime a + inject_Z (Z.of_nat j) * (15 # 128)
           < now + 0.1)%Q)
    /\ current16thNote a' = (current16thNote a + Z.of_nat k) mod 16
    /\ sameTransport a a'
    /\ scheduled a' =
       scheduled a
       ++ (if isMusicMuted a then []
           else notesFrom tr k (current16thNote a) (nextNoteTime a))
    /\ ((now + 0.1 <= nextNoteTime a)%Q -> a' = a)
    /\ audioInv a'.
Proof.
  pose proof Hinv as (I1 & I2 & _).
  destruct (currentTrack_defined a I1) as (tr & Htr).
  destruct (scheduler_spec now a tr Hctx Htr)
    as (k & a' & S & X & T & B & ST & V & I & Least).
  exists k, a', tr. split; [exact Htr|]. split; [exact S|].
  split; [apply ltQ_false in X; exact X|].
  split; [rewrite T, sixteenth_value; reflexivity|].
  split.
  { intros j Hj. specialize (Least j Hj).
    rewrite sixteenth_value in Least. exact Least. }
  assert (B' : current16thNote a' = (current16thNote a + Z.of_nat k) mod 16)
    by (rewrite B; apply iter_nextBeat; exact I2).
  split; [exact B'|]. split; [exact ST|].
  split.
  { rewrite V, Hctx. cbn [negb]. rewrite orb_false_r. reflexivity. }
  split; [intro H; apply I, ltQ_false; exact H|].
  apply (sameTransport_inv a a' ST); [|exact Hinv].
  rewrite B'. apply Z.mod_pos_bound. lia.
Qed.

Lemma X18_scheduler_run_witness :
  exists a',
    scheduler 0.3 (resume 0 newAudioSystem) = Some a'
    /\ (0.3 + 0.1 <= nextNoteTime a')%Q.
Proof.
  destruct (X18_scheduler_run 0.3 (resume 0 newAudioSystem))
    as (k & a' & tr & _ & S & X & _).
  - unfold audioInv. cbn. repeat split; try lia.
    left. repeat split. exists 1%nat. repeat split; lia.
  - reflexivity.
  - exists a'. split; [exact S | exact X].
Defined.

(** X19. Muting: a call of the audio system never removes a scheduled voice
    or a played effect; while the music is muted no call schedules a voice
    and while the effects are muted no call plays one, and before the first
    resume() (no audio context) no effect is played either.  The toggles
    return the new flag and two toggles restore it.  A gain node follows its
    flag (0 when muted, 1 otherwise) at every toggle made once the context
    exists; a toggle made before that reaches no node, and init() then
    creates both nodes with the gain 1 whatever the flags say. *)
Theorem X19_muting (c : AudioCall) (a : AudioSystem) (Hinv : audioInv a) :
  (exists a',
     audioCall c a = Some a'
     /\ (isMusicMuted a = true -> scheduled a' = scheduled a)
     /\ (isSfxMuted a = true -> played a' = played a)
     /\ (ctxReady a = false -> forall s, c = CallPlay s ->
                               played a' = played a)
     /\ (exists l, scheduled a' = scheduled a ++ l)
     /\ (exists l, played a' = played a ++ l))
  /\ fst (toggleMusicMute a) = negb (isMusicMuted a)
  /\ isMusicMuted (snd (toggleMusicMute a)) = fst (toggleMusicMute a)
  /\ fst (toggleSfxMute a) = negb (isSfxMuted a)
  /\ isSfxMuted (snd (toggleSfxMute a)) = fst (toggleSfxMute a)
  /\ isMusicMuted (snd (toggleMusicMute (snd (toggleMusicMute a))))
     = isMusicMuted a
  /\ isSfxMuted (snd (toggleSfxMute (snd (toggleSfxMute a))))
     = isSfxMuted a
  /\ (ctxReady a = true ->
      musicGainValue (snd (toggleMusicMute a))
      = (if fst (toggleMusicMute a) then 0 else 1.0)%Q
      /\ sfxGainValue (snd (toggleSfxMute a))
         = (if fst (toggleSfxMute a) then 0 else 1.0)%Q)
  /\ (ctxReady a = false ->
      musicGainValue (init (snd (toggleMusicMute a))) = 1%Q
      /\ sfxGainValue (init (snd (toggleSfxMute a))) = 1%Q
      /\ musicGainValue (snd (toggleMusicMute a)) = musicGainValue a
      /\ sfxGainValue (snd (toggleSfxMute a)) = sfxGainValue a).
Proof.
  split.
  { destruct (audioCall_inv c a Hinv) as (a' & E & _ & M & S & L1 & L2).
    exists a'. split; [exact E|]. split; [exact M|]. split; [exact S|].
    split; [|split; assumption].
    intros C s ->. cbn [audioCall] in E. injection E as <-.
    destruct (playSfx_played s a) as (P & _). rewrite P, C.
    rewrite orb_true_r. apply app_nil_r. }
  split; [reflexivity|]. split; [reflexivity|].
  split; [reflexivity|]. split; [reflexivity|].
  split; [cbn; apply negb_involutive|].
  split; [cbn; apply negb_involutive|].
  split.
  - intro C. cbn. rewrite C. split; reflexivity.
  - intro C. unfold init. cbn. rewrite C. repeat split.
Qed.

Lemma X19_muting_witness :
  exists a',
    audioCall (CallPlay SfxJump) (snd (toggleSfxMute (resume 0 newAudioSystem)))
    = Some a'
    /\ played a' = [].
Proof.
  destruct (X19_muting (CallPlay SfxJump)
              (snd (toggleSfxMute (resume 0 newAudioSystem))))
    as ((a' & E & _ & S & _) & _).
  - unfold audioInv. cbn. repeat split; try lia.
    left. repeat split. exists 1%nat. repeat split; lia.
  - exists a'. split; [exact E | apply S; reflexivity].
Defined.

(** * Properties of the application *)

Lemma run_app (l l' : list Action) (st : Store) :
  run (l ++ l') st = run l' (run l st).
Proof. unfold run. apply fold_left_app. Qed.

Lemma run_laneInv (acts : list Action) (st : Store) :
  laneInv st -> laneInv (run acts st).
Proof.
  revert st. induction acts as [| a rest IH]; intros st H; [exact H|].
  simpl. apply IH. apply perform_laneInv. exact H.
Qed.

Lemma mounted_windowInv (rng : nat -> Q) : windowInv (mounted rng).
Proof.
  split; [reflexivity|].
  unfold mounted, createWorld. cbn [track]. unfold resetGame. cbv zeta.
  cbn [track worldGroupRef initialRefs]. rewrite spawnAll_length.
  reflexivity.
Qed.

Lemma mounted_laneInv (rng : nat -> Q) : laneInv (mounted rng).
Proof. exact (resetGame_laneInv false (initialRefs rng)). Qed.

Lemma perform_plain (a : Action) (st : Store) :
  plainAction a = true ->
  gameStateRef (perform a st) = gameStateRef st
  /\ emptyModeRef (perform a st) = emptyModeRef st.
Proof.
  intro P. destruct a; try discriminate P; unfold perform;
    try (split; reflexivity).
  - split; [apply tick_gameState | apply tick_emptyMode].
  - unfold doJump. destruct (isJumping (player st)); split; reflexivity.
  - unfold syncDebugPhase. destruct (GamePhase_eqb ph (phaseRef st));
      split; reflexivity.
Qed.

Lemma playAll_inv (sfx : list Sfx) (a : AudioSystem) :
  audioInv a -> audioInv (playAll sfx a).
Proof.
  revert a. induction sfx as [| s rest IH]; intros a I; [exact I|].
  apply IH. apply playSfx_inv. exact I.
Qed.

Lemma playSfx_isPlaying (s : Sfx) (a : AudioSystem) :
  isPlaying (playSfx s a) = isPlaying a.
Proof.
  unfold playSfx. destruct (isSfxMuted a || negb (ctxReady a)); reflexivity.
Qed.

Lemma playAll_isPlaying (sfx : list Sfx) (a : AudioSystem) :
  isPlaying (playAll sfx a) = isPlaying a.
Proof.
  revert a. induction sfx as [| s rest IH]; intro a; [reflexivity|].
  change (playAll (s :: rest) a) with (playAll rest (playSfx s a)).
  rewrite IH. apply playSfx_isPlaying.
Qed.

(** ** The invariant *)

Lemma pre_canvas (rng : nat -> Q) (g : GameState) (a : Action) (app : App) :
  plainAction a = true ->
  renderedInv rng g app -> renderedInv rng g (canvas a app).
Proof.
  intros P (R & G & E & A & M).
  destruct (perform_plain a (gameRef app) P) as (PG & PE).
  unfold renderedInv, canvas. cbn [gameRef performed emptyMode audioSystem
                                    menuSelection].
  split; [rewrite run_app, <- R; reflexivity|].
  split; [rewrite PG; exact G|].
  split; [rewrite PE; exact E|].
  split; [apply playAll_inv; exact A | exact M].
Qed.

Lemma pre_audio (rng : nat -> Q) (g : GameState) (a : AudioSystem)
  (app : App) :
  audioInv a -> renderedInv rng g app -> renderedInv rng g (withAudio app a).
Proof.
  intros I (R & G & E & _ & M).
  split; [exact R|]. split; [exact G|]. split; [exact E|].
  split; [exact I | exact M].
Qed.

Lemma pre_selection (rng : nat -> Q) (g : GameState) (s : Z) (app : App) :
  0 <= s <= 1 -> renderedInv rng g app ->
  renderedInv rng g (withMenuSelection app s).
Proof.
  intros S (R & G & E & A & _).
  split; [exact R|]. split; [exact G|]. split; [exact E|].
  split; [exact A | exact S].
Qed.

Lemma pre_handleAction (rng : nat -> Q) (g : GameState) (now : Q)
  (act : option MenuAction) (app : App) :
  renderedInv rng g app -> renderedInv rng g (handleAction now act app).
Proof.
  intro H. pose proof H as (_ & _ & _ & A & _).
  destruct act as [[| | |] |]; unfold handleAction; cbv zeta.
  - apply (pre_canvas rng g StartNewGame); [reflexivity|].
    apply (pre_audio rng g (resume now (audioSystem app)) app);
      [apply resume_inv; exact A | exact H].
  - exact H.
  - apply (pre_audio rng g (pause (audioSystem app)) app);
      [apply pause_inv; exact A | exact H].
  - apply (pre_canvas rng g StartNextLevel); [reflexivity | exact H].
  - exact H.
Qed.

Lemma menu_selection_range (g : GameState) (s : Z) :
  g <> PLAYING -> 0 <= s <= 1 ->
  let n := Z.of_nat (length (menuOptions g)) in
  0 <= Z.rem (s - 1 + n) n < n /\ 0 <= Z.rem (s + 1) n < n /\ 1 <= n <= 2.
Proof.
  intros G S. assert (C : s = 0 \/ s = 1) by lia.
  destruct g; try congruence; destruct C as [-> | ->]; cbn; lia.
Qed.

Lemma pre_onKeyDown (rng : nat -> Q) (g : GameState) (now : Q) (k : Key)
  (r : bool) (app : App) :
  renderedInv rng g app -> renderedInv rng g (onKeyDown now k r app).
Proof.
  intro H. pose proof H as (_ & _ & _ & _ & M).
  assert (Menu : forall g0, g0 <> PLAYING ->
            renderedInv rng g
              (if r then app
               else
                 let n := Z.of_nat (length (menuOptions g0)) in
                 match k with
                 | ArrowUp =>
                     withMenuSelection app
                       (Z.rem (menuSelection app - 1 + n) n)
                 | ArrowDown =>
                     withMenuSelection app (Z.rem (menuSelection app + 1) n)
                 | Enter | Space =>
                     handleAction now (optionAt g0 (menuSelection app)) app
                 | _ => app
                 end)).
  { intros g0 G0. destruct r; [exact H|].
    destruct (menu_selection_range g0 (menuSelection app) G0 M)
      as (U & D & N).
    cbv zeta in U, D, N |- *.
    destruct k; try exact H;
      try (apply pre_selection; [lia | exact H]);
      apply pre_handleAction; exact H. }
  unfold onKeyDown.
  destruct (gameState app); try (apply Menu; discriminate).
  cbv zeta.
  set (a1 := if isLeftKey k && negb (isLeftKeyDown app)
             then canvas MoveLeft
                    (withKeys app (isJumpKeyDown app) true
                       (isRightKeyDown app))
             else app).
  assert (H1 : renderedInv rng g a1).
  { unfold a1. destruct (isLeftKey k && negb (isLeftKeyDown app));
      [apply pre_canvas; [reflexivity | exact H] | exact H]. }
  clearbody a1.
  set (a2 := if isRightKey k && negb (isRightKeyDown a1)
             then canvas MoveRight
                    (withKeys a1 (isJumpKeyDown a1) (isLeftKeyDown a1) true)
             else a1).
  assert (H2 : renderedInv rng g a2).
  { unfold a2. destruct (isRightKey k && negb (isRightKeyDown a1));
      [apply pre_canvas; [reflexivity | exact H1] | exact H1]. }
  clearbody a2.
  set (a3 := if isJumpKey k && negb (isJumpKeyDown a2)
             then canvas Jump
                    (withKeys a2 true (isLeftKeyDown a2) (isRightKeyDown a2))
             else a2).
  assert (H3 : renderedInv rng g a3).
  { unfold a3. destruct (isJumpKey k && negb (isJumpKeyDown a2));
      [apply pre_canvas; [reflexivity | exact H2] | exact H2]. }
  clearbody a3.
  destruct k; exact H3.
Qed.

Lemma pre_handleBtnTouchStart (rng : nat -> Q) (g : GameState) (now : Q)
  (c : Control) (app : App) :
  renderedInv rng g app -> renderedInv rng g (handleBtnTouchStart now c app).
Proof.
  intro H. unfold handleBtnTouchStart.
  destruct (gameState app); destruct c; try exact H;
    try (apply pre_handleAction; exact H);
    (apply pre_canvas; [reflexivity | exact H]).
Qed.

Lemma tick_asked (delta : Q) (st : Store) :
  exists asked,
    stateCalls (session (tick delta st)) = stateCalls (session st) ++ asked
    /\ Forall (fun g => g = LEVEL_COMPLETE \/ g = GAME_OVER) asked
    /\ (gameStateRef st <> PLAYING -> asked = []).
Proof.
  destruct (GameState_eqb (gameStateRef st) PLAYING) eqn:G.
  - assert (G' : gameStateRef st = PLAYING)
      by (destruct (gameStateRef st); try discriminate G; reflexivity).
    rewrite tick_playing, step_playing by exact G'.
    cbv zeta. cbn [session].
    destruct (forEachObstacle_stateCalls (frameOf delta st)
                (frameSession delta st) (obstaclesRef (frameTrack delta st)))
      as (overs & F & E).
    rewrite E. unfold frameSession. cbv zeta.
    destruct (speedTimer_fields delta (session st)) as (_ & _ & _ & A).
    destruct (leQ (timeRef st - delta) 0).
    + exists (LEVEL_COMPLETE :: overs). cbn. rewrite A, <- app_assoc.
      split; [reflexivity|]. split; [|congruence].
      constructor; [left; reflexivity|].
      eapply Forall_impl; [|exact F]. intros g <-. right. reflexivity.
    + exists overs. cbn. rewrite A.
      split; [reflexivity|]. split; [|congruence].
      eapply Forall_impl; [|exact F]. intros g <-. right. reflexivity.
  - assert (G' : gameStateRef st <> PLAYING)
      by (intro X; rewrite X in G; discriminate G).
    exists []. rewrite app_nil_r.
    split; [apply (tick_idle_fields delta st G')|].
    split; [constructor | reflexivity].
Qed.

Lemma last_Forall {A : Type} (P : A -> Prop) (l : list A) (d : A) :
  Forall P l -> l = [] \/ P (last l d).
Proof.
  induction 1 as [| x l Hx Hl IH]; [left; reflexivity|].
  right. destruct l as [| y l']; [exact Hx|].
  change (last (x :: y :: l') d) with (last (y :: l') d).
  destruct IH as [IH | IH]; [discriminate IH | exact IH].
Qed.

Lemma GameState_eqb_spec (a b : GameState) :
  reflect (a = b) (GameState_eqb a b).
Proof. destruct a, b; constructor; congruence. Qed.

Lemma pre_handle (rng : nat -> Q) (g : GameState) (now : Q) (e : AppEvent)
  (app : App) :
  renderedInv rng g app ->
  exists app', handle now e app = Some app' /\ renderedInv rng g app'.
Proof.
  intro H. pose proof H as (R & G & E & A & M).
  destruct e as [k r | k | c | i | i | | | | | | ph | style | b | delta sfx |];
    cbn [handle].
  - eexists. split; [reflexivity | apply pre_onKeyDown; exact H].
  - eexists. split; [reflexivity | exact H].
  - eexists. split; [reflexivity | apply pre_handleBtnTouchStart; exact H].
  - destruct (nth_error (menuOptions (gameState app)) i);
      (eexists; split; [reflexivity|]);
      [apply pre_handleAction; exact H | exact H].
  - destruct (nth_error (menuOptions (gameState app)) i) eqn:N;
      (eexists; split; [reflexivity|]); [|exact H].
    apply pre_selection; [|exact H].
    assert (L : (i < length (menuOptions (gameState app)))%nat)
      by (apply nth_error_Some; congruence).
    destruct (gameState app); cbn in L; lia.
  - eexists. split; [reflexivity|]. unfold togglePlay.
    apply (pre_audio rng g (togglePlayback now (audioSystem app)) app);
      [|exact H].
    unfold togglePlayback. destruct (isPlaying (audioSystem app));
      [apply pause_inv | apply resume_inv]; exact A.
  - eexists. split; [reflexivity|]. apply pre_audio; [|exact H].
    apply toggleMute_inv. exact A.
  - eexists. split; [reflexivity|]. apply pre_audio; [|exact H].
    apply toggleMute_inv. exact A.
  - eexists. split; [reflexivity|]. apply pre_audio; [|exact H].
    apply nextTrack_inv. exact A.
  - eexists. split; [reflexivity|]. apply pre_audio; [|exact H].
    apply nextTrack_inv. exact A.
  - destruct (option_GamePhase_eqb (debugPhase app) ph);
      (eexists; split; [reflexivity|]); [exact H|].
    apply (pre_canvas rng g (PropDebugPhase ph)); [reflexivity | exact H].
  - destruct (RenderStyle_eqb style (renderStyle app));
      (eexists; split; [reflexivity|]); [exact H|].
    apply (pre_canvas rng g PropRenderStyle); [reflexivity | exact H].
  - destruct (Bool.eqb b (emptyMode app));
      (eexists; split; [reflexivity|]); [exact H|].
    unfold renderedInv, canvas, withDebug.
    cbn [gameRef performed emptyMode audioSystem menuSelection playAll
         fold_left].
    split; [rewrite run_app, <- R; reflexivity|].
    split; [exact G|]. split; [reflexivity|]. split; [exact A | exact M].
  - eexists. split; [reflexivity|]. unfold animationFrame. cbv zeta.
    apply (pre_audio rng g
             (playAll sfx (audioSystem (canvas (Tick delta) app)))
             (canvas (Tick delta) app)).
    + apply playAll_inv. exact A.
    + apply (pre_canvas rng g (Tick delta)); [reflexivity | exact H].
  - destruct (audioCall_inv (IntervalFires now) (audioSystem app) A)
      as (a' & C & I & _).
    rewrite C. eexists. split; [reflexivity|].
    apply pre_audio; [exact I | exact H].
Qed.

Lemma musicEffect_state (now : Q) (app : App) :
  gameState (musicEffect now app) = gameState app.
Proof.
  unfold musicEffect. cbv zeta.
  destruct (gameState app) eqn:S; try exact S.
  - destruct (wasPlayingRef app); exact S.
  - destruct (isMusicPlaying app); exact S.
Qed.

Lemma pre_musicEffect (rng : nat -> Q) (g : GameState) (now : Q)
  (app : App) :
  renderedInv rng g app -> renderedInv rng g (musicEffect now app).
Proof.
  intro H. pose proof H as (_ & _ & _ & A & _).
  unfold musicEffect. cbv zeta.
  destruct (gameState app); try exact H.
  - destruct (wasPlayingRef app); [|exact H].
    apply (pre_audio rng g (resume now (audioSystem app)) app);
      [apply resume_inv; exact A | exact H].
  - destruct (isMusicPlaying app); [|exact H].
    apply (pre_audio rng g (pause (audioSystem app)) app);
      [apply pause_inv; exact A | exact H].
Qed.

Lemma commit_inv (rng : nat -> Q) (now : Q) (before app : App) :
  renderedInv rng (gameState before) app ->
  appInv rng (commit now before app).
Proof.
  intro H. unfold commit.
  destruct (GameState_eqb_spec (gameState app) (gameState before)) as [E | E].
  - unfold appInv. rewrite E. exact H.
  - destruct H as (R & G & Em & A & M).
    unfold appInv, gameStateEffects. rewrite musicEffect_state.
    apply pre_musicEffect.
    unfold renderedInv, canvas.
    cbn [gameRef performed emptyMode audioSystem menuSelection playAll
         fold_left gameState].
    split; [rewrite run_app, <- R; reflexivity|].
    split; [reflexivity|]. split; [exact Em|].
    split; [exact A | exact M].
Qed.

Lemma dispatch_inv (rng : nat -> Q) (now : Q) (e : AppEvent) (app : App) :
  appInv rng app ->
  exists app', dispatch now e app = Some app' /\ appInv rng app'.
Proof.
  intro H. destruct (pre_handle rng (gameState app) now e app H)
    as (app1 & E & H1).
  unfold dispatch. rewrite E. eexists. split; [reflexivity|].
  apply commit_inv. exact H1.
Qed.

Lemma appRun_inv (rng : nat -> Q) (trace : list (Q * AppEvent)) (app : App) :
  appInv rng app ->
  exists app', appRun trace app = Some app' /\ appInv rng app'.
Proof.
  revert app. induction trace as [| [now e] rest IH]; intros app H.
  - exists app. split; [reflexivity | exact H].
  - destruct (dispatch_inv rng now e app H) as (app1 & E & H1).
    cbn [appRun]. rewrite E. apply IH. exact H1.
Qed.

Lemma initialApp_inv (rng : nat -> Q) : appInv rng (initialApp rng).
Proof.
  unfold appInv, renderedInv. cbn [initialApp gameRef performed gameState
    emptyMode audioSystem menuSelection].
  split; [reflexivity|]. split; [reflexivity|]. split; [reflexivity|].
  split; [apply newAudioSystem_inv | lia].
Qed.

(** X20. The application as a whole: whatever the events of the keyboard,
    the on-screen controls, the menu, the music player, the debug panel, the
    frames and the sequencer interval, no handler throws, and after every
    event and its render the canvas has seen the application's game state
    and empty-mode flag, the audio system holds exactly the scheduler
    interval it should, and the menu selection is 0 or 1.  The canvas is
    only ever driven through its interface, so what was shown of the
    component alone holds in the application: 40 segments, a target lane
    valid for the phase, a jump height that is never negative, a speed
    multiplier of 1.0 or 0.5. *)
Theorem X20_application_invariants (rng : nat -> Q)
  (trace : list (Q * AppEvent)) :
  exists app,
    appRun trace (initialApp rng) = Some app
    /\ gameRef app = run (performed app) (mounted rng)
    /\ gameStateRef (gameRef app) = gameState app
    /\ emptyModeRef (gameRef app) = emptyMode app
    /\ audioInv (audioSystem app)
    /\ 0 <= menuSelection app <= 1
    /\ windowInv (gameRef app)
    /\ laneInv (gameRef app)
    /\ jumpInv (player (gameRef app))
    /\ speedInv (session (gameRef app)).
Proof.
  destruct (appRun_inv rng trace (initialApp rng) (initialApp_inv rng))
    as (app & E & (R & G & Em & A & M)).
  exists app. split; [exact E|]. split; [exact R|]. split; [exact G|].
  split; [exact Em|]. split; [exact A|]. split; [exact M|].
  rewrite R.
  split; [apply run_windowInv, mounted_windowInv|].
  split; [apply run_laneInv, mounted_laneInv|].
  split; [apply run_jumpInv; [reflexivity | apply mounted_jumpInv]|].
  apply run_speedInv, mounted_speedInv.
Qed.

(** ** The game state machine *)

Ltac app_compute :=
  cbv [onKeyDown onKeyUp handleBtnTouchStart handleAction togglePlay canvas
       withGameState withMenuSelection withMusic withKeys withDebug withAudio
       gameState menuSelection isMusicPlaying wasPlayingRef isJumpKeyDown
       isLeftKeyDown isRightKeyDown debugPhase emptyMode renderStyle
       audioSystem gameRef performed isLeftKey isRightKey isJumpKey andb negb
       stateChange isEscape isFrame confirms allowedIn GameState_eqb orb
       heldKey keyOf callOf releases touches forallb]
  in *.

Lemma optionAt_In (g : GameState) (s : Z) (a : MenuAction) :
  optionAt g s = Some a -> In a (menuOptions g).
Proof.
  unfold optionAt. destruct (s <? 0); [discriminate|]. apply nth_error_In.
Qed.

Lemma handleAction_shape (now : Q) (e : AppEvent) (g : GameState)
  (act : option MenuAction) (app : App) :
  confirms e = true -> gameState app = g ->
  (forall a, act = Some a -> In a (menuOptions g)) ->
  (gameState (handleAction now act app) = g
   \/ stateChange g e (gameState (handleAction now act app)) = true)
  /\ exists new,
       performed (handleAction now act app) = performed app ++ new
       /\ forallb (allowedIn g) new = true
       /\ countCalls CtlLeft new = 0%nat
       /\ countCalls CtlRight new = 0%nat
       /\ countCalls CtlJump new = 0%nat.
Proof.
  intros C G I.
  destruct act as [a |].
  - specialize (I a eq_refl).
    destruct a, g; cbn in I; try (exfalso; intuition discriminate);
      (split;
       [first [left; reflexivity | right; cbn; exact C]
       | first [exists []; rewrite app_nil_r; repeat split; reflexivity
               | eexists [_]; repeat split; reflexivity]]).
  - split; [left; exact G|].
    exists []. rewrite app_nil_r. repeat split.
Qed.

Lemma handleAction_keys (now : Q) (act : option MenuAction) (c : Control)
  (app : App) :
  heldKey c (handleAction now act app) = heldKey c app.
Proof. destruct act as [[| | |] |]; destruct c; reflexivity. Qed.

Ltac no_calls := exists []; rewrite app_nil_r.

Lemma onKeyDown_state (now : Q) (k : Key) (r : bool) (app : App) :
  (gameState (onKeyDown now k r app) = gameState app
   \/ stateChange (gameState app) (KeyDown k r)
        (gameState (onKeyDown now k r app)) = true)
  /\ exists new,
       performed (onKeyDown now k r app) = performed app ++ new
       /\ forallb (allowedIn (gameState app)) new = true.
Proof.
  assert (Menu : forall g, g <> PLAYING -> gameState app = g ->
            let app' :=
              if r then app
              else
                let n := Z.of_nat (length (menuOptions g)) in
                match k with
                | ArrowUp =>
                    withMenuSelection app
                      (Z.rem (menuSelection app - 1 + n) n)
                | ArrowDown =>
                    withMenuSelection app (Z.rem (menuSelection app + 1) n)
                | Enter | Space =>
                    handleAction now (optionAt g (menuSelection app)) app
                | _ => app
                end in
            (gameState app' = g
             \/ stateChange g (KeyDown k r) (gameState app') = true)
            /\ exists new,
                 performed app' = performed app ++ new
                 /\ forallb (allowedIn g) new = true).
  { intros g NP G. cbv zeta.
    destruct r; [split; [left; exact G | no_calls; split; reflexivity]|].
    destruct k;
      try (split; [left; exact G | no_calls; split; reflexivity]).
    - destruct (handleAction_shape now (KeyDown Space false) g
                  (optionAt g (menuSelection app)) app eq_refl G
                  (optionAt_In g (menuSelection app)))
        as (S & new & P & A & _).
      split; [exact S | exists new; split; assumption].
    - destruct (handleAction_shape now (KeyDown Enter false) g
                  (optionAt g (menuSelection app)) app eq_refl G
                  (optionAt_In g (menuSelection app)))
        as (S & new & P & A & _).
      split; [exact S | exists new; split; assumption]. }
  unfold onKeyDown.
  destruct (gameState app) eqn:G;
    try (refine (Menu _ _ eq_refl); discriminate).
  clear Menu.
  destruct app as [g sel mp was jd ld rd dp em rs au gr pf].
  cbn [gameState] in G. subst g.
  destruct k, jd, ld, rd; app_compute;
    (split;
     [first [left; reflexivity | right; reflexivity]
     | first [no_calls; split; reflexivity
             | eexists [_]; split; reflexivity]]).
Qed.

Lemma onKeyDown_calls (now : Q) (k : Key) (r : bool) (c : Control)
  (app : App) :
  exists new,
    performed (onKeyDown now k r app) = performed app ++ new
    /\ (countCalls c new
        + (if heldKey c (onKeyDown now k r app) then 0 else 1)
        <= (if heldKey c app then 0 else 1))%nat.
Proof.
  assert (Menu : forall g,
            let app' :=
              if r then app
              else
                let n := Z.of_nat (length (menuOptions g)) in
                match k with
                | ArrowUp =>
                    withMenuSelection app
                      (Z.rem (menuSelection app - 1 + n) n)
                | ArrowDown =>
                    withMenuSelection app (Z.rem (menuSelection app + 1) n)
                | Enter | Space =>
                    handleAction now (optionAt g (menuSelection app)) app
                | _ => app
                end in
            exists new,
              performed app' = performed app ++ new
              /\ (countCalls c new + (if heldKey c app' then 0 else 1)
                  <= (if heldKey c app then 0 else 1))%nat).
  { intro g. cbv zeta.
    assert (Same : exists new,
               performed app = performed app ++ new
               /\ (countCalls c new + (if heldKey c app then 0 else 1)
                   <= (if heldKey c app then 0 else 1))%nat)
      by (no_calls; split; [reflexivity | cbn; lia]).
    assert (Act : forall act,
               (forall a, act = Some a -> a = ActStart \/ a = ActResume
                                          \/ a = ActExit \/ a = ActNext) ->
               exists new,
                 performed (handleAction now act app) = performed app ++ new
                 /\ (countCalls c new
                     + (if heldKey c (handleAction now act app)
                        then 0 else 1)
                     <= (if heldKey c app then 0 else 1))%nat).
    { intros act _. rewrite handleAction_keys.
      destruct act as [[| | |] |];
        first [ no_calls; split; [reflexivity | cbn; lia]
              | eexists [_]; split;
                [reflexivity | destruct c; cbn; lia] ]. }
    destruct r; [exact Same|].
    destruct k; try exact Same;
      try (no_calls; split; [reflexivity | destruct c; cbn; lia]);
      apply Act; intros [| | |] _; tauto. }
  unfold onKeyDown.
  destruct (gameState app) eqn:G; try exact (Menu _).
  clear Menu.
  destruct app as [g sel mp was jd ld rd dp em rs au gr pf].
  destruct c, k, jd, ld, rd; app_compute;
    first [ no_calls; split; [reflexivity | cbn; lia]
          | eexists [_]; split; [reflexivity | cbn; lia] ].
Qed.

Lemma skipn_length_app {A : Type} (l l' : list A) :
  skipn (length l) (l ++ l') = l'.
Proof. induction l as [| x l IH]; [reflexivity | exact IH]. Qed.

Lemma animationFrame_state (delta : Q) (sfx : list Sfx) (app : App) :
  gameStateRef (gameRef app) = gameState app ->
  (gameState (animationFrame delta sfx app) = gameState app
   \/ (gameState app = PLAYING
       /\ (gameState (animationFrame delta sfx app) = LEVEL_COMPLETE
           \/ gameState (animationFrame delta sfx app) = GAME_OVER)))
  /\ performed (animationFrame delta sfx app)
     = performed app ++ [Tick delta]
  /\ gameRef (animationFrame delta sfx app) = tick delta (gameRef app)
  /\ forall c, heldKey c (animationFrame delta sfx app) = heldKey c app.
Proof.
  intro G.
  split; [|split; [reflexivity | split; [reflexivity|]];
           intros []; reflexivity].
  unfold animationFrame. cbv zeta.
  change (gameState (withGameState ?a ?g)) with g.
  change (gameRef (canvas (Tick delta) app)) with (tick delta (gameRef app)).
  change (gameRef (withAudio ?a ?b)) with (gameRef a).
  change (gameRef (canvas (Tick delta) app)) with (tick delta (gameRef app)).
  destruct (tick_asked delta (gameRef app)) as (asked & E & F & Idle).
  rewrite E, skipn_length_app.
  destruct (GameState_eqb_spec (gameState app) PLAYING) as [P | P].
  - destruct (last_Forall _ asked (gameState app) F) as [-> | L].
    + left. reflexivity.
    + right. split; [exact P | exact L].
  - rewrite Idle by (rewrite G; exact P). left. reflexivity.
Qed.

Lemma handleBtnTouchStart_state (now : Q) (c : Control) (app : App) :
  (gameState (handleBtnTouchStart now c app) = gameState app
   \/ stateChange (gameState app) (ControlDown c)
        (gameState (handleBtnTouchStart now c app)) = true)
  /\ exists new,
       performed (handleBtnTouchStart now c app) = performed app ++ new
       /\ forallb (allowedIn (gameState app)) new = true.
Proof.
  assert (Menu : forall g, g <> PLAYING -> gameState app = g ->
            let app' :=
              match c with
              | CtlJump =>
                  handleAction now (optionAt g (menuSelection app)) app
              | _ => app
              end in
            (gameState app' = g
             \/ stateChange g (ControlDown c) (gameState app') = true)
            /\ exists new,
                 performed app' = performed app ++ new
                 /\ forallb (allowedIn g) new = true).
  { intros g NP G. cbv zeta.
    destruct c;
      try (split; [left; exact G | no_calls; split; reflexivity]).
    destruct (handleAction_shape now (ControlDown CtlJump) g
                (optionAt g (menuSelection app)) app eq_refl G
                (optionAt_In g (menuSelection app)))
      as (S & new & P & A & _).
    split; [exact S | exists new; split; assumption]. }
  unfold handleBtnTouchStart.
  destruct (gameState app) eqn:G;
    try (refine (Menu _ _ eq_refl); discriminate).
  destruct c; (split; [left; exact G | eexists [_]; split; reflexivity]).
Qed.

Lemma handle_state (now : Q) (e : AppEvent) (app app' : App) :
  gameStateRef (gameRef app) = gameState app ->
  handle now e app = Some app' ->
  (gameState app' = gameState app
   \/ stateChange (gameState app) e (gameState app') = true)
  /\ exists new,
       performed app' = performed app ++ new
       /\ forallb (allowedIn (gameState app)) new = true.
Proof.
  intros G H.
  assert (Same : forall x : App,
            gameState x = gameState app -> performed x = performed app ->
            (gameState x = gameState app
             \/ stateChange (gameState app) e (gameState x) = true)
            /\ exists new,
                 performed x = performed app ++ new
                 /\ forallb (allowedIn (gameState app)) new = true).
  { intros x S P. split; [left; exact S|].
    no_calls. split; [exact P | reflexivity]. }
  assert (One : forall (x : App) (a : Action),
            gameState x = gameState app ->
            performed x = performed app ++ [a] ->
            match a with
            | Tick _ | PropDebugPhase _ | PropEmptyMode _
            | PropRenderStyle => True
            | _ => False
            end ->
            (gameState x = gameState app
             \/ stateChange (gameState app) e (gameState x) = true)
            /\ exists new,
                 performed x = performed app ++ new
                 /\ forallb (allowedIn (gameState app)) new = true).
  { intros x a S P K. split; [left; exact S|].
    exists [a]. split; [exact P|]. destruct a; try contradiction;
      reflexivity. }
  destruct e as [k r | k | c | i | i | | | | | | ph | style | b | delta sfx |];
    cbn [handle] in H.
  - injection H as <-. apply onKeyDown_state.
  - injection H as <-. apply Same; reflexivity.
  - injection H as <-. apply handleBtnTouchStart_state.
  - destruct (nth_error (menuOptions (gameState app)) i) as [act |] eqn:N;
      injection H as <-; [|apply Same; reflexivity].
    destruct (handleAction_shape now (MenuClick i) (gameState app)
                (Some act) app eq_refl eq_refl) as (S & new & P & A & _).
    { intros a [= <-]. eapply nth_error_In. exact N. }
    split; [exact S | exists new; split; assumption].
  - destruct (nth_error (menuOptions (gameState app)) i);
      injection H as <-; apply Same; reflexivity.
  - injection H as <-. apply Same; reflexivity.
  - injection H as <-. apply Same; reflexivity.
  - injection H as <-. apply Same; reflexivity.
  - injection H as <-. apply Same; reflexivity.
  - injection H as <-. apply Same; reflexivity.
  - destruct (option_GamePhase_eqb (debugPhase app) ph);
      injection H as <-; [apply Same; reflexivity|].
    apply (One _ (PropDebugPhase ph)); try reflexivity; try exact I.
  - destruct (RenderStyle_eqb style (renderStyle app));
      injection H as <-; [apply Same; reflexivity|].
    apply (One _ PropRenderStyle); try reflexivity; try exact I.
  - destruct (Bool.eqb b (emptyMode app));
      injection H as <-; [apply Same; reflexivity|].
    apply (One _ (PropEmptyMode b)); try reflexivity; try exact I.
  - injection H as <-.
    destruct (animationFrame_state delta sfx app G)
      as ([S | (P & [S | S])] & Pf & _).
    + split; [left; exact S|]. exists [Tick delta].
      split; [exact Pf | reflexivity].
    + split; [right; rewrite S, P; reflexivity|]. exists [Tick delta].
      split; [exact Pf | reflexivity].
    + split; [right; rewrite S, P; reflexivity|]. exists [Tick delta].
      split; [exact Pf | reflexivity].
  - destruct (audioCall (IntervalFires now) (audioSystem app));
      [|discriminate H].
    injection H as <-. apply Same; reflexivity.
Qed.

Lemma commit_shape (now : Q) (before app : App) :
  gameState (commit now before app) = gameState app
  /\ (forall c, heldKey c (commit now before app) = heldKey c app)
  /\ exists new,
       performed (commit now before app) = performed app ++ new
       /\ (forall g, forallb (allowedIn g) new = true)
       /\ (forall c, countCalls c new = 0%nat).
Proof.
  unfold commit.
  destruct (GameState_eqb (gameState app) (gameState before)).
  - split; [reflexivity|]. split; [reflexivity|].
    no_calls. repeat split.
  - unfold gameStateEffects.
    split; [rewrite musicEffect_state; reflexivity|].
    split.
    + intro c. unfold musicEffect. cbv zeta.
      destruct (gameState (canvas (PropGameState (gameState app)) app));
        try (destruct c; reflexivity).
      * destruct (wasPlayingRef _); destruct c; reflexivity.
      * destruct (isMusicPlaying _); destruct c; reflexivity.
    + exists [PropGameState (gameState app)].
      split; [|split; [intro g; reflexivity | intros []; reflexivity]].
      unfold musicEffect. cbv zeta.
      destruct (gameState (canvas (PropGameState (gameState app)) app));
        try reflexivity.
      * destruct (wasPlayingRef _); reflexivity.
      * destruct (isMusicPlaying _); reflexivity.
Qed.

(** X21. The game state machine of the application.  An event changes the
    game state only along these edges: PLAYING to PAUSED by the Escape key;
    PLAYING to GAME_OVER or LEVEL_COMPLETE by a frame of the canvas; a menu
    state (MENU, PAUSED, GAME_OVER, LEVEL_COMPLETE) to PLAYING, and the
    last three to MENU, by choosing a menu entry (Enter or Space without
    key repeat, the on-screen jump control, a click).  What an event does
    to the canvas is allowed in the state it arrives in: lane changes and
    jumps only while PLAYING, startNewGame only from MENU or GAME_OVER,
    startNextLevel only from LEVEL_COMPLETE; so a paused or lost game
    cannot skip to the next level and the menus never move the player. *)
Theorem X21_game_state_machine (rng : nat -> Q)
  (trace : list (Q * AppEvent)) (now : Q) (e : AppEvent) :
  exists app app',
    appRun trace (initialApp rng) = Some app
    /\ dispatch now e app = Some app'
    /\ (gameState app' = gameState app
        \/ stateChange (gameState app) e (gameState app') = true)
    /\ exists new,
         performed app' = performed app ++ new
         /\ forallb (allowedIn (gameState app)) new = true.
Proof.
  destruct (appRun_inv rng trace (initialApp rng) (initialApp_inv rng))
    as (app & R & I).
  destruct (pre_handle rng (gameState app) now e app I) as (app1 & H & _).
  exists app, (commit now app app1).
  split; [exact R|].
  split; [unfold dispatch; rewrite H; reflexivity|].
  destruct I as (_ & G & _).
  destruct (handle_state now e app app1 G H) as (S & new & P & A).
  destruct (commit_shape now app app1) as (CS & _ & new' & CP & CA & _).
  rewrite CS. split; [exact S|].
  exists (new ++ new'). split; [rewrite CP, P, app_assoc; reflexivity|].
  rewrite forallb_app, A, CA. reflexivity.
Qed.

(** ** Held keys *)

Lemma handleAction_calls (now : Q) (act : option MenuAction) (c : Control)
  (app : App) :
  exists new,
    performed (handleAction now act app) = performed app ++ new
    /\ countCalls c new = 0%nat.
Proof.
  destruct act as [[| | |] |];
    first [ no_calls; split; reflexivity
          | eexists [_]; split; [reflexivity | destruct c; reflexivity] ].
Qed.

Lemma handle_calls (now : Q) (e : AppEvent) (c : Control) (app app' : App) :
  handle now e app = Some app' ->
  releases c e = false ->
  exists new,
    performed app' = performed app ++ new
    /\ (countCalls c new + (if heldKey c app' then 0 else 1)
        <= (if touches c e then 1 else 0)
           + (if heldKey c app then 0 else 1))%nat.
Proof.
  intros H R.
  assert (Same : forall x : App,
            heldKey c x = heldKey c app ->
            (exists new, performed x = performed app ++ new
                         /\ countCalls c new = 0%nat) ->
            exists new,
              performed x = performed app ++ new
              /\ (countCalls c new + (if heldKey c x then 0 else 1)
                  <= (if touches c e then 1 else 0)
                     + (if heldKey c app then 0 else 1))%nat).
  { intros x K (new & P & N). exists new. split; [exact P|].
    rewrite K, N. lia. }
  assert (None : forall x : App,
            performed x = performed app ->
            exists new, performed x = performed app ++ new
                        /\ countCalls c new = 0%nat).
  { intros x P. no_calls. split; [exact P | reflexivity]. }
  assert (Prop1 : forall (x : App) (a : Action),
            performed x = performed app ++ [a] ->
            callOf c a = false ->
            exists new, performed x = performed app ++ new
                        /\ countCalls c new = 0%nat).
  { intros x a P N. exists [a]. split; [exact P|].
    unfold countCalls. cbn. rewrite N. reflexivity. }
  destruct e as [k r | k | c' | i | i | | | | | | ph | style | b | delta sfx |];
    cbn [handle] in H.
  - injection H as <-.
    destruct (onKeyDown_calls now k r c app) as (new & P & L).
    exists new. split; [exact P|]. cbn [touches]. lia.
  - injection H as <-. apply Same; [|apply None; reflexivity].
    destruct c, k; cbn in R; try discriminate R; reflexivity.
  - injection H as <-. unfold handleBtnTouchStart.
    destruct (gameState app).
    + destruct c'; try (apply Same; [reflexivity | apply None; reflexivity]).
      apply Same; [apply handleAction_keys | apply handleAction_calls].
    + destruct c', c; eexists [_]; (split; [reflexivity|]);
        unfold countCalls; cbn;
        repeat match goal with
               | |- context [if ?b then _ else _] => destruct b
               end; cbn; lia.
    + destruct c'; try (apply Same; [reflexivity | apply None; reflexivity]).
      apply Same; [apply handleAction_keys | apply handleAction_calls].
    + destruct c'; try (apply Same; [reflexivity | apply None; reflexivity]).
      apply Same; [apply handleAction_keys | apply handleAction_calls].
    + destruct c'; try (apply Same; [reflexivity | apply None; reflexivity]).
      apply Same; [apply handleAction_keys | apply handleAction_calls].
  - destruct (nth_error (menuOptions (gameState app)) i) as [act |];
      injection H as <-;
      [apply Same; [exact (handleAction_keys now (Some act) c app)
                   | exact (handleAction_calls now (Some act) c app)]
      | apply Same; [reflexivity | apply None; reflexivity]].
  - destruct (nth_error (menuOptions (gameState app)) i);
      injection H as <-;
      (apply Same; [destruct c; reflexivity | apply None; reflexivity]).
  - injection H as <-.
    apply Same; [destruct c; reflexivity | apply None; reflexivity].
  - injection H as <-.
    apply Same; [destruct c; reflexivity | apply None; reflexivity].
  - injection H as <-.
    apply Same; [destruct c; reflexivity | apply None; reflexivity].
  - injection H as <-.
    apply Same; [destruct c; reflexivity | apply None; reflexivity].
  - injection H as <-.
    apply Same; [destruct c; reflexivity | apply None; reflexivity].
  - destruct (option_GamePhase_eqb (debugPhase app) ph); injection H as <-;
      [apply Same; [reflexivity | apply None; reflexivity]|].
    apply Same; [destruct c; reflexivity|].
    apply (Prop1 _ (PropDebugPhase ph)); [reflexivity | destruct c;
                                                        reflexivity].
  - destruct (RenderStyle_eqb style (renderStyle app)); injection H as <-;
      [apply Same; [reflexivity | apply None; reflexivity]|].
    apply Same; [destruct c; reflexivity|].
    apply (Prop1 _ PropRenderStyle); [reflexivity | destruct c; reflexivity].
  - destruct (Bool.eqb b (emptyMode app)); injection H as <-;
      [apply Same; [reflexivity | apply None; reflexivity]|].
    apply Same; [destruct c; reflexivity|].
    apply (Prop1 _ (PropEmptyMode b)); [reflexivity | destruct c;
                                                       reflexivity].
  - injection H as <-.
    apply Same; [destruct c; reflexivity|].
    apply (Prop1 _ (Tick delta)); [reflexivity | destruct c; reflexivity].
  - destruct (audioCall (IntervalFires now) (audioSystem app));
      [|discriminate H].
    injection H as <-.
    apply Same; [destruct c; reflexivity | apply None; reflexivity].
Qed.

Lemma countCalls_app (c : Control) (l l' : list Action) :
  countCalls c (l ++ l') = (countCalls c l + countCalls c l')%nat.
Proof. unfold countCalls. rewrite filter_app, length_app. reflexivity. Qed.

Lemma dispatch_calls (now : Q) (e : AppEvent) (c : Control)
  (app app' : App) :
  dispatch now e app = Some app' ->
  releases c e = false ->
  exists new,
    performed app' = performed app ++ new
    /\ (countCalls c new + (if heldKey c app' then 0 else 1)
        <= (if touches c e then 1 else 0)
           + (if heldKey c app then 0 else 1))%nat.
Proof.
  intros D R. unfold dispatch in D.
  destruct (handle now e app) as [app0 |] eqn:H; [|discriminate D].
  injection D as <-.
  destruct (handle_calls now e c app app0 H R) as (new & P & L).
  destruct (commit_shape now app app0) as (_ & K & new' & CP & _ & CN).
  exists (new ++ new'). split; [rewrite CP, P, app_assoc; reflexivity|].
  rewrite countCalls_app, CN, K. lia.
Qed.

Lemma dispatch_held (now : Q) (e : AppEvent) (c : Control)
  (app app' : App) :
  dispatch now e app = Some app' ->
  releases c e = false ->
  heldKey c app = true -> heldKey c app' = true.
Proof.
  intros D R K.
  destruct (touches c e) eqn:T.
  - destruct e; try discriminate T. unfold dispatch in D. cbn [handle] in D.
    injection D as <-.
    destruct (commit_shape now app (handleBtnTouchStart now c0 app))
      as (_ & CK & _).
    rewrite CK. rewrite <- K. unfold handleBtnTouchStart.
    destruct (gameState app); destruct c0; try reflexivity;
      try apply handleAction_keys; destruct c; reflexivity.
  - destruct (dispatch_calls now e c app app' D R) as (new & _ & L).
    rewrite T, K in L. destruct (heldKey c app'); [reflexivity | lia].
Qed.

(** X22. A held key acts once.  Over any events that contain no release of
    a key of a control (left: ArrowLeft or a; right: ArrowRight or d; jump:
    Space, w or ArrowUp), the canvas method of that control (moveLeft,
    moveRight, jump) is called at most once by the keyboard, and not at
    all when such a key was already down, whatever e.repeat says and
    whichever of the keys of the control is pressed; every further call
    comes from the on-screen control, one call for each press while the
    game is being played.  A key that is down stays down until it is
    released. *)
Theorem X22_held_key_acts_once (c : Control) (trace : list (Q * AppEvent))
  (app app' : App)
  (Hrun : appRun trace app = Some app')
  (Hheld : forallb (fun ne => negb (releases c (snd ne))) trace = true) :
  exists new,
    performed app' = performed app ++ new
    /\ (countCalls c new + (if heldKey c app' then 0 else 1)
        <= countTouches c trace + (if heldKey c app then 0 else 1))%nat
    /\ (heldKey c app = true -> heldKey c app' = true)
    /\ (heldKey c app = true -> countTouches c trace = 0%nat ->
        countCalls c new = 0%nat).
Proof.
  assert (Main : exists new,
            performed app' = performed app ++ new
            /\ (countCalls c new + (if heldKey c app' then 0 else 1)
                <= countTouches c trace
                   + (if heldKey c app then 0 else 1))%nat
            /\ (heldKey c app = true -> heldKey c app' = true)).
  { revert app Hrun Hheld.
    induction trace as [| [now e] rest IH]; intros app Hrun Hheld.
    - injection Hrun as <-. no_calls. split; [reflexivity|].
      split; [|tauto].
      unfold countCalls, countTouches. cbn. lia.
    - cbn [appRun] in Hrun.
      destruct (dispatch now e app) as [app1 |] eqn:D; [|discriminate Hrun].
      cbn [forallb snd] in Hheld. apply andb_true_iff in Hheld.
      destruct Hheld as (R & Hrest). apply negb_true_iff in R.
      destruct (dispatch_calls now e c app app1 D R) as (new & P & L).
      destruct (IH app1 Hrun Hrest) as (new' & P' & L' & K').
      exists (new ++ new').
      split; [rewrite P', P, app_assoc; reflexivity|].
      split.
      + rewrite countCalls_app. unfold countTouches in *. cbn [filter snd].
        destruct (touches c e); cbn [length]; lia.
      + intro K. apply K'. exact (dispatch_held now e c app app1 D R K). }
  destruct Main as (new & P & L & K). exists new.
  split; [exact P|]. split; [exact L|]. split; [exact K|].
  intros H T. rewrite H, T in L. lia.
Qed.

Lemma X22_held_key_acts_once_witness :
  exists app',
    appRun [(0%Q, KeyDown Enter false); (0%Q, KeyDown ArrowLeft false);
            (0%Q, KeyDown ArrowLeft true); (0%Q, KeyDown KeyA false)]
      (initialApp rngTwins) = Some app'
    /\ exists new,
         performed app' = performed (initialApp rngTwins) ++ new
         /\ (countCalls CtlLeft new <= 1)%nat.
Proof.
  eexists. split; [reflexivity|].
  destruct (X22_held_key_acts_once CtlLeft
              [(0%Q, KeyDown Enter false); (0%Q, KeyDown ArrowLeft false);
               (0%Q, KeyDown ArrowLeft true); (0%Q, KeyDown KeyA false)]
              (initialApp rngTwins) _ eq_refl eq_refl)
    as (new & P & L & _).
  exists new. split; [exact P|].
  change (countTouches CtlLeft _) with 0%nat in L.
  change (heldKey CtlLeft (initialApp rngTwins)) with false in L.
  cbv iota in L. lia.
Defined.

(** ** The menu *)

Lemma dispatch_same_state (now : Q) (e : AppEvent) (app app1 : App) :
  handle now e app = Some app1 ->
  gameState app1 = gameState app ->
  dispatch now e app = Some app1.
Proof.
  intros H S. unfold dispatch. rewrite H. cbn [option_map]. unfold commit.
  rewrite S.
  destruct (GameState_eqb_spec (gameState app) (gameState app)) as [_ | N];
    [reflexivity | congruence].
Qed.

(** X23. The menu selection.  It is always 0 or 1.  In a menu state an
    arrow key (not repeated) moves it cyclically over the entries of that
    state and leaves it on one of them: (s - 1 + n) % n for ArrowUp and
    (s + 1) % n for ArrowDown, n being 1 or 2.  But the selection is not
    reset when the state changes: Enter, Space and the on-screen jump
    control do nothing at all when the selection is past the entries of
    the state, and that happens: after a pause left by its second entry
    (EXIT) the main menu has one entry and the selection 1, so Enter does
    not start a run until an arrow key or the mouse has moved the
    selection. *)
Theorem X23_menu_selection (rng : nat -> Q) (trace : list (Q * AppEvent))
  (now : Q) :
  (exists app,
     appRun trace (initialApp rng) = Some app
     /\ 0 <= menuSelection app <= 1
     /\ (gameState app <> PLAYING ->
         let n := Z.of_nat (length (menuOptions (gameState app))) in
         1 <= n <= 2
         /\ (exists up,
               dispatch now (KeyDown ArrowUp false) app = Some up
               /\ gameState up = gameState app
               /\ menuSelection up = (menuSelection app - 1 + n) mod n
               /\ optionAt (gameState up) (menuSelection up) <> None)
         /\ (exists down,
               dispatch now (KeyDown ArrowDown false) app = Some down
               /\ gameState down = gameState app
               /\ menuSelection down = (menuSelection app + 1) mod n
               /\ optionAt (gameState down) (menuSelection down) <> None)
         /\ (optionAt (gameState app) (menuSelection app) = None ->
             dispatch now (KeyDown Enter false) app = Some app
             /\ dispatch now (KeyDown Space false) app = Some app
             /\ dispatch now (ControlDown CtlJump) app = Some app)))
  /\ (exists app,
        appRun [(now, KeyDown Enter false); (now, KeyDown Escape false);
                (now, KeyDown ArrowDown false); (now, KeyDown Enter false)]
          (initialApp rng) = Some app
        /\ gameState app = MENU
        /\ menuSelection app = 1
        /\ optionAt (gameState app) (menuSelection app) = None).
Proof.
  split.
  - destruct (appRun_inv rng trace (initialApp rng) (initialApp_inv rng))
      as (app & R & (_ & _ & _ & _ & M)).
    exists app. split; [exact R|]. split; [exact M|].
    intros NP.
    assert (C : menuSelection app = 0 \/ menuSelection app = 1) by lia.
    assert (Hup : handle now (KeyDown ArrowUp false) app
                  = Some (withMenuSelection app
                            (Z.rem (menuSelection app - 1
                                    + Z.of_nat (length (menuOptions
                                                          (gameState app))))
                               (Z.of_nat (length (menuOptions
                                                    (gameState app))))))).
    { cbn [handle]. unfold onKeyDown.
      destruct (gameState app) eqn:G; try reflexivity. congruence. }
    assert (Hdown : handle now (KeyDown ArrowDown false) app
                    = Some (withMenuSelection app
                              (Z.rem (menuSelection app + 1)
                                 (Z.of_nat (length (menuOptions
                                                      (gameState app))))))).
    { cbn [handle]. unfold onKeyDown.
      destruct (gameState app) eqn:G; try reflexivity. congruence. }
    assert (HE : forall k, k = Enter \/ k = Space ->
                 optionAt (gameState app) (menuSelection app) = None ->
                 handle now (KeyDown k false) app = Some app).
    { intros k [-> | ->] O; cbn [handle]; unfold onKeyDown;
        destruct (gameState app) eqn:G; try congruence; rewrite O;
        reflexivity. }
    assert (HJ : optionAt (gameState app) (menuSelection app) = None ->
                 handle now (ControlDown CtlJump) app = Some app).
    { intro O. cbn [handle]. unfold handleBtnTouchStart.
      destruct (gameState app) eqn:G; try congruence; rewrite O;
        reflexivity. }
    cbv zeta.
    split; [destruct (gameState app) eqn:G; cbn; try lia; congruence|].
    split.
    { eexists. split; [apply (dispatch_same_state _ _ _ _ Hup); reflexivity|].
      split; [reflexivity|].
      cbn [menuSelection withMenuSelection gameState].
      destruct (gameState app) eqn:G; try congruence;
        destruct C as [-> | ->];
        (split; [reflexivity | vm_compute; discriminate]). }
    split.
    { eexists.
      split; [apply (dispatch_same_state _ _ _ _ Hdown); reflexivity|].
      split; [reflexivity|].
      cbn [menuSelection withMenuSelection gameState].
      destruct (gameState app) eqn:G; try congruence;
        destruct C as [-> | ->];
        (split; [reflexivity | vm_compute; discriminate]). }
    intro O.
    split; [apply dispatch_same_state; [apply HE; tauto | reflexivity]|].
    split; [apply dispatch_same_state; [apply HE; tauto | reflexivity]|].
    apply dispatch_same_state; [apply HJ; exact O | reflexivity].
  - eexists. split; [reflexivity|]. split; [reflexivity|].
    split; reflexivity.
Qed.

(** ** The music flag *)

(** X24. The application's flag isMusicPlaying and the audio system.  The
    play button toggles both, so it keeps them equal or keeps them
    different.  Leaving to the menu (exit) stops the music and clears the
    flag.  Starting a run calls resume(), which starts the music, but does
    not set the flag.  When the game is paused the music is paused only if
    the flag is set (and the flag is then cleared and remembered in
    wasPlayingRef); with the flag unset the audio system is left as it is.
    So a run started from the first menu plays music with the flag unset
    (the player shows the play icon), and Escape then pauses the game but
    not the music. *)
Theorem X24_music_flag (now : Q) (r : bool) (app : App)
  (Hinv : audioInv (audioSystem app)) :
  (isMusicPlaying (togglePlay now app) = negb (isMusicPlaying app)
   /\ isPlaying (audioSystem (togglePlay now app))
      = negb (isPlaying (audioSystem app))
   /\ wasPlayingRef (togglePlay now app) = negb (isMusicPlaying app))
  /\ (isPlaying (audioSystem (handleAction now (Some ActStart) app)) = true
      /\ isMusicPlaying (handleAction now (Some ActStart) app)
         = isMusicPlaying app
      /\ wasPlayingRef (handleAction now (Some ActStart) app) = false)
  /\ (isPlaying (audioSystem (handleAction now (Some ActExit) app)) = false
      /\ isMusicPlaying (handleAction now (Some ActExit) app) = false
      /\ wasPlayingRef (handleAction now (Some ActExit) app) = false)
  /\ (gameState app = PLAYING ->
      exists app',
        dispatch now (KeyDown Escape r) app = Some app'
        /\ gameState app' = PAUSED
        /\ isMusicPlaying app' = false
        /\ wasPlayingRef app' = isMusicPlaying app
        /\ (isMusicPlaying app = true ->
            isPlaying (audioSystem app') = false)
        /\ (isMusicPlaying app = false ->
            audioSystem app' = audioSystem app)).
Proof.
  split.
  { split; [reflexivity|]. split; [|reflexivity].
    unfold togglePlay. cbn [audioSystem withMusic withAudio].
    unfold togglePlayback.
    destruct (isPlaying (audioSystem app)) eqn:P.
    - apply pause_inv. exact Hinv.
    - apply resume_inv. exact Hinv. }
  split.
  { split; [|split; reflexivity].
    unfold handleAction. cbv zeta.
    change (audioSystem (withGameState ?a ?g)) with (audioSystem a).
    unfold canvas.
    cbn [audioSystem withMusic withAudio playAll fold_left].
    apply resume_inv. exact Hinv. }
  split.
  { split; [|split; reflexivity].
    unfold handleAction. cbv zeta.
    cbn [audioSystem withMusic withAudio withGameState].
    apply pause_inv. exact Hinv. }
  intro G.
  assert (A : exists a,
            handle now (KeyDown Escape r) app = Some a
            /\ gameState a = PAUSED
            /\ isMusicPlaying a = isMusicPlaying app
            /\ audioSystem a = audioSystem app).
  { cbn [handle]. unfold onKeyDown. rewrite G. cbv zeta.
    cbn [isLeftKey isRightKey isJumpKey andb].
    eexists. split; [reflexivity|]. repeat split. }
  destruct A as (a & H & Ga & Ma & Aa).
  unfold dispatch. rewrite H. cbn [option_map].
  eexists. split; [reflexivity|].
  unfold commit. rewrite Ga, G. cbn [GameState_eqb].
  unfold gameStateEffects.
  assert (E : gameState (canvas (PropGameState (gameState a)) a) = PAUSED)
    by exact Ga.
  unfold musicEffect. rewrite E. cbv zeta.
  change (isMusicPlaying (canvas (PropGameState (gameState a)) a))
    with (isMusicPlaying a).
  rewrite Ma.
  destruct (isMusicPlaying app) eqn:M.
  - split; [exact E|]. split; [reflexivity|]. split; [reflexivity|].
    split; [|discriminate].
    intros _. cbn [audioSystem withMusic withAudio].
    apply pause_inv.
    change (audioSystem (canvas (PropGameState (gameState a)) a))
      with (audioSystem a).
    rewrite Aa. exact Hinv.
  - split; [exact Ga|]. split; [reflexivity|]. split; [reflexivity|].
    split; [discriminate|]. intros _. exact Aa.
Qed.

Lemma X24_music_flag_witness :
  isPlaying (audioSystem (handleAction 0 (Some ActStart)
                            (initialApp rngTwins))) = true
  /\ isMusicPlaying (handleAction 0 (Some ActStart) (initialApp rngTwins))
     = false.
Proof.
  destruct (X24_music_flag 0 false (initialApp rngTwins) newAudioSystem_inv)
    as (_ & (P & M & _) & _).
  split; [exact P | exact M].
Defined.

(** ** Game over (C2) *)

Lemma perform_health (a : Action) (st : Store) :
  healthRef (session (perform a st)) =
  match a with
  | Tick delta => healthRef (session (tick delta st))
  | StartNewGame => 100
  | _ => healthRef (session st)
  end.
Proof.
  destruct a; unfold perform; try reflexivity.
  - unfold doJump. destruct (isJumping (player st)); reflexivity.
  - unfold syncDebugPhase. destruct (GamePhase_eqb ph (phaseRef st));
      reflexivity.
Qed.

Lemma forEachObstacle_cons (f : Frame) (s : Session) (o : ObstacleData)
  (rest : list ObstacleData) :
  fst (forEachObstacle f s (o :: rest))
  = fst (forEachObstacle f (fst (obstacleCallback f s o)) rest).
Proof.
  cbn [forEachObstacle]. destruct (obstacleCallback f s o) as [s1 o1].
  cbn [fst]. destruct (forEachObstacle f s1 rest). reflexivity.
Qed.

(** The obstacle loop on a player with health left: the calls it adds are
    calls of [setGameState(GAME_OVER)], and if it adds none the player still
    has health left. *)
Lemma forEachObstacle_alive (f : Frame) (s : Session)
  (obs : list ObstacleData) :
  0 < healthRef s ->
  exists overs,
    stateCalls (fst (forEachObstacle f s obs)) = stateCalls s ++ overs
    /\ Forall (eq GAME_OVER) overs
    /\ (overs = [] -> 0 < healthRef (fst (forEachObstacle f s obs))).
Proof.
  revert s. induction obs as [| o rest IH]; intros s H.
  - exists []. rewrite app_nil_r. repeat split; [constructor | intros _; exact H].
  - rewrite forEachObstacle_cons.
    destruct (hits f o) eqn:E.
    + rewrite (obstacleCallback_hits f s o E). cbn [fst].
      pose proof (resolve_stateCalls (type o) s) as C.
      destruct (healthRef (resolve (type o) s) <=? 0) eqn:Z.
      * destruct (forEachObstacle_stateCalls f (resolve (type o) s) rest)
          as (overs & F & S).
        exists (GAME_OVER :: overs).
        split; [rewrite S, C, <- app_assoc; reflexivity|].
        split; [constructor; [reflexivity | exact F] | discriminate].
      * apply Z.leb_gt in Z.
        destruct (IH (resolve (type o) s) Z) as (overs & S & F & A).
        exists overs. rewrite app_nil_r in C.
        split; [rewrite S, C; reflexivity|]. split; assumption.
    + assert (M : fst (obstacleCallback f s o) = s)
        by exact (obstacleCallback_misses f s o E).
      rewrite M. apply IH. exact H.
Qed.

(** A frame of a game being played, on a player with health left. *)
Lemma tick_alive (delta : Q) (st : Store) :
  gameStateRef st = PLAYING ->
  0 < healthRef (session st) ->
  exists lc overs,
    stateCalls (session (tick delta st))
    = stateCalls (session st) ++ lc ++ overs
    /\ (lc = [] \/ lc = [LEVEL_COMPLETE])
    /\ Forall (eq GAME_OVER) overs
    /\ (overs = [] -> 0 < healthRef (session (tick delta st))).
Proof.
  intros G H.
  rewrite tick_playing, step_playing by exact G. cbv zeta. cbn [session].
  assert (FH : healthRef (frameSession delta st) = healthRef (session st)).
  { unfold frameSession. cbv zeta.
    destruct (speedTimer_fields delta (session st)) as (_ & A & _).
    destruct (leQ (timeRef st - delta) 0); cbn; exact A. }
  assert (FC : exists lc,
             stateCalls (frameSession delta st) = stateCalls (session st) ++ lc
             /\ (lc = [] \/ lc = [LEVEL_COMPLETE])).
  { unfold frameSession. cbv zeta.
    destruct (speedTimer_fields delta (session st)) as (_ & _ & _ & A).
    destruct (leQ (timeRef st - delta) 0); cbn; rewrite A.
    - exists [LEVEL_COMPLETE]. split; [reflexivity | right; reflexivity].
    - exists []. rewrite app_nil_r. split; [reflexivity | left; reflexivity]. }
  destruct FC as (lc & FC & Hlc).
  assert (H' : 0 < healthRef (frameSession delta st)) by (rewrite FH; exact H).
  destruct (forEachObstacle_alive (frameOf delta st) (frameSession delta st)
              (obstaclesRef (frameTrack delta st)) H')
    as (overs & S & F & A).
  exists lc, overs.
  split; [rewrite S, FC, <- app_assoc; reflexivity|].
  split; [exact Hlc|]. split; assumption.
Qed.

Lemma last_overs (lc overs : list GameState) (d : GameState) :
  Forall (eq GAME_OVER) overs -> overs <> [] ->
  last (lc ++ overs) d = GAME_OVER.
Proof.
  intros F N.
  destruct (exists_last N) as (init & x & ->).
  rewrite app_assoc, last_last.
  apply Forall_app in F. destruct F as (_ & F).
  inversion F. congruence.
Qed.

(** A frame in the application: it keeps the health positive in the states
    in which a game is going on, and when it leaves the health at 0 or below
    the state it leaves is GAME_OVER. *)
Lemma animationFrame_alive (delta : Q) (sfx : list Sfx) (app : App) :
  gameStateRef (gameRef app) = gameState app ->
  aliveInv app ->
  aliveInv (animationFrame delta sfx app)
  /\ (gameState app = PLAYING ->
      healthRef (session (gameRef (animationFrame delta sfx app))) <= 0 ->
      gameState (animationFrame delta sfx app) = GAME_OVER)
  /\ (gameState app = PLAYING ->
      exists asked,
        stateCalls (session (gameRef (animationFrame delta sfx app)))
        = stateCalls (session (gameRef app)) ++ asked
        /\ (In GAME_OVER asked
            <-> gameState (animationFrame delta sfx app) = GAME_OVER)).
Proof.
  intros G A.
  destruct (animationFrame_state delta sfx app G) as (S & _ & R & _).
  destruct (GameState_eqb_spec (gameState app) PLAYING) as [P | P].
  - assert (H : 0 < healthRef (session (gameRef app)))
      by (unfold aliveInv in A; rewrite P in A; exact A).
    assert (G' : gameStateRef (gameRef app) = PLAYING) by congruence.
    destruct (tick_alive delta (gameRef app) G' H)
      as (lc & overs & C & Hlc & F & Al).
    assert (E : gameState (animationFrame delta sfx app)
                = last (lc ++ overs) (gameState app)).
    { unfold animationFrame. cbv zeta.
      change (gameState (withGameState ?a ?g)) with g.
      change (gameRef (withAudio ?a ?b)) with (gameRef a).
      change (gameRef (canvas (Tick delta) app))
        with (tick delta (gameRef app)).
      rewrite C, skipn_length_app. reflexivity. }
    destruct overs as [| o overs'].
    + specialize (Al eq_refl). rewrite app_nil_r in E, C.
      split.
      * unfold aliveInv. rewrite R, E.
        destruct Hlc as [-> | ->]; cbn [last]; [rewrite P|]; exact Al.
      * split; [intros _ Z; rewrite R in Z; lia|].
        intros _. exists lc. rewrite R. split; [exact C|].
        rewrite E.
        destruct Hlc as [-> | ->]; cbn [last In]; [rewrite P|];
          split; intro X; try contradiction; try discriminate X;
          destruct X as [X | []]; discriminate X.
    + assert (L : gameState (animationFrame delta sfx app) = GAME_OVER).
      { rewrite E. apply last_overs; [exact F | discriminate]. }
      split; [unfold aliveInv; rewrite L; exact I|].
      split; [intros _ _; exact L|].
      intros _. exists (lc ++ o :: overs'). rewrite R. split; [exact C|].
      split; [intros _; exact L|].
      intros _. apply in_or_app. right. left.
      inversion F. congruence.
  - assert (S' : gameState (animationFrame delta sfx app) = gameState app).
    { destruct S as [S | (X & _)]; [exact S | contradiction]. }
    split; [|split; intro X; contradiction].
    unfold aliveInv. rewrite S', R.
    assert (N : gameStateRef (gameRef app) <> PLAYING) by (rewrite G; exact P).
    destruct (tick_idle_fields delta (gameRef app) N)
      as (_ & _ & _ & Hh & _).
    rewrite Hh. exact A.
Qed.

Lemma handleAction_alive (now : Q) (g : GameState)
  (act : option MenuAction) (app : App) :
  gameState app = g ->
  (forall a, act = Some a -> In a (menuOptions g)) ->
  aliveInv app -> aliveInv (handleAction now act app).
Proof.
  intros G I A. unfold aliveInv in A. rewrite G in A.
  destruct act as [a |];
    [|change (aliveInv app); unfold aliveInv; rewrite G; exact A].
  specialize (I a eq_refl).
  destruct a, g; cbn in I; try (exfalso; intuition discriminate);
    unfold aliveInv, handleAction; cbv zeta;
    cbn [gameState gameRef withGameState withMusic withAudio canvas];
    rewrite ?perform_health; try exact A; try exact I0; lia.
Qed.

Ltac alive_compute :=
  cbv [onKeyDown onKeyUp handleBtnTouchStart canvas aliveInv
       withGameState withMenuSelection withMusic withKeys withDebug withAudio
       gameState menuSelection isMusicPlaying wasPlayingRef isJumpKeyDown
       isLeftKeyDown isRightKeyDown debugPhase emptyMode renderStyle
       audioSystem gameRef performed isLeftKey isRightKey isJumpKey andb negb]
  in *.

Lemma onKeyDown_alive (now : Q) (k : Key) (r : bool) (app : App) :
  aliveInv app -> aliveInv (onKeyDown now k r app).
Proof.
  intro A.
  assert (Menu : forall g, g <> PLAYING -> gameState app = g ->
            aliveInv
              (if r then app
               else
                 let n := Z.of_nat (length (menuOptions g)) in
                 match k with
                 | ArrowUp =>
                     withMenuSelection app
                       (Z.rem (menuSelection app - 1 + n) n)
                 | ArrowDown =>
                     withMenuSelection app (Z.rem (menuSelection app + 1) n)
                 | Enter | Space =>
                     handleAction now (optionAt g (menuSelection app)) app
                 | _ => app
                 end)).
  { intros g NP G. cbv zeta. destruct r; [exact A|].
    destruct k; try exact A;
      apply (handleAction_alive now g); try assumption;
      apply optionAt_In. }
  unfold onKeyDown.
  destruct (gameState app) eqn:G;
    try (refine (Menu _ _ eq_refl); discriminate).
  clear Menu.
  destruct app as [g sel mp was jd ld rd dp em rs au gr pf].
  cbn [gameState] in G. subst g.
  destruct k, jd, ld, rd; alive_compute;
    rewrite ?perform_health; exact A.
Qed.

Lemma handleBtnTouchStart_alive (now : Q) (c : Control) (app : App) :
  aliveInv app -> aliveInv (handleBtnTouchStart now c app).
Proof.
  intro A. unfold handleBtnTouchStart.
  destruct (gameState app) eqn:G.
  - destruct c; try exact A.
    apply (handleAction_alive now MENU); [exact G | apply optionAt_In
                                          | exact A].
  - destruct app as [g sel mp was jd ld rd dp em rs au gr pf].
    cbn [gameState] in G. subst g.
    destruct c; alive_compute; rewrite ?perform_health; exact A.
  - destruct c; try exact A.
    apply (handleAction_alive now PAUSED); [exact G | apply optionAt_In
                                            | exact A].
  - destruct c; try exact A.
    apply (handleAction_alive now GAME_OVER); [exact G | apply optionAt_In
                                               | exact A].
  - destruct c; try exact A.
    apply (handleAction_alive now LEVEL_COMPLETE);
      [exact G | apply optionAt_In | exact A].
Qed.

Lemma handle_alive (now : Q) (e : AppEvent) (app app' : App) :
  gameStateRef (gameRef app) = gameState app ->
  aliveInv app ->
  handle now e app = Some app' ->
  aliveInv app'.
Proof.
  intros G A H.
  assert (Same : forall x : App,
            gameState x = gameState app ->
            healthRef (session (gameRef x))
            = healthRef (session (gameRef app)) ->
            aliveInv x).
  { intros x S E. unfold aliveInv in *. rewrite S, E. exact A. }
  destruct e as [k r | k | c | i | i | | | | | | ph | style | b | delta sfx |];
    cbn [handle] in H.
  - injection H as <-. apply onKeyDown_alive. exact A.
  - injection H as <-. apply Same; reflexivity.
  - injection H as <-. apply handleBtnTouchStart_alive. exact A.
  - destruct (nth_error (menuOptions (gameState app)) i) as [act |] eqn:N;
      injection H as <-; [|exact A].
    apply (handleAction_alive now (gameState app) (Some act));
      [reflexivity | | exact A].
    intros a [= <-]. eapply nth_error_In. exact N.
  - destruct (nth_error (menuOptions (gameState app)) i);
      injection H as <-; apply Same; reflexivity.
  - injection H as <-. apply Same; reflexivity.
  - injection H as <-. apply Same; reflexivity.
  - injection H as <-. apply Same; reflexivity.
  - injection H as <-. apply Same; reflexivity.
  - injection H as <-. apply Same; reflexivity.
  - destruct (option_GamePhase_eqb (debugPhase app) ph);
      injection H as <-; [exact A|].
    apply Same; [reflexivity|].
    exact (perform_health (PropDebugPhase ph) (gameRef app)).
  - destruct (RenderStyle_eqb style (renderStyle app));
      injection H as <-; [exact A|].
    apply Same; [reflexivity|].
    exact (perform_health PropRenderStyle (gameRef app)).
  - destruct (Bool.eqb b (emptyMode app));
      injection H as <-; [exact A|].
    apply Same; [reflexivity|].
    exact (perform_health (PropEmptyMode b) (gameRef app)).
  - injection H as <-. apply animationFrame_alive; assumption.
  - destruct (audioCall (IntervalFires now) (audioSystem app));
      [|discriminate H].
    injection H as <-. apply Same; reflexivity.
Qed.

Lemma commit_alive (now : Q) (before app : App) :
  aliveInv app -> aliveInv (commit now before app).
Proof.
  intro A. unfold commit.
  destruct (GameState_eqb (gameState app) (gameState before)); [exact A|].
  unfold gameStateEffects, aliveInv.
  rewrite musicEffect_state.
  change (gameState (canvas (PropGameState (gameState app)) app))
    with (gameState app).
  assert (E : healthRef (session (gameRef
                (musicEffect now
                   (canvas (PropGameState (gameState app)) app))))
              = healthRef (session (gameRef app))).
  { unfold musicEffect. cbv zeta.
    destruct (gameState (canvas (PropGameState (gameState app)) app));
      try reflexivity.
    - destruct (wasPlayingRef _); reflexivity.
    - destruct (isMusicPlaying _); reflexivity. }
  rewrite E. exact A.
Qed.

Lemma appRun_alive (rng : nat -> Q) (trace : list (Q * AppEvent))
  (app : App) :
  appInv rng app -> aliveInv app ->
  exists app', appRun trace app = Some app' /\ appInv rng app'
               /\ aliveInv app'.
Proof.
  revert app. induction trace as [| [now e] rest IH]; intros app I A.
  - exists app. split; [reflexivity|]. split; assumption.
  - destruct (pre_handle rng (gameState app) now e app I) as (app1 & H & I1).
    assert (G : gameStateRef (gameRef app) = gameState app) by apply I.
    pose proof (handle_alive now e app app1 G A H) as A1.
    cbn [appRun]. unfold dispatch. rewrite H. cbn [option_map].
    apply IH; [apply commit_inv; exact I1 | apply commit_alive; exact A1].
Qed.

(** The claim of the design document taken literally: in a new game whose
    segments each hold two obstacles in the same place of the player's lane,
    the eleventh frame of 0.1 s hits two obstacles with health 20; health goes
    to 0 and then to -20.  The frame calls [setGameState(GAME_OVER)] twice
    and the game state changes once, from PLAYING to GAME_OVER, where the
    next frames leave it with the health and the calls as they are. *)
Lemma C2_counterexample :
  option_map (fun app => (gameState app, healthRef (session (gameRef app))))
    (twinsGame 10) = Some (PLAYING, 20)
  /\ option_map
       (fun app => (gameState app, healthRef (session (gameRef app)),
                    stateCalls (session (gameRef app))))
       (twinsGame 11) = Some (GAME_OVER, -20, [GAME_OVER; GAME_OVER])
  /\ option_map
       (fun app => (gameState app, healthRef (session (gameRef app)),
                    stateCalls (session (gameRef app))))
       (twinsGame 14) = Some (GAME_OVER, -20, [GAME_OVER; GAME_OVER])
  /\ healthRef
       (resolveAll [SIMPLE; WALL; DOOR; BALL; BULLET; EXTRUDING]
          (session (newGame rngTwins))) = -20.
Proof. vm_compute. repeat split; reflexivity. Qed.

(** C2 (amended).  After any actions on a new game and any further sequence
    of resolutions, health is a multiple of 20 and at most 100.  A HEART
    resolution sets it to [min(100, health + 20)], a SPEED_BOOST or CLOCK
    resolution leaves it, and every other resolution subtracts 20, with no
    floor at 0: health is not negative after a resolution that found it
    positive, but it can go below 0 when further resolutions follow in the
    same frame.  Every resolution that leaves health at 0 or below calls
    [setGameState(GAME_OVER)], and no other does.  In the application, after
    any events, a game that is being played has health left, and a frame
    in which a resolution leaves the health at 0 or below (a frame that
    calls the setter with GAME_OVER, as every frame does that ends with the
    health at 0 or below) makes exactly one change of the game state, from
    PLAYING to GAME_OVER, however often it has called the setter, and no
    other frame does; the canvas has seen the new state when the next event
    arrives.
    It is never renegotiated: in GAME_OVER a frame leaves the state, the
    health and the calls of the setter as they are, and only the choice of
    a menu entry leaves the state. *)
Theorem C2_health_bounds (rng : nat -> Q) (acts : list Action)
  (tys : list ObstacleType) (trace : list (Q * AppEvent)) (now : Q) :
  let s := resolveAll tys (session (run acts (newGame rng))) in
  healthRef (session (newGame rng)) = 100
  /\ healthRef s <= 100
  /\ (20 | healthRef s)
  /\ (forall ty,
        let s' := resolve ty s in
        healthRef s' = match ty with
                       | HEART => Z.min 100 (healthRef s + 20)
                       | SPEED_BOOST | CLOCK_BLUE => healthRef s
                       | _ => healthRef s - 20
                       end
        /\ healthRef s' <= 100
        /\ (0 < healthRef s -> 0 <= healthRef s')
        /\ stateCalls s' =
           stateCalls s ++ (if healthRef s' <=? 0 then [GAME_OVER] else []))
  /\ exists app,
       appRun trace (initialApp rng) = Some app
       /\ (gameState app = PLAYING -> 0 < healthRef (session (gameRef app)))
       /\ (forall delta sfx,
             exists app',
               dispatch now (AnimationFrame delta sfx) app = Some app'
               /\ (gameState app = PLAYING ->
                   healthRef (session (gameRef app')) <= 0 ->
                   gameState app' = GAME_OVER
                   /\ gameStateRef (gameRef app') = GAME_OVER)
               /\ (gameState app = PLAYING ->
                   exists asked,
                     stateCalls (session (gameRef app'))
                     = stateCalls (session (gameRef app)) ++ asked
                     /\ (In GAME_OVER asked <-> gameState app' = GAME_OVER))
               /\ (gameState app' = GAME_OVER ->
                   gameState app = PLAYING \/ gameState app = GAME_OVER)
               /\ (gameState app = GAME_OVER ->
                   gameState app' = GAME_OVER
                   /\ healthRef (session (gameRef app'))
                      = healthRef (session (gameRef app))
                   /\ stateCalls (session (gameRef app'))
                      = stateCalls (session (gameRef app))))
       /\ (forall e,
             gameState app = GAME_OVER -> confirms e = false ->
             exists app',
               dispatch now e app = Some app'
               /\ gameState app' = GAME_OVER).
Proof.
  intro s.
  assert (Hinv : healthInv s).
  { apply resolveAll_healthInv, run_healthInv.
    split; [rewrite newGame_health; lia | exists 5; reflexivity]. }
  split; [reflexivity|]. split; [apply Hinv|]. split; [apply Hinv|].
  split.
  { intros ty s'. unfold s'.
    split; [apply resolve_health|].
    split; [apply (resolve_healthInv ty s Hinv)|].
    split; [| apply resolve_stateCalls].
    intro Hpos. rewrite resolve_health. destruct Hinv as [Hle [k Hk]].
    destruct ty; lia. }
  assert (A0 : aliveInv (initialApp rng)) by exact I.
  destruct (appRun_alive rng trace (initialApp rng) (initialApp_inv rng) A0)
    as (app & R & Inv & A).
  assert (G : gameStateRef (gameRef app) = gameState app) by apply Inv.
  exists app. split; [exact R|].
  split; [intro P; unfold aliveInv in A; rewrite P in A; exact A|].
  split.
  - intros delta sfx.
    destruct (pre_handle rng (gameState app) now (AnimationFrame delta sfx)
                app Inv) as (app1 & H & I1).
    pose proof H as H'. cbn [handle] in H'. injection H' as E1.
    exists (commit now app app1).
    split; [unfold dispatch; rewrite H; reflexivity|].
    destruct (commit_shape now app app1) as (CS & _).
    pose proof (commit_inv rng now app app1 I1) as (_ & CG & _).
    assert (CH : healthRef (session (gameRef (commit now app app1)))
                 = healthRef (session (gameRef app1))
                 /\ stateCalls (session (gameRef (commit now app app1)))
                    = stateCalls (session (gameRef app1))).
    { unfold commit.
      destruct (GameState_eqb (gameState app1) (gameState app));
        [split; reflexivity|].
      unfold gameStateEffects, musicEffect. cbv zeta.
      destruct (gameState (canvas (PropGameState (gameState app1)) app1));
        try (split; reflexivity).
      - destruct (wasPlayingRef _); split; reflexivity.
      - destruct (isMusicPlaying _); split; reflexivity. }
    destruct CH as (CH & CC).
    destruct (animationFrame_alive delta sfx app G A) as (_ & Over & Asked).
    destruct (animationFrame_state delta sfx app G) as (S & _ & Rf & _).
    rewrite E1 in Over, Asked, S, Rf.
    split.
    { intros P Z. rewrite CH in Z.
      assert (L : gameState app1 = GAME_OVER) by (apply Over; assumption).
      split; [rewrite CS; exact L | rewrite CG, CS; exact L]. }
    split.
    { intro P. destruct (Asked P) as (asked & Ca & Ia).
      exists asked. rewrite CC, CS. split; assumption. }
    split.
    { rewrite CS. intro L.
      destruct S as [S | (P & _)]; [right; congruence | left; exact P]. }
    intro O.
    assert (S' : gameState app1 = gameState app).
    { destruct S as [S | (P & _)]; [exact S | congruence]. }
    split; [rewrite CS, S'; exact O|].
    assert (N : gameStateRef (gameRef app) <> PLAYING)
      by (rewrite G, O; discriminate).
    destruct (tick_idle_fields delta (gameRef app) N)
      as (_ & _ & _ & Hh & _ & _ & Hc).
    rewrite CH, CC, Rf. split; assumption.
  - intros e O C.
    destruct (pre_handle rng (gameState app) now e app Inv)
      as (app1 & H & _).
    exists (commit now app app1).
    split; [unfold dispatch; rewrite H; reflexivity|].
    destruct (commit_shape now app app1) as (CS & _). rewrite CS.
    destruct (handle_state now e app app1 G H) as ([S | S] & _);
      [congruence|].
    rewrite O in S. unfold stateChange in S. rewrite C in S.
    destruct (gameState app1); try discriminate S; reflexivity.
Qed.
